(** * spacehogs: a shallow embedding of [spacehogs.go] and its properties

    The program scans a directory tree, sums file sizes bottom-up and records
    every file and directory whose size reaches a threshold.  This file embeds
    [parseSize], [humanReadableSize], [addResult], [walkDirRecursive] and [run]
    and settles the properties stated about them.

    Conventions.
    - Go strings are byte strings: [string] with [ascii] as a byte.
    - [uint64] and [int64] values are [Z] with the wrap-around written out.
    - [float64] values are [spec_float] at precision 53 and [emax] 1024, the
      IEEE 754 binary64 format of the standard library's [SpecFloat].
    - The process-wide [results] slice is threaded explicitly; what a
      traversal does to it (and to the error stream) is a list of events.
    - Goroutines are modelled twice: [walkDirRecursive] runs every goroutine
      to completion at the point where it is spawned (one legal schedule), and
      [walkR] admits every interleaving the [WaitGroup] allows. *)

From Stdlib Require Import ZArith Lia Ascii String List Permutation Sorted Recdef.
From Stdlib Require Import DecimalString.
From Stdlib Require Import Floats.SpecFloat.
From stdpp Require Import gmap strings list.

Local Open Scope Z_scope.

Set Warnings "-register-all".

(** ** Bytes and strings of the Go standard library *)

Module GoStrings.

Definition code (c : ascii) : Z := Z.of_N (N_of_ascii c).

Definition chr (n : Z) : ascii := ascii_of_N (Z.to_N n).

Definition str (l : list Z) : string := string_of_list_ascii (map chr l).

Definition is_digit (c : ascii) : bool := (48 <=? code c) && (code c <=? 57).

(** [strings.HasPrefix]. *)
Definition HasPrefix (s p : string) : bool := String.prefix p s.

(** [strings.ToUpper] on its ASCII fast path: bytes [a]..[z] are shifted,
    every other byte is kept.  The only non-ASCII text that reaches it in
    this program is U+212A, which is its own upper case. *)
Definition upper_byte (c : ascii) : ascii :=
  if (97 <=? code c) && (code c <=? 122) then chr (code c - 32) else c.

Fixpoint ToUpper (s : string) : string :=
  match s with
  | EmptyString => EmptyString
  | String c s' => String (upper_byte c) (ToUpper s')
  end.

(** Every byte of [s] satisfies [p]. *)
Fixpoint all_of (p : ascii -> bool) (s : string) : bool :=
  match s with
  | EmptyString => true
  | String c s' => p c && all_of p s'
  end.

(** The longest prefix whose bytes satisfy [p], and the rest. *)
Fixpoint span (p : ascii -> bool) (s : string) : string * string :=
  match s with
  | EmptyString => (EmptyString, EmptyString)
  | String c s' =>
      if p c then let '(a, b) := span p s' in (String c a, b)
      else (EmptyString, s)
  end.

Fixpoint rev_string (acc s : string) : string :=
  match s with
  | EmptyString => acc
  | String c s' => rev_string (String c acc) s'
  end.

Fixpoint strip_prefix (p s : string) : option string :=
  match p, s with
  | EmptyString, _ => Some s
  | String a p', String b s' => if Ascii.eqb a b then strip_prefix p' s' else None
  | String _ _, EmptyString => None
  end.

(** UTF-8 encodings of the code points with the Unicode White_Space
    property, which is what [unicode.IsSpace] tests: U+0009..U+000D,
    U+0020, U+0085, U+00A0, U+1680, U+2000..U+200A, U+2028, U+2029,
    U+202F, U+205F and U+3000. *)
Definition space_encodings : list string :=
  map str
    ([[9]; [10]; [11]; [12]; [13]; [32]; [194; 133]; [194; 160]; [225; 154; 128]]
     ++ map (fun k => [226; 128; 128 + k]) [0; 1; 2; 3; 4; 5; 6; 7; 8; 9; 10]
     ++ [[226; 128; 168]; [226; 128; 169]; [226; 128; 175]; [226; 129; 159];
         [227; 128; 128]]).

Fixpoint strip_any (encs : list string) (s : string) : option string :=
  match encs with
  | [] => None
  | e :: encs' =>
      match strip_prefix e s with
      | Some r => Some r
      | None => strip_any encs' s
      end
  end.

Fixpoint trim_left (encs : list string) (fuel : nat) (s : string) : string :=
  match fuel with
  | O => s
  | S fuel' =>
      match strip_any encs s with
      | Some r => trim_left encs fuel' r
      | None => s
      end
  end.

(** [strings.TrimSpace]: leading, then trailing white space is cut, one
    encoded code point at a time. *)
Definition TrimSpace (s : string) : string :=
  let l := trim_left space_encodings (String.length s) s in
  let r := rev_string EmptyString l in
  rev_string EmptyString
    (trim_left (map (rev_string EmptyString) space_encodings) (String.length r) r).

(** [strings.Split] with a one-byte separator. *)
Fixpoint Split (s : string) (sep : ascii) : list string :=
  match s with
  | EmptyString => [EmptyString]
  | String c s' =>
      if Ascii.eqb c sep then EmptyString :: Split s' sep
      else match Split s' sep with
           | h :: t => String c h :: t
           | [] => [String c EmptyString]
           end
  end.

Fixpoint join_with (sep : string) (l : list string) : string :=
  match l with
  | [] => EmptyString
  | [x] => x
  | x :: l' => x +:+ sep +:+ join_with sep l'
  end.

End GoStrings.

(** ** [path/filepath] on a Unix system *)

Module Filepath.
Import GoStrings.

Definition slash : ascii := chr 47.

(** One step of the component walk of [Clean]: [out] is the stack of
    components kept so far, innermost first. *)
Definition clean_step (rooted : bool) (out : list string) (c : string) : list string :=
  if String.eqb c "" then out
  else if String.eqb c "." then out
  else if String.eqb c ".." then
    match out with
    | top :: out' => if String.eqb top ".." then c :: out else out'
    | [] => if rooted then [] else [c]
    end
  else c :: out.

(** The components that [Clean] keeps: empty and [.] components go, [..]
    removes the component before it (or is dropped at the root). *)
Definition clean_components (rooted : bool) (p : string) : list string :=
  rev (fold_left (clean_step rooted) (Split p slash) []).

(** [filepath.Clean]; the empty result is [.]. *)
Definition Clean (p : string) : string :=
  match p with
  | EmptyString => "."
  | String c _ =>
      let rooted := Ascii.eqb c slash in
      let body := join_with "/" (clean_components rooted p) in
      if rooted then String slash body
      else if String.eqb body "" then "." else body
  end.

(** [filepath.Base]: the last component, trailing slashes ignored. *)
Definition Base (p : string) : string :=
  match p with
  | EmptyString => "."
  | _ =>
      match List.filter (fun c => negb (String.eqb c "")) (Split p slash) with
      | [] => "/"
      | c :: l => List.last l c
      end
  end.

(** [filepath.Join] of two elements: empty elements are ignored and the
    result is cleaned. *)
Definition Join (a b : string) : string :=
  if String.eqb a "" then (if String.eqb b "" then "" else Clean b)
  else if String.eqb b "" then Clean a
  else Clean (a +:+ "/" +:+ b).

End Filepath.

(** ** [float64] *)

Module Float64.

Definition prec : Z := 53.
Definition emax : Z := 1024.

(** The binary64 value nearest to [n / d] (ties to even), for [0 <= n] and
    [0 < d].  The quotient is taken with at least two bits more than the
    format holds and a sticky bit for the remainder, so the one rounding done
    by [binary_normalize] is the correct one. *)
Definition of_ratio (n d : Z) : spec_float :=
  let s := Z.max 0 (prec + 2 + Z.log2_up d - Z.log2 n) in
  let q := (n * 2 ^ s) / d in
  let r := (n * 2 ^ s) mod d in
  binary_normalize prec emax (2 * q + (if r =? 0 then 0 else 1)) (- s - 1) false.

(** Conversion of an integer ([float64(x)]), rounded to nearest even. *)
Definition of_Z (n : Z) : spec_float := binary_normalize prec emax n 0 false.

Definition mul (x y : spec_float) : spec_float := SFmul prec emax x y.
Definition div (x y : spec_float) : spec_float := SFdiv prec emax x y.

Definition is_finite (f : spec_float) : bool :=
  match f with
  | S754_zero _ | S754_finite _ _ _ => true
  | _ => false
  end.

(** The integer part of a finite value: the fraction is discarded. *)
Definition trunc (f : spec_float) : Z :=
  match f with
  | S754_finite s m e =>
      let v := if 0 <=? e then Z.pos m * 2 ^ e else Z.pos m / 2 ^ (- e) in
      if s then - v else v
  | _ => 0
  end.

(** [f * 10^k] rounded to an integer, ties to even, for a non-negative
    finite [f]: the digits that the verb [%.kf] prints. *)
Definition scaled_round (k : Z) (f : spec_float) : Z :=
  match f with
  | S754_finite false m e =>
      if 0 <=? e then Z.pos m * 2 ^ e * 10 ^ k
      else
        let num := Z.pos m * 10 ^ k in
        let den := 2 ^ (- e) in
        let q := num / den in
        let r := num mod den in
        if 2 * r <? den then q
        else if den <? 2 * r then q + 1
        else if Z.even q then q else q + 1
  | _ => 0
  end.

End Float64.

(** ** [fmt] verbs used by the program *)

Module Fmt.
Import GoStrings.

(** [%d] of a non-negative integer. *)
Definition decimal (n : Z) : string := NilZero.string_of_uint (N.to_uint (Z.to_N n)).

(** [%.2f] of a non-negative finite [float64]. *)
Definition fixed2 (f : spec_float) : string :=
  let n := Float64.scaled_round 2 f in
  let frac := decimal (n mod 100) in
  decimal (n / 100) +:+ "." +:+ (if n mod 100 <? 10 then "0" +:+ frac else frac).

Fixpoint spaces (n : nat) : string :=
  match n with
  | O => EmptyString
  | S n' => String (chr 32) (spaces n')
  end.

(** [%-10s]: padded with spaces on the right up to ten characters. *)
Definition pad10 (s : string) : string := s +:+ spaces (10 - String.length s).

End Fmt.

(** ** Results and errors *)

(** A Go [(T, error)] pair: either the value with a nil error, or an error
    with its message ([err.Error()]). *)
Inductive result (A : Type) : Type :=
| Ok (a : A)
| Err (msg : string).

Arguments Ok {A} a.
Arguments Err {A} msg.

(** ** [parseSize] *)

Module SizeParser.
Import GoStrings.

Definition uint64_max : Z := 2 ^ 64 - 1.

(** [\d] or a dot: the class [[\d\.]]. *)
Definition is_num_byte (c : ascii) : bool := is_digit c || (code c =? 46).

(** The class [\s] of Go regular expressions: tab, newline, form feed,
    carriage return and space. *)
Definition is_re_space (c : ascii) : bool :=
  (code c =? 9) || (code c =? 10) || (code c =? 12) || (code c =? 13) || (code c =? 32).

(** U+212A KELVIN SIGN in UTF-8.  Under the flag [(?i)] a letter matches
    every code point of its simple case-folding orbit, and the orbit of [k]
    is [k], [K] and U+212A. *)
Definition kelvin : string := str [226; 132; 170].

Definition is_unit_letter (c : ascii) : bool :=
  let u := code (upper_byte c) in
  (u =? 75) || (u =? 77) || (u =? 71) || (u =? 84) || (u =? 80).

(** [[kmgtp]?] under [(?i)]: what is left after the optional letter. *)
Definition skip_unit_letter (u : string) : string :=
  match u with
  | EmptyString => u
  | String c u' =>
      if is_unit_letter c then u'
      else match strip_prefix kelvin u with
           | Some r => r
           | None => u
           end
  end.

(** [b?] under [(?i)]. *)
Definition skip_b (u : string) : string :=
  match u with
  | EmptyString => u
  | String c u' => if code (upper_byte c) =? 66 then u' else u
  end.

(** [re.FindStringSubmatch] for the expression
    [(?i)^([\d\.]+)\s*([kmgtp]?b?)$]: the two captured groups, or [None]
    when the text does not match.  The three parts draw on disjoint sets of
    bytes, so the greedy choice is the only one. *)
Definition FindStringSubmatch (t : string) : option (string * string) :=
  let '(num, rest) := span is_num_byte t in
  if String.eqb num "" then None
  else
    let '(_, u) := span is_re_space rest in
    if String.eqb (skip_b (skip_unit_letter u)) "" then Some (num, u) else None.

Fixpoint digits_value (acc : Z) (s : string) : Z :=
  match s with
  | EmptyString => acc
  | String c s' => digits_value (10 * acc + (code c - 48)) s'
  end.

(** [strconv.ParseFloat(s, 64)] on the texts that [FindStringSubmatch]
    captures (digits and dots): digits, then possibly a dot and digits.  It
    is a syntax error when there is no digit or when something is left over
    (a second dot), a range error when the nearest [float64] is infinite;
    [None] stands for a non-nil error. *)
Definition ParseFloat (s : string) : option spec_float :=
  let '(ip, rest) := span is_digit s in
  let '(fp, rest') :=
    match rest with
    | EmptyString => (EmptyString, EmptyString)
    | String c r => if code c =? 46 then span is_digit r else (EmptyString, rest)
    end in
  if negb (String.eqb rest' "") then None
  else if String.eqb (ip +:+ fp) "" then None
  else
    let f := Float64.of_ratio (digits_value 0 (ip +:+ fp))
                              (10 ^ Z.of_nat (String.length fp)) in
    if Float64.is_finite f then Some f else None.

Section Conversion.

(** The conversion [uint64(f)] of a [float64] that [uint64] cannot
    represent succeeds with an implementation-dependent value. *)
Variable uint64_unrepresentable : spec_float -> Z.

Definition uint64_of_float64 (f : spec_float) : Z :=
  match f with
  | S754_zero _ => 0
  | S754_finite _ _ _ =>
      if (0 <=? Float64.trunc f) && (Float64.trunc f <=? uint64_max) then Float64.trunc f
      else uint64_unrepresentable f mod 2 ^ 64
  | _ => uint64_unrepresentable f mod 2 ^ 64
  end.

Definition parseSize (sizeStr : string) : result Z :=
  match FindStringSubmatch (TrimSpace sizeStr) with
  | None => Err ("invalid size format: " +:+ sizeStr)
  | Some (num, unit0) =>
      match ParseFloat num with
      | None => Err ("invalid size number: " +:+ num)
      | Some size =>
          let unit := ToUpper unit0 in
          let size :=
            if HasPrefix unit "T" then Float64.mul size (Float64.of_Z (1024 * 1024 * 1024 * 1024))
            else if HasPrefix unit "G" then Float64.mul size (Float64.of_Z (1024 * 1024 * 1024))
            else if HasPrefix unit "M" then Float64.mul size (Float64.of_Z (1024 * 1024))
            else if HasPrefix unit "K" then Float64.mul size (Float64.of_Z 1024)
            else size in
          Ok (uint64_of_float64 size)
      end
  end.

End Conversion.

End SizeParser.

(** ** [humanReadableSize] *)

Module Formatter.
Import GoStrings.

Definition unit : Z := 1024.

(** [int64] arithmetic wraps around. *)
Definition wrap_int64 (x : Z) : Z := (x + 2 ^ 63) mod 2 ^ 64 - 2 ^ 63.

(** The loop [for n := size / unit; n >= unit; n /= unit { div *= unit; exp++ }],
    entered with the current [n], [div] and [exp]. *)
Function unit_loop (n div exp : Z) {measure (fun n => Z.to_nat (Z.log2 n)) n} : Z * Z :=
  if unit <=? n then unit_loop (n / unit) (wrap_int64 (div * unit)) (exp + 1)
  else (div, exp).
Proof.
  intros n _ _ H. apply Z.leb_le in H. unfold unit in *.
  change 1024 with (2 ^ 10) at 1. rewrite <- Z.shiftr_div_pow2 by lia.
  rewrite Z.log2_shiftr by lia.
  assert (10 <= Z.log2 n) by (apply Z.log2_le_pow2; lia).
  lia.
Defined.

(** Indexing a string: [None] is the run-time panic for an index out of
    range. *)
Definition index (s : string) (i : Z) : option ascii :=
  if i <? 0 then None else String.get (Z.to_nat i) s.

(** [None] stands for a run-time panic. *)
Definition humanReadableSize (size : Z) : option string :=
  if size <? 1024 then Some (Fmt.decimal size +:+ " B")
  else
    let '(div, exp) := unit_loop (size / unit) unit 0 in
    match index "KMGTPE" exp with
    | None => None
    | Some c =>
        Some (Fmt.fixed2 (Float64.div (Float64.of_Z size) (Float64.of_Z div))
              +:+ " " +:+ String c "iB")
    end.

End Formatter.

(** ** The file system as the program sees it *)

(** A directory entry together with what the program will learn about it:
    for a file the outcome of [entry.Info()] (the [int64] of [info.Size()], or
    an error), for a directory the outcome of [os.ReadDir] on it. *)
Inductive entry : Type :=
| File (name : string) (info : result Z)
| Dir (name : string) (listing : result (list entry)).

Definition Name (e : entry) : string :=
  match e with
  | File name _ => name
  | Dir name _ => name
  end.

Definition EntryIsDir (e : entry) : bool :=
  match e with
  | File _ _ => false
  | Dir _ _ => true
  end.

(** ** Results *)

Record FileInfo : Type := mkFileInfo { Path : string; Size : Z; IsDir : bool }.

(** What a traversal does to the shared state, in the order it happens: an
    [addResult] under the mutex, or a line on the error stream. *)
Inductive event : Type :=
| Recorded (fi : FileInfo)
| Diagnostic (line : string).

(** [uint64(x)] of an integer, and addition on [uint64]. *)
Definition uint64 (x : Z) : Z := x mod 2 ^ 64.
Definition add64 (a b : Z) : Z := (a + b) mod 2 ^ 64.

(** [addResult]: the append to the process-wide slice. *)
Definition addResult (path : string) (size : Z) (isDir : bool)
    (results : list FileInfo) : list FileInfo :=
  results ++ [mkFileInfo path size isDir].

Definition recorded (trace : list event) : list FileInfo :=
  omap (fun ev => match ev with Recorded fi => Some fi | Diagnostic _ => None end) trace.

Definition diagnostics (trace : list event) : list string :=
  omap (fun ev => match ev with Diagnostic l => Some l | Recorded _ => None end) trace.

(** ** [walkDirRecursive] *)

Section Aggregator.

Variable threshold : Z.
Variable excludeSet : gset string.

Definition excluded (name : string) : bool := bool_decide (name ∈ excludeSet).

(** [if size >= threshold { addResult(path, size, isDir) }]. *)
Definition record_if (path : string) (size : Z) (isDir : bool) : list event :=
  if threshold <=? size then [Recorded (mkFileInfo path size isDir)] else [].

Definition read_error (path msg : string) : event :=
  Diagnostic ("Error reading directory " +:+ path +:+ ": " +:+ msg).

Definition info_error (fullPath msg : string) : event :=
  Diagnostic ("Error getting info for " +:+ fullPath +:+ ": " +:+ msg).

(** The state of one call while it loops over the entries: the running
    [totalSize], the sizes sitting in [sizeChannel], and what has happened
    so far. *)
Record frame : Type := mkFrame {
  totalSize : Z;
  sizeChannel : list Z;
  trace : list event
}.

Definition frame0 : frame := mkFrame 0 [] [].

(** The two loops of a call, given what one iteration does. *)
Definition walk_with (visit : string -> frame -> entry -> frame)
    (path : string) (listing : result (list entry)) : Z * list event :=
  match listing with
  | Err msg => (0, [read_error path msg])
  | Ok entries =>
      let fr := fold_left (visit path) entries frame0 in
      (fold_left add64 (sizeChannel fr) (totalSize fr), trace fr)
  end.

(** One iteration of [for _, entry := range entries], on the schedule that
    runs a goroutine to its end as soon as it is spawned. *)
Fixpoint visit (path : string) (fr : frame) (e : entry) {struct e} : frame :=
  match e with
  | File name info =>
      if excluded name then fr
      else
        let fullPath := Filepath.Join path name in
        match info with
        | Err msg =>
            mkFrame (totalSize fr) (sizeChannel fr) (trace fr ++ [info_error fullPath msg])
        | Ok sz =>
            let fileSize := uint64 sz in
            mkFrame (add64 (totalSize fr) fileSize) (sizeChannel fr)
                    (trace fr ++ record_if fullPath fileSize false)
        end
  | Dir name listing =>
      if excluded name then fr
      else
        let p := Filepath.Join path name in
        let '(subdirSize, sub) := walk_with visit p listing in
        mkFrame (totalSize fr) (sizeChannel fr ++ [subdirSize])
                (trace fr ++ sub ++ record_if p subdirSize true)
  end.

Definition walkDirRecursive (path : string) (listing : result (list entry))
    : Z * list event :=
  walk_with visit path listing.

(** *** Every schedule *)

(** What the task of a call does, in program order: an event of its own, or
    the spawning of a goroutine that will produce the events [g]. *)
Inductive item : Type :=
| Emit (ev : event)
| Spawn (g : list event).

Definition emits (evs : list event) : list item := map Emit evs.

(** [sched items pool t]: the task still has [items] to do, the goroutines
    in [pool] still have their events to produce, and [t] is one order in
    which all of it can happen before [wg.Wait()] returns. *)
Inductive sched : list item -> list (list event) -> list event -> Prop :=
| sched_done pool :
    Forall (fun g => g = []) pool -> sched [] pool []
| sched_emit ev items pool t :
    sched items pool t -> sched (Emit ev :: items) pool (ev :: t)
| sched_spawn g items pool t :
    sched items (g :: pool) t -> sched (Spawn g :: items) pool t
| sched_go items pool1 ev g pool2 t :
    sched items (pool1 ++ g :: pool2) t ->
    sched items (pool1 ++ (ev :: g) :: pool2) (ev :: t).

(** [walkR path listing total t]: a call on [path] can return [total]
    having produced the events [t].  [loopR path entries acc total items sizes]
    is its first loop from [totalSize = acc]: it leaves [totalSize = total],
    has [items] as its program, and the goroutines it spawned return
    [sizes].  The channel delivers those sizes in the order the goroutines
    finished. *)
Inductive walkR : string -> result (list entry) -> Z -> list event -> Prop :=
| walkR_err path msg :
    walkR path (Err msg) 0 [read_error path msg]
| walkR_ok path entries total items sizes chan t :
    loopR path entries 0 total items sizes ->
    sched items [] t ->
    Permutation sizes chan ->
    walkR path (Ok entries) (fold_left add64 chan total) t
with loopR : string -> list entry -> Z -> Z -> list item -> list Z -> Prop :=
| loopR_nil path acc :
    loopR path [] acc acc [] []
| loopR_excluded path e rest acc total items sizes :
    excluded (Name e) = true ->
    loopR path rest acc total items sizes ->
    loopR path (e :: rest) acc total items sizes
| loopR_dir path name listing rest acc total items sizes subdirSize sub :
    excluded name = false ->
    walkR (Filepath.Join path name) listing subdirSize sub ->
    loopR path rest acc total items sizes ->
    loopR path (Dir name listing :: rest) acc total
          (Spawn (sub ++ record_if (Filepath.Join path name) subdirSize true) :: items)
          (subdirSize :: sizes)
| loopR_info_error path name msg rest acc total items sizes :
    excluded name = false ->
    loopR path rest acc total items sizes ->
    loopR path (File name (Err msg) :: rest) acc total
          (Emit (info_error (Filepath.Join path name) msg) :: items) sizes
| loopR_file path name sz rest acc total items sizes :
    excluded name = false ->
    loopR path rest (add64 acc (uint64 sz)) total items sizes ->
    loopR path (File name (Ok sz) :: rest) acc total
          (emits (record_if (Filepath.Join path name) (uint64 sz) false) ++ items) sizes.

End Aggregator.

Scheme walkR_mut := Minimality for walkR Sort Prop
  with loopR_mut := Minimality for loopR Sort Prop.

(** ** The process: the [results] variable and the two output streams *)

Record process : Type := mkProcess {
  results : list FileInfo;
  stdout : list string;
  stderr : list string
}.

Definition print (line : string) (st : process) : process :=
  mkProcess (results st) (stdout st ++ [line]) (stderr st).

Definition eprint (line : string) (st : process) : process :=
  mkProcess (results st) (stdout st) (stderr st ++ [line]).

Definition apply_event (st : process) (ev : event) : process :=
  match ev with
  | Recorded fi => mkProcess (addResult (Path fi) (Size fi) (IsDir fi) (results st))
                             (stdout st) (stderr st)
  | Diagnostic line => eprint line st
  end.

(** ** [sort.Slice] with the comparison of [run] *)

(** The function handed to [sort.Slice]. *)
Definition less (a b : FileInfo) : bool :=
  if negb (Bool.eqb (IsDir a) (IsDir b)) then IsDir a
  else if negb (Size a =? Size b) then Size b <? Size a
  else String.ltb (Path a) (Path b).

Fixpoint insert (x : FileInfo) (l : list FileInfo) : list FileInfo :=
  match l with
  | [] => [x]
  | y :: l' => if less x y then x :: l else y :: insert x l'
  end.

(** [sort.Slice] promises a permutation ordered by [less] and no more (it is
    not stable).  Two records that [less] does not order are equal, so that
    permutation is unique ([sort_Slice_unique] below) and insertion computes
    it. *)
Definition sort_Slice (l : list FileInfo) : list FileInfo := fold_right insert [] l.

(** ** The [flag] package, for a flag set with the one string flag [exclude] *)

Module Flag.
Import GoStrings.

Inductive parsed : Type :=
| Parsed (excludeDirs : string) (args : list string)
| HelpRequested
| Failed (msg : string).

Definition minus : ascii := chr 45.
Definition equals : ascii := chr 61.

(** The flag name and, when there is an [=] after its first byte, the
    value. *)
Definition split_value (name : string) : string * option string :=
  match name with
  | EmptyString => (name, None)
  | String c rest =>
      let '(n, v) := span (fun b => negb (Ascii.eqb b equals)) rest in
      match v with
      | EmptyString => (name, None)
      | String _ value => (String c n, Some value)
      end
  end.

(** [FlagSet.Parse]: [parseOne] until the first non-flag argument. *)
Fixpoint Parse (excludeDirs : string) (args : list string) : parsed :=
  match args with
  | [] => Parsed excludeDirs []
  | s :: args' =>
      match s with
      | String c0 (String c1 rest) =>
          if negb (Ascii.eqb c0 minus) then Parsed excludeDirs args
          else if Ascii.eqb c1 minus && String.eqb rest "" then Parsed excludeDirs args'
          else
            let name := if Ascii.eqb c1 minus then rest else String c1 rest in
            match name with
            | EmptyString => Failed ("bad flag syntax: " +:+ s)
            | String n0 _ =>
                if Ascii.eqb n0 minus || Ascii.eqb n0 equals
                then Failed ("bad flag syntax: " +:+ s)
                else
                  let '(name, value) := split_value name in
                  if String.eqb name "exclude" then
                    match value, args' with
                    | Some v, _ => Parse v args'
                    | None, v :: args'' => Parse v args''
                    | None, [] => Failed ("flag needs an argument: -" +:+ name)
                    end
                  else if String.eqb name "help" || String.eqb name "h" then HelpRequested
                  else Failed ("flag provided but not defined: -" +:+ name)
            end
      | _ => Parsed excludeDirs args
      end
  end.

End Flag.

(** ** [run] and [main] *)

Inductive outcome : Type :=
| Returned (err : option string) (st : process)
| Panicked.

Inductive prepared : Type :=
| Stop (err : option string) (st : process)
| Scan (scanPath : string) (threshold : Z) (excludeSet : gset string)
       (listing : result (list entry)) (st : process).

Definition quote : string := String (GoStrings.chr 34) EmptyString.

(** [fs.Usage], with [fs.PrintDefaults] writing to the error stream. *)
Definition usage (arg0 : string) (st : process) : process :=
  let st := eprint ("Usage: " +:+ arg0 +:+ " [options] <directory> <min_size>") st in
  let st := eprint "Size format: number[unit] (e.g., 100M, 1.5G)" st in
  let st := eprint "Units: B, K, M, G, T, P" st in
  let st := eprint "" st in
  let st := print "Options:" st in
  let st := eprint "  -exclude string" st in
  eprint (String (GoStrings.chr 32) (String (GoStrings.chr 32)
            (String (GoStrings.chr 32) (String (GoStrings.chr 32)
              (String (GoStrings.chr 9)
                 ("Comma-separated list of directory names to exclude (default "
                  +:+ quote +:+ "proc,dev,sys" +:+ quote +:+ ")")))))) st.

(** The loop that fills [excludeSet]. *)
Definition build_excludeSet (excludeDirs : string) : gset string :=
  if String.eqb excludeDirs "" then ∅
  else
    fold_left
      (fun set dir =>
         let trimmed := GoStrings.TrimSpace dir in
         if String.eqb trimmed "" then set else {[trimmed]} ∪ set)
      (GoStrings.Split excludeDirs ",") ∅.

Definition typeStr (res : FileInfo) : string :=
  if IsDir res then "[DIR] " else "[FILE]".

(** One line of the listing; [None] when [humanReadableSize] panics. *)
Definition display (res : FileInfo) : option string :=
  match Formatter.humanReadableSize (Size res) with
  | None => None
  | Some h => Some (typeStr res +:+ " " +:+ Fmt.pad10 h +:+ "  " +:+ Path res)
  end.

Section Program.

(** See [SizeParser.uint64_of_float64]. *)
Variable uint64_unrepresentable : spec_float -> Z.

(** What is at a path: the outcome of [os.Stat], and for a directory the
    listing [os.ReadDir] will return for it. *)
Variable stat : string -> result entry.

(** [run] up to the call of [walkDirRecursive]; [None] is a panic. *)
Definition run_prepare (args : list string) (st : process) : option prepared :=
  match args with
  | [] => None
  | arg0 :: args' =>
      match Flag.Parse "proc,dev,sys" args' with
      | Flag.Failed msg => Some (Stop (Some msg) (usage arg0 (eprint msg st)))
      | Flag.HelpRequested => Some (Stop (Some "flag: help requested") (usage arg0 st))
      | Flag.Parsed excludeDirs [arg_dir; minSizeStr] =>
          let excludeSet := build_excludeSet excludeDirs in
          let scanPath := Filepath.Clean arg_dir in
          if excluded excludeSet (Filepath.Base scanPath) then
            Some (Stop None
                    (print ("Top-level directory '" +:+ scanPath
                            +:+ "' is in the exclude list. Nothing to do.") st))
          else
            match SizeParser.parseSize uint64_unrepresentable minSizeStr with
            | Err msg => Some (Stop (Some ("error: " +:+ msg)) st)
            | Ok threshold =>
                match stat scanPath with
                | Err msg =>
                    Some (Stop (Some ("error accessing '" +:+ scanPath +:+ "': " +:+ msg)) st)
                | Ok (File _ _) =>
                    Some (Stop (Some ("error: '" +:+ scanPath +:+ "' is not a directory")) st)
                | Ok (Dir _ listing) =>
                    match Formatter.humanReadableSize threshold with
                    | None => None
                    | Some hrThreshold =>
                        let st := print ("Scanning directory: " +:+ scanPath) st in
                        let st := print ("Minimum size threshold: " +:+ hrThreshold) st in
                        let st := if (0 <? size excludeSet)%nat
                                  then print ("Excluding: " +:+ excludeDirs) st else st in
                        let st := print "" st in
                        let st := print "TYPE   SIZE        NAME" st in
                        let st := print "--------------------------------" st in
                        Some (Scan scanPath threshold excludeSet listing st)
                    end
                end
            end
      | Flag.Parsed _ _ => Some (Stop (Some "invalid number of arguments") (usage arg0 st))
      end
  end.

(** [run] from the return of [walkDirRecursive] on. *)
Definition run_report (scanPath : string) (threshold : Z)
    (walked : Z * list event) (st : process) : outcome :=
  let '(total, tr) := walked in
  let st := fold_left apply_event tr st in
  let collected :=
    if threshold <=? total then addResult scanPath total true (results st)
    else results st in
  let sorted := sort_Slice collected in
  match mapM display sorted with
  | None => Panicked
  | Some lines => Returned None (mkProcess sorted (stdout st ++ lines) (stderr st))
  end.

(** [run], goroutines run to their end where they are spawned. *)
Definition run (args : list string) (st : process) : outcome :=
  match run_prepare args st with
  | None => Panicked
  | Some (Stop err st') => Returned err st'
  | Some (Scan scanPath threshold excludeSet listing st') =>
      run_report scanPath threshold
        (walkDirRecursive threshold excludeSet scanPath listing) st'
  end.

(** [run] on every schedule. *)
Inductive runR (args : list string) (st : process) : outcome -> Prop :=
| runR_panic :
    run_prepare args st = None -> runR args st Panicked
| runR_stop err st' :
    run_prepare args st = Some (Stop err st') -> runR args st (Returned err st')
| runR_scan scanPath threshold excludeSet listing st' total tr :
    run_prepare args st = Some (Scan scanPath threshold excludeSet listing st') ->
    walkR threshold excludeSet scanPath listing total tr ->
    runR args st (run_report scanPath threshold (total, tr) st').

(** How the process ends: the exit status and the final state.  A panic
    ends it with status 2. *)
Definition main_of (o : outcome) (st : process) : Z * process :=
  match o with
  | Returned None st' => (0, st')
  | Returned (Some err) st' => (1, eprint err st')
  | Panicked => (2, st)
  end.

Definition main (args : list string) (st : process) : Z * process :=
  main_of (run args st) st.

End Program.

(** * Definitions used to state the properties *)

(** ** The size grammar

    The specification words a size as [<number><unit>]: a non-negative
    decimal number directly followed by an optional unit, one of B, K, M, G,
    T and P in either case, optionally followed by a literal B.  That is
    [spec_size_syntax].

    [size_syntax] is the wider grammar that the code follows: a decimal
    number, white space of the class [\s] if any, and an optional unit which
    is one of K, M, G, T and P in either case or U+212A (a case variant of
    [k]), optionally followed by a [B] in either case, or such a [B] alone;
    it is applied to the text with the white space around it trimmed. *)

Module SizeSyntax.
Import GoStrings.

Inductive decimal_number : string -> Prop :=
| decimal_integer ip :
    all_of is_digit ip = true -> ip <> "" -> decimal_number ip
| decimal_fraction ip fp :
    all_of is_digit ip = true -> all_of is_digit fp = true ->
    ip +:+ fp <> "" -> decimal_number (ip +:+ "." +:+ fp).

(** The units of the specification; the [B] that may follow is taken in
    either case. *)
Definition spec_unit_letters : list string :=
  ["b"; "B"; "k"; "K"; "m"; "M"; "g"; "G"; "t"; "T"; "p"; "P"].

Definition spec_unit (u : string) : Prop :=
  u = "" \/
  exists letter b,
    u = letter +:+ b /\ In letter spec_unit_letters /\ (b = "" \/ b = "b" \/ b = "B").

Definition spec_size_syntax (s : string) : Prop :=
  exists num u, s = num +:+ u /\ decimal_number num /\ spec_unit u.

(** The units of the regular expression. *)
Definition unit_letters : list string :=
  ["k"; "K"; SizeParser.kelvin; "m"; "M"; "g"; "G"; "t"; "T"; "p"; "P"].

Definition unit_suffix (u : string) : Prop :=
  exists letter b,
    u = letter +:+ b /\
    (letter = "" \/ In letter unit_letters) /\
    (b = "" \/ b = "b" \/ b = "B").

Definition size_syntax (t : string) : Prop :=
  exists num ws u,
    t = num +:+ ws +:+ u /\
    decimal_number num /\
    all_of SizeParser.is_re_space ws = true /\
    unit_suffix u.

(** The multiplier the specification assigns to a unit. *)
Definition unitMultiplier (letter : string) : Z :=
  if String.eqb letter "K" then 1024
  else if String.eqb letter "M" then 1024 ^ 2
  else if String.eqb letter "G" then 1024 ^ 3
  else if String.eqb letter "T" then 1024 ^ 4
  else if String.eqb letter "P" then 1024 ^ 5
  else 1.

End SizeSyntax.

(** ** Traversal *)

(** The sum of a list of integers, unbounded. *)
Definition Zsum (l : list Z) : Z := fold_right Z.add 0 l.

(** The events of a program in program order, every goroutine run where it
    is spawned. *)
Definition flatten (items : list item) : list event :=
  concat (map (fun it => match it with Emit ev => [ev] | Spawn g => g end) items).

Section TraversalSpec.

Variable threshold : Z.
Variable excludeSet : gset string.

(** What a child adds to the total of the directory at [path]: nothing
    when its name is excluded or its size cannot be obtained, its own size
    for a file, its recursively computed total for a directory. *)
Definition contribution (path : string) (e : entry) : Z :=
  if excluded excludeSet (Name e) then 0
  else match e with
       | File _ (Ok sz) => uint64 sz
       | File _ (Err _) => 0
       | Dir name listing =>
           fst (walkDirRecursive threshold excludeSet (Filepath.Join path name) listing)
       end.

(** The size the traversal computes for a node found at [p]; a file whose
    [Info] fails has none. *)
Definition computed_size (p : string) (e : entry) : option Z :=
  match e with
  | File _ (Ok sz) => Some (uint64 sz)
  | File _ (Err _) => None
  | Dir _ listing => Some (fst (walkDirRecursive threshold excludeSet p listing))
  end.

(** What one non-excluded entry of the directory at [path] makes happen. *)
Definition own_events (path : string) (e : entry) : list event :=
  let p := Filepath.Join path (Name e) in
  match e with
  | File _ (Ok sz) => record_if threshold p (uint64 sz) false
  | File _ (Err msg) => [info_error p msg]
  | Dir _ listing =>
      snd (walkDirRecursive threshold excludeSet p listing)
      ++ record_if threshold p (fst (walkDirRecursive threshold excludeSet p listing)) true
  end.

(** [visible path entries p e]: the node [e] is found at [p] below the
    directory [path] with listing [entries], and neither its name nor the
    name of any directory on the way down to it is excluded. *)
Inductive visible : string -> list entry -> string -> entry -> Prop :=
| visible_child path entries e :
    In e entries -> excluded excludeSet (Name e) = false ->
    visible path entries (Filepath.Join path (Name e)) e
| visible_below path entries name sub p e :
    In (Dir name (Ok sub)) entries -> excluded excludeSet name = false ->
    visible (Filepath.Join path name) sub p e ->
    visible path entries p e.

(** The tree without the excluded nodes, at every depth. *)
Fixpoint prune_entry (e : entry) : list entry :=
  if excluded excludeSet (Name e) then []
  else match e with
       | File _ _ => [e]
       | Dir name (Err _) => [e]
       | Dir name (Ok entries) => [Dir name (Ok (concat (map prune_entry entries)))]
       end.

Definition prune (listing : result (list entry)) : result (list entry) :=
  match listing with
  | Err _ => listing
  | Ok entries => Ok (concat (map prune_entry entries))
  end.

End TraversalSpec.

(** The tree in which nothing fails: a file whose [Info] fails is absent and
    a directory that cannot be read is empty. *)
Fixpoint heal_entry (e : entry) : list entry :=
  match e with
  | File _ (Ok _) => [e]
  | File _ (Err _) => []
  | Dir name (Err _) => [Dir name (Ok [])]
  | Dir name (Ok entries) => [Dir name (Ok (concat (map heal_entry entries)))]
  end.

Definition heal (listing : result (list entry)) : result (list entry) :=
  match listing with
  | Err _ => Ok []
  | Ok entries => Ok (concat (map heal_entry entries))
  end.

(** ** The order of the listing, as the specification words it: a directory
    before a file; within a kind the larger size first; within a kind and a
    size the paths ascending. *)
Definition precedes (a b : FileInfo) : Prop :=
  (IsDir a = true /\ IsDir b = false) \/
  (IsDir a = IsDir b /\ Size b < Size a) \/
  (IsDir a = IsDir b /\ Size a = Size b /\ String.leb (Path a) (Path b) = true).

(** A file name as a directory holds it: not empty, not [.] or [..], and
    without a slash. *)
Definition plain_name (n : string) : Prop :=
  n <> "" /\ n <> "." /\ n <> ".." /\
  GoStrings.all_of (fun c => negb (Ascii.eqb c Filepath.slash)) n = true.

(** [occurs entries e]: the node [e] is somewhere in the tree, at any depth,
    excluded or not. *)
Inductive occurs : list entry -> entry -> Prop :=
| occurs_child entries e :
    In e entries -> occurs entries e
| occurs_below entries name sub e :
    In (Dir name (Ok sub)) entries -> occurs sub e -> occurs entries e.

(** ** [run] *)

(** The sizes held by the collection are [uint64] values. *)
Definition is_uint64 (fi : FileInfo) : Prop := 0 <= Size fi < 2 ^ 64.

(** The entry [run] adds for the top-level directory. *)
Definition root_entry (scanPath : string) (threshold total : Z) : list FileInfo :=
  if threshold <=? total then [mkFileInfo scanPath total true] else [].

(** ** The trees of the test suite

    [os.ReadDir] lists a directory in the order of the file names. *)

Module Fixture.

Definition basic : result (list entry) :=
  Ok [File "file1.txt" (Ok 5);
      Dir "subdir1" (Ok [File "file2.txt" (Ok 5)]);
      Dir "subdir2" (Ok [File "file3.txt" (Ok 1)])].

Definition small_files : result (list entry) :=
  Ok [File "file1.txt" (Ok 5); File "file2.txt" (Ok 1)].

Definition small_directory : result (list entry) :=
  Ok [Dir "dirA" (Ok [File "fileA.txt" (Ok 3)]);
      Dir "dirB" (Ok [File "fileB.txt" (Ok 6)])].

Definition with_excluded : result (list entry) :=
  Ok [File "another_file.txt" (Ok 5);
      Dir "excluded_dir" (Ok [File "file2.txt" (Ok 4)]);
      Dir "included_dir" (Ok [File "file1.txt" (Ok 3)])].

Definition two_directories : result (list entry) :=
  Ok [Dir "a" (Ok [File "x" (Ok 1)]); Dir "b" (Ok [File "y" (Ok 2)])].

(** The files that the tests of [run] set up, seen from the working
    directory. *)
Definition stat (p : string) : result entry :=
  if String.eqb p "." then Ok (Dir "." (Ok []))
  else if String.eqb p "testfile.txt" then Ok (File "testfile.txt" (Ok 0))
  else if String.eqb p "excluded_dir" then Ok (Dir "excluded_dir" (Ok []))
  else if String.eqb p "/tmp/t" then
    Ok (Dir "t" (Ok [File "file1.txt" (Ok 5);
                     Dir "subdir" (Ok [File "file2.txt" (Ok 2048)])]))
  else Err ("stat " +:+ p +:+ ": no such file or directory").

Definition fresh : process := mkProcess [] [] [].

(** A platform (linux/amd64) on which the conversion of a [float64] too
    large for [uint64] gives [2^63]. *)
Definition conv (f : spec_float) : Z := 2 ^ 63.

End Fixture.

(** ** Induction on trees *)

Section EntryInduction.

Variable P : entry -> Prop.
Hypothesis P_file : forall name info, P (File name info).
Hypothesis P_unreadable : forall name msg, P (Dir name (Err msg)).
Hypothesis P_dir : forall name entries, Forall P entries -> P (Dir name (Ok entries)).

Fixpoint entry_nested_ind (e : entry) : P e :=
  match e with
  | File name info => P_file name info
  | Dir name (Err msg) => P_unreadable name msg
  | Dir name (Ok entries) =>
      P_dir name entries
        ((fix all (l : list entry) : Forall P l :=
            match l with
            | [] => @List.Forall_nil entry P
            | x :: l' => @List.Forall_cons entry P x l' (entry_nested_ind x) (all l')
            end) entries)
  end.

End EntryInduction.

(** * Definitions used to state further properties *)

(** [resetResults] of the test suite: the collection is emptied, under the
    mutex. *)
Definition resetResults (st : process) : process :=
  mkProcess [] (stdout st) (stderr st).

Section FilesBelow.

Variable excludeSet : gset string.

(** The sizes of the files that a traversal reaches at or below an entry of
    a directory: nothing below an excluded name or an unreadable directory,
    nothing for a file whose [Info] fails. *)
Fixpoint files_of (e : entry) : list Z :=
  if excluded excludeSet (Name e) then []
  else match e with
       | File _ (Ok sz) => [uint64 sz]
       | File _ (Err _) => []
       | Dir _ (Err _) => []
       | Dir _ (Ok entries) => concat (map files_of entries)
       end.

Definition files_below (listing : result (list entry)) : list Z :=
  match listing with
  | Err _ => []
  | Ok entries => concat (map files_of entries)
  end.

(** The same for a node that has been reached: its own name is not looked
    at again. *)
Definition node_files (e : entry) : list Z :=
  match e with
  | File _ (Ok sz) => [uint64 sz]
  | File _ (Err _) => []
  | Dir _ listing => files_below listing
  end.

End FilesBelow.

(** Two outcomes of [run] that a user cannot tell apart but for the order of
    the lines on the error stream. *)
Definition same_report (o1 o2 : outcome) : Prop :=
  match o1, o2 with
  | Panicked, Panicked => True
  | Returned err1 st1, Returned err2 st2 =>
      err1 = err2 /\ results st1 = results st2 /\ stdout st1 = stdout st2 /\
      Permutation (stderr st1) (stderr st2)
  | _, _ => False
  end.

(** The factor that goes with a unit, read off its first letter: [K], [M],
    [G] and [T] in either case; every other accepted unit has none. *)
Definition unit_scale (u : string) : option Z :=
  match u with
  | String c _ =>
      let k := GoStrings.code (GoStrings.upper_byte c) in
      if k =? 84 then Some (1024 ^ 4)
      else if k =? 71 then Some (1024 ^ 3)
      else if k =? 77 then Some (1024 ^ 2)
      else if k =? 75 then Some 1024
      else None
  | EmptyString => None
  end.

Definition scaled (u : string) (f : spec_float) : spec_float :=
  match unit_scale u with
  | Some k => Float64.mul f (Float64.of_Z k)
  | None => f
  end.


(** The process [d] taken up after what [st] has written: the collection of
    [d], and the streams of [st] followed by those of [d]. *)
Definition after (st d : process) : process :=
  mkProcess (results d) (stdout st ++ stdout d) (stderr st ++ stderr d).

Definition prepared_after (st : process) (p : prepared) : prepared :=
  match p with
  | Stop err d => Stop err (after st d)
  | Scan scanPath threshold excludeSet listing d =>
      Scan scanPath threshold excludeSet listing (after st d)
  end.

Definition outcome_after (st : process) (o : outcome) : outcome :=
  match o with
  | Returned err d => Returned err (after st d)
  | Panicked => Panicked
  end.

(** A process with the collection of [st] and nothing written yet. *)
Definition quiet (st : process) : process := mkProcess (results st) [] [].

(** What two outcomes of [run] have in common when they differ in the
    streams only. *)
Definition same_collection (o1 o2 : outcome) : Prop :=
  match o1, o2 with
  | Panicked, Panicked => True
  | Returned err1 st1, Returned err2 st2 => err1 = err2 /\ results st1 = results st2
  | _, _ => False
  end.
(** * Properties *)

(** ** Evaluation on the inputs of the test suite *)

Example Clean_trailing : Filepath.Clean "/var//log/" = "/var/log".
Proof. reflexivity. Qed.

Example Clean_dotdot : Filepath.Clean "a/../../b/./c" = "../b/c".
Proof. reflexivity. Qed.

Example Clean_root : Filepath.Clean "/.." = "/".
Proof. reflexivity. Qed.

Example Clean_dot : Filepath.Clean "./" = ".".
Proof. reflexivity. Qed.

Example Base_last : Filepath.Base "/var/log" = "log".
Proof. reflexivity. Qed.

Example Base_root : Filepath.Base "/" = "/".
Proof. reflexivity. Qed.

Example Join_dot : Filepath.Join "." "a" = "a".
Proof. reflexivity. Qed.

Example Join_root : Filepath.Join "/" "a" = "/a".
Proof. reflexivity. Qed.

Example Join_plain : Filepath.Join "/tmp/x" "a" = "/tmp/x/a".
Proof. reflexivity. Qed.

Example TrimSpace_both : GoStrings.TrimSpace "  10 K  " = "10 K".
Proof. reflexivity. Qed.

Example TrimSpace_nbsp :
  GoStrings.TrimSpace (GoStrings.str [194; 160; 49; 75; 226; 128; 137; 10]) = "1K".
Proof. reflexivity. Qed.

Example Split_default : GoStrings.Split "proc,dev,sys" "," = ["proc"; "dev"; "sys"].
Proof. reflexivity. Qed.

Example Split_empty : GoStrings.Split "" "," = [""].
Proof. reflexivity. Qed.

(** [TestParseSize]. *)
Example TestParseSize :
  map (SizeParser.parseSize Fixture.conv)
      ["100B"; "100b"; "10K"; "10k"; "1.5M"; "2G"; "1T"; "100"; ""; "abc"; "100XYZ"; "-50M"]
  = [Ok 100; Ok 100; Ok (10 * 1024); Ok (10 * 1024); Ok 1572864;
     Ok (2 * 1024 * 1024 * 1024); Ok (1024 * 1024 * 1024 * 1024); Ok 100;
     Err "invalid size format: "; Err "invalid size format: abc";
     Err "invalid size format: 100XYZ"; Err "invalid size format: -50M"].
Proof. vm_compute. reflexivity. Qed.

Example parseSize_more :
  map (SizeParser.parseSize Fixture.conv)
      ["1.2.3"; "."; "1."; ".5k"; "10 kb"; " 7 "; "10MBB"; "0.3k"; "9007199254740993";
       "18446744073709551615"]
  = [Err "invalid size number: 1.2.3"; Err "invalid size number: ."; Ok 1; Ok 512;
     Ok 10240; Ok 7; Err "invalid size format: 10MBB"; Ok 307; Ok 9007199254740992;
     Ok 9223372036854775808].
Proof. vm_compute. reflexivity. Qed.

(** The Kelvin sign is taken for a unit and then not scaled. *)
Example parseSize_kelvin :
  SizeParser.parseSize Fixture.conv ("10" +:+ SizeParser.kelvin) = Ok 10.
Proof. vm_compute. reflexivity. Qed.

(** [TestHumanReadableSize]. *)
Example TestHumanReadableSize :
  map Formatter.humanReadableSize
      [0; 100; 1023; 1024; 1536; 1024 * 1024; 1572864; 2 * 1024 * 1024 * 1024;
       1024 * 1024 * 1024 * 1024; 2345678901234]
  = [Some "0 B"; Some "100 B"; Some "1023 B"; Some "1.00 KiB"; Some "1.50 KiB";
     Some "1.00 MiB"; Some "1.50 MiB"; Some "2.00 GiB"; Some "1.00 TiB"; Some "2.13 TiB"].
Proof. vm_compute. reflexivity. Qed.

(** [TestWalkDirRecursive], with the temporary directory at [/tmp/t]. *)
Example TestWalkDirRecursive_basic :
  fst (walkDirRecursive 1 ∅ "/tmp/t" Fixture.basic) = 11 /\
  sort_Slice (recorded (snd (walkDirRecursive 1 ∅ "/tmp/t" Fixture.basic)))
  = sort_Slice [mkFileInfo "/tmp/t/file1.txt" 5 false;
                mkFileInfo "/tmp/t/subdir1/file2.txt" 5 false;
                mkFileInfo "/tmp/t/subdir2/file3.txt" 1 false;
                mkFileInfo "/tmp/t/subdir1" 5 true;
                mkFileInfo "/tmp/t/subdir2" 1 true].
Proof. split; vm_compute; reflexivity. Qed.

Example TestWalkDirRecursive_files_below :
  fst (walkDirRecursive 5 ∅ "/tmp/t" Fixture.small_files) = 6 /\
  recorded (snd (walkDirRecursive 5 ∅ "/tmp/t" Fixture.small_files))
  = [mkFileInfo "/tmp/t/file1.txt" 5 false].
Proof. split; vm_compute; reflexivity. Qed.

Example TestWalkDirRecursive_directory_below :
  fst (walkDirRecursive 5 ∅ "/tmp/t" Fixture.small_directory) = 9 /\
  sort_Slice (recorded (snd (walkDirRecursive 5 ∅ "/tmp/t" Fixture.small_directory)))
  = sort_Slice [mkFileInfo "/tmp/t/dirB/fileB.txt" 6 false;
                mkFileInfo "/tmp/t/dirB" 6 true].
Proof. split; vm_compute; reflexivity. Qed.

Example TestWalkDirRecursive_exclude :
  fst (walkDirRecursive 1 {["excluded_dir"]} "/tmp/t" Fixture.with_excluded) = 8 /\
  sort_Slice (recorded (snd (walkDirRecursive 1 {["excluded_dir"]} "/tmp/t"
                               Fixture.with_excluded)))
  = sort_Slice [mkFileInfo "/tmp/t/included_dir/file1.txt" 3 false;
                mkFileInfo "/tmp/t/another_file.txt" 5 false;
                mkFileInfo "/tmp/t/included_dir" 3 true].
Proof. split; vm_compute; reflexivity. Qed.

(** [TestRun]. *)
Example TestRun_arguments :
  exists st, run Fixture.conv Fixture.stat ["spacehogs"; "onedir"] Fixture.fresh
             = Returned (Some "invalid number of arguments") st.
Proof. eexists. vm_compute. reflexivity. Qed.

Example TestRun_size :
  run Fixture.conv Fixture.stat ["spacehogs"; "."; "10MBB"] Fixture.fresh
  = Returned (Some "error: invalid size format: 10MBB") Fixture.fresh.
Proof. vm_compute. reflexivity. Qed.

Example TestRun_missing :
  run Fixture.conv Fixture.stat ["spacehogs"; "/no/such/dir"; "1K"] Fixture.fresh
  = Returned (Some "error accessing '/no/such/dir': stat /no/such/dir: no such file or directory")
             Fixture.fresh.
Proof. vm_compute. reflexivity. Qed.

Example TestRun_not_a_directory :
  run Fixture.conv Fixture.stat ["spacehogs"; "testfile.txt"; "1K"] Fixture.fresh
  = Returned (Some "error: 'testfile.txt' is not a directory") Fixture.fresh.
Proof. vm_compute. reflexivity. Qed.

Example TestRun_excluded :
  run Fixture.conv Fixture.stat
      ["spacehogs"; "-exclude=excluded_dir"; "excluded_dir"; "1K"] Fixture.fresh
  = Returned None
      (mkProcess []
         ["Top-level directory 'excluded_dir' is in the exclude list. Nothing to do."] []).
Proof. vm_compute. reflexivity. Qed.

Example TestRun_success :
  run Fixture.conv Fixture.stat ["spacehogs"; "/tmp/t"; "1K"] Fixture.fresh
  = Returned None
      (mkProcess
         [mkFileInfo "/tmp/t" 2053 true; mkFileInfo "/tmp/t/subdir" 2048 true;
          mkFileInfo "/tmp/t/subdir/file2.txt" 2048 false]
         ["Scanning directory: /tmp/t"; "Minimum size threshold: 1.00 KiB";
          "Excluding: proc,dev,sys"; ""; "TYPE   SIZE        NAME";
          "--------------------------------";
          "[DIR]  2.00 KiB    /tmp/t";
          "[DIR]  2.00 KiB    /tmp/t/subdir";
          "[FILE] 2.00 KiB    /tmp/t/subdir/file2.txt"]
         []).
Proof. vm_compute. reflexivity. Qed.

(** ** [humanReadableSize] *)

Section HumanReadable.
Import Formatter.

Lemma wrap_int64_id x : - 2 ^ 63 <= x < 2 ^ 63 -> wrap_int64 x = x.
Proof.
  intros H. unfold wrap_int64.
  rewrite Z.mod_small by lia. lia.
Qed.

(** The loop leaves at most [k] iterations behind when it is entered below
    [1024^(k+1)], and [div] is multiplied by [1024] once per iteration as
    long as that fits [int64]. *)
Lemma unit_loop_bound (k : nat) : forall n div exp,
  0 <= n < 1024 * 1024 ^ Z.of_nat k ->
  0 < div -> div * 1024 ^ Z.of_nat k < 2 ^ 63 ->
  exists j, 0 <= j <= Z.of_nat k /\
            unit_loop n div exp = (div * 1024 ^ j, exp + j).
Proof.
  induction k as [|k IH]; intros n div exp Hn Hdiv Hfit.
  - exists 0. split; [lia|].
    rewrite unit_loop_equation. unfold unit.
    destruct (1024 <=? n) eqn:E; [apply Z.leb_le in E; simpl in Hn; lia|].
    f_equal; lia.
  - rewrite unit_loop_equation. unfold unit.
    rewrite Nat2Z.inj_succ, Z.pow_succ_r in * by lia.
    destruct (1024 <=? n) eqn:E.
    + apply Z.leb_le in E.
      assert (Hp : 0 < 1024 ^ Z.of_nat k) by (apply Z.pow_pos_nonneg; lia).
      rewrite wrap_int64_id by nia.
      destruct (IH (n / 1024) (div * 1024) (exp + 1)) as (j & Hj & Heq).
      * split; [apply Z.div_pos; lia|].
        apply Z.div_lt_upper_bound; lia.
      * lia.
      * nia.
      * exists (j + 1). split; [lia|].
        rewrite Heq. rewrite Z.pow_add_r by lia. f_equal; lia.
    + exists 0. split; [lia|]. f_equal; lia.
Qed.

Lemma index_units exp : 0 <= exp <= 5 -> exists c, index "KMGTPE" exp = Some c.
Proof.
  intros H.
  assert (E : exp = 0 \/ exp = 1 \/ exp = 2 \/ exp = 3 \/ exp = 4 \/ exp = 5) by lia.
  destruct E as [->|[->|[->|[->|[->| ->]]]]]; eexists; reflexivity.
Qed.

Lemma unit_loop_uint64 size :
  1024 <= size < 2 ^ 64 ->
  exists exp, 0 <= exp <= 5 /\
              unit_loop (size / unit) unit 0 = (1024 ^ (exp + 1), exp).
Proof.
  intros H. unfold unit.
  destruct (unit_loop_bound 5 (size / 1024) 1024 0) as (j & Hj & Heq).
  - split; [apply Z.div_pos; lia|].
    apply Z.div_lt_upper_bound; [lia|]. simpl. lia.
  - lia.
  - simpl. lia.
  - exists j. split; [lia|]. rewrite Heq.
    rewrite Z.pow_add_r by lia. f_equal; lia.
Qed.

Lemma humanReadableSize_defined size :
  0 <= size < 2 ^ 64 -> exists s, humanReadableSize size = Some s.
Proof.
  intros H. unfold humanReadableSize.
  destruct (size <? 1024) eqn:E; [eexists; reflexivity|].
  apply Z.ltb_ge in E.
  destruct (unit_loop_uint64 size) as (exp & Hexp & ->); [lia|].
  destruct (index_units exp Hexp) as (c & ->).
  eexists; reflexivity.
Qed.

End HumanReadable.

(** C10. For every [uint64] input, [humanReadableSize] returns a string and
    does not panic; from 1024 on, the unit loop ends with [div = 1024^(exp+1)]
    (no [int64] overflow) and an exponent between 0 and 5, so the look-up in
    ["KMGTPE"] is in range; the exponent 5 ([EiB]) is reached. *)
Theorem humanReadableSize_total (size : Z) :
  0 <= size < 2 ^ 64 ->
  (exists s, Formatter.humanReadableSize size = Some s) /\
  (1024 <= size ->
   exists exp c,
     Formatter.unit_loop (size / Formatter.unit) Formatter.unit 0 = (1024 ^ (exp + 1), exp) /\
     0 <= exp <= 5 /\
     Formatter.index "KMGTPE" exp = Some c) /\
  Formatter.humanReadableSize (2 ^ 64 - 1) = Some "16.00 EiB".
Proof.
  intros H. split; [|split].
  - apply humanReadableSize_defined, H.
  - intros H1.
    destruct (unit_loop_uint64 size) as (exp & Hexp & Heq); [lia|].
    destruct (index_units exp Hexp) as (c & Hc).
    exists exp, c. auto.
  - vm_compute. reflexivity.
Qed.

Lemma humanReadableSize_total_witness :
  0 <= 1536 < 2 ^ 64 /\ exists s, Formatter.humanReadableSize 1536 = Some s.
Proof.
  split; [lia|].
  apply (humanReadableSize_total 1536). lia.
Defined.

(** ** [parseSize] *)

Section ParseSize.
Import GoStrings SizeParser SizeSyntax.

Lemma span_spec p s a b :
  span p s = (a, b) ->
  s = a +:+ b /\ all_of p a = true /\
  match b with
  | EmptyString => True
  | String c _ => p c = false
  end.
Proof.
  revert a b. induction s as [|c s IH]; intros a b H; simpl in H.
  - inversion H; subst. auto.
  - destruct (p c) eqn:E.
    + destruct (span p s) as [a' b'] eqn:E'. inversion H; subst.
      destruct (IH a' b eq_refl) as (-> & Ha & Hb).
      simpl. rewrite E, Ha. auto.
    + inversion H; subst. simpl. rewrite E. auto.
Qed.

Lemma append_nil_r s : s +:+ "" = s.
Proof.
  induction s as [|c s IH]; [reflexivity|].
  change (String c (s +:+ "") = String c s). f_equal. exact IH.
Qed.

Lemma append_assoc (a b c : string) : (a +:+ b) +:+ c = a +:+ (b +:+ c).
Proof.
  induction a as [|x a IH]; [reflexivity|].
  change (String x ((a +:+ b) +:+ c) = String x (a +:+ (b +:+ c))). f_equal. exact IH.
Qed.

Lemma code_inj c d : code c = code d -> c = d.
Proof.
  unfold code. intros H. apply N2Z.inj in H.
  rewrite <- (ascii_N_embedding c), <- (ascii_N_embedding d). congruence.
Qed.

Lemma digits_num s : all_of is_digit s = true -> all_of is_num_byte s = true.
Proof.
  induction s as [|c s IH]; [reflexivity|]. simpl.
  intros H. apply andb_true_iff in H as [Hc Hs].
  rewrite (IH Hs). unfold is_num_byte. rewrite Hc. reflexivity.
Qed.

Lemma all_of_app p a b : all_of p (a +:+ b) = all_of p a && all_of p b.
Proof.
  induction a as [|c a IH]; [reflexivity|].
  change (p c && all_of p (a +:+ b) = p c && all_of p a && all_of p b).
  rewrite IH, andb_assoc. reflexivity.
Qed.

(** What the optional letter of the expression can be. *)
Lemma skip_unit_letter_spec u :
  exists letter,
    u = letter +:+ skip_unit_letter u /\ (letter = "" \/ In letter unit_letters).
Proof.
  destruct u as [|c u']; [exists ""; auto|].
  unfold skip_unit_letter.
  destruct (is_unit_letter c) eqn:E.
  - exists (String c ""). split; [reflexivity|]. right.
    unfold is_unit_letter in E.
    destruct c as [[] [] [] [] [] [] [] []]; try discriminate E;
      vm_compute; tauto.
  - destruct (strip_prefix kelvin (String c u')) as [r|] eqn:Ek.
    + exists kelvin. split; [|right; vm_compute; tauto].
      destruct c as [[] [] [] [] [] [] [] []]; try discriminate Ek.
      destruct u' as [|[[] [] [] [] [] [] [] []] u']; try discriminate Ek.
      destruct u' as [|[[] [] [] [] [] [] [] []] u']; try discriminate Ek.
      vm_compute in Ek. inversion Ek; subst. reflexivity.
    + exists "". auto.
Qed.

Lemma skip_b_spec u :
  skip_b u = "" -> u = "" \/ u = "b" \/ u = "B".
Proof.
  destruct u as [|c u']; [auto|]. unfold skip_b.
  destruct (code (upper_byte c) =? 66) eqn:E; [|discriminate].
  intros ->. right.
  destruct c as [[] [] [] [] [] [] [] []]; try discriminate E; auto.
Qed.

Lemma FindStringSubmatch_spec t num u :
  FindStringSubmatch t = Some (num, u) ->
  exists ws,
    t = num +:+ ws +:+ u /\ num <> "" /\ all_of is_num_byte num = true /\
    all_of is_re_space ws = true /\ unit_suffix u.
Proof.
  unfold FindStringSubmatch.
  destruct (span is_num_byte t) as [n rest] eqn:E1.
  destruct (String.eqb_spec n ""); [discriminate|].
  destruct (span is_re_space rest) as [ws u0] eqn:E2.
  destruct (String.eqb_spec (skip_b (skip_unit_letter u0)) ""); [|discriminate].
  intros H; inversion H; subst.
  apply span_spec in E1 as (-> & Hn & _).
  apply span_spec in E2 as (-> & Hws & _).
  exists ws. repeat split; auto.
  destruct (skip_unit_letter_spec u) as (letter & Hu & Hl).
  exists letter, (skip_unit_letter u). split; [exact Hu|]. split; [exact Hl|].
  apply skip_b_spec; assumption.
Qed.

Lemma ParseFloat_spec num f :
  ParseFloat num = Some f -> decimal_number num.
Proof.
  unfold ParseFloat.
  destruct (span is_digit num) as [ip rest] eqn:E1.
  apply span_spec in E1 as (-> & Hip & Hrest).
  destruct rest as [|c r].
  - rewrite !append_nil_r. simpl.
    destruct (String.eqb_spec ip ""); [discriminate|].
    intros _. constructor; assumption.
  - destruct (code c =? 46) eqn:Ec; [|discriminate].
    apply Z.eqb_eq in Ec.
    assert (Hc : c = "."%char) by (apply code_inj; exact Ec). subst c.
    destruct (span is_digit r) as [fp rest'] eqn:E2.
    apply span_spec in E2 as (-> & Hfp & _).
    destruct (String.eqb_spec rest' ""); simpl; [subst rest'|discriminate].
    destruct (String.eqb_spec (ip +:+ fp) ""); [discriminate|].
    intros _. rewrite append_nil_r.
    apply decimal_fraction; assumption.
Qed.

Variable uint64_unrepresentable : spec_float -> Z.

Lemma parseSize_Ok_syntax s v :
  parseSize uint64_unrepresentable s = Ok v -> size_syntax (TrimSpace s).
Proof.
  unfold parseSize.
  destruct (FindStringSubmatch (TrimSpace s)) as [[num u]|] eqn:E; [|discriminate].
  apply FindStringSubmatch_spec in E as (ws & Ht & _ & Hnum & Hws & Hu).
  destruct (ParseFloat num) as [f|] eqn:Ef; [|discriminate].
  intros _. exists num, ws, u. repeat split; auto.
  eapply ParseFloat_spec; eassumption.
Qed.

Lemma parseSize_error_kind s msg :
  parseSize uint64_unrepresentable s = Err msg ->
  msg = "invalid size format: " +:+ s \/
  exists num, msg = "invalid size number: " +:+ num.
Proof.
  unfold parseSize.
  destruct (FindStringSubmatch (TrimSpace s)) as [[num u]|].
  - destruct (ParseFloat num); [discriminate|].
    intros H; inversion H. right. eexists; reflexivity.
  - intros H; inversion H. left; reflexivity.
Qed.

Lemma uint64_of_float64_range f :
  0 <= uint64_of_float64 uint64_unrepresentable f < 2 ^ 64.
Proof.
  unfold uint64_of_float64.
  assert (Hm : forall x, 0 <= x mod 2 ^ 64 < 2 ^ 64) by (intros; apply Z.mod_pos_bound; lia).
  destruct f as [| | |s m e]; auto; try lia.
  destruct ((0 <=? Float64.trunc _) && (Float64.trunc _ <=? uint64_max)) eqn:E; auto.
  apply andb_true_iff in E as [E1 E2].
  apply Z.leb_le in E1, E2. unfold uint64_max in E2. lia.
Qed.

(** A parsed size is a [uint64]. *)
Lemma parseSize_range s v :
  parseSize uint64_unrepresentable s = Ok v -> 0 <= v < 2 ^ 64.
Proof.
  unfold parseSize.
  destruct (FindStringSubmatch (TrimSpace s)) as [[num u]|]; [|discriminate].
  destruct (ParseFloat num); [|discriminate].
  intros H; inversion H. apply uint64_of_float64_range.
Qed.

End ParseSize.

Lemma decimal_number_head num :
  SizeSyntax.decimal_number num ->
  exists c rest, num = String c rest /\ SizeParser.is_num_byte c = true.
Proof.
  intros [ip Hip Hne | ip fp Hip Hfp Hne].
  - destruct ip as [|c r]; [congruence|].
    exists c, r. split; [reflexivity|].
    simpl in Hip. apply andb_true_iff in Hip as [Hc _].
    unfold SizeParser.is_num_byte. rewrite Hc. reflexivity.
  - destruct ip as [|c r].
    + simpl. eexists _, _. split; [reflexivity|]. reflexivity.
    + exists c, (r +:+ "." +:+ fp). split; [reflexivity|].
      simpl in Hip. apply andb_true_iff in Hip as [Hc _].
      unfold SizeParser.is_num_byte. rewrite Hc. reflexivity.
Qed.

(** A text whose first byte is neither a digit nor a dot is not a size; the
    empty text is not one either. *)
Lemma size_syntax_head t :
  SizeSyntax.size_syntax t ->
  exists c rest, t = String c rest /\ SizeParser.is_num_byte c = true.
Proof.
  intros (num & ws & u & -> & Hnum & _).
  destruct (decimal_number_head num Hnum) as (c & rest & -> & Hc).
  exists c, (rest +:+ ws +:+ u). split; [reflexivity|exact Hc].
Qed.

(** C2. On the input ["1P"] the unit is accepted by the regular expression
    but no case of the [switch] scales by it: the result is 1 byte, not
    [1 * 1024^5]. *)
Theorem parseSize_P_unscaled (uint64_unrepresentable : spec_float -> Z) :
  SizeParser.FindStringSubmatch "1P" = Some ("1", "P") /\
  SizeParser.parseSize uint64_unrepresentable "1P" = Ok 1 /\
  1 * SizeSyntax.unitMultiplier "P" = 1125899906842624 /\
  SizeParser.parseSize uint64_unrepresentable "1T" = Ok (1 * SizeSyntax.unitMultiplier "T") /\
  SizeParser.parseSize uint64_unrepresentable "1.5M" = Ok 1572864.
Proof. repeat split; vm_compute; reflexivity. Qed.

Lemma all_of_impl (p q : ascii -> bool) s :
  (forall c, p c = true -> q c = true) ->
  GoStrings.all_of p s = true -> GoStrings.all_of q s = true.
Proof.
  intros Hpq. induction s as [|c s IH]; [reflexivity|].
  cbn [GoStrings.all_of]. intros H. apply andb_true_iff in H as [Hc Hs].
  rewrite (Hpq c Hc), (IH Hs). reflexivity.
Qed.

Lemma decimal_number_bytes num :
  SizeSyntax.decimal_number num -> GoStrings.all_of SizeParser.is_num_byte num = true.
Proof.
  intros [ip Hip Hne | ip fp Hip Hfp Hne].
  - apply digits_num, Hip.
  - rewrite !all_of_app, (digits_num _ Hip), (digits_num _ Hfp). reflexivity.
Qed.

(** A size of the specification's grammar holds digits, dots and the
    letters of the units, and nothing else. *)
Lemma spec_size_syntax_bytes s :
  SizeSyntax.spec_size_syntax s ->
  GoStrings.all_of
    (fun c => SizeParser.is_num_byte c
              || existsb (Ascii.eqb c) (list_ascii_of_string "bBkKmMgGtTpP")) s = true.
Proof.
  intros (num & u & -> & Hnum & Hu).
  rewrite all_of_app. apply andb_true_iff. split.
  - apply decimal_number_bytes in Hnum.
    eapply all_of_impl; [|exact Hnum]. intros c Hc. rewrite Hc. reflexivity.
  - destruct Hu as [->|(letter & b & -> & Hl & Hb)]; [reflexivity|].
    assert (Hb' : In b [""; "b"; "B"]) by (destruct Hb as [->|[->| ->]]; simpl; auto).
    clear Hb. unfold SizeSyntax.spec_unit_letters in Hl.
    repeat (destruct Hl as [<-|Hl]; [|]); try destruct Hl;
      (repeat (destruct Hb' as [<-|Hb']; [|]); try destruct Hb'); reflexivity.
Qed.

(** C9, the claim as stated fails: [parseSize] returns a byte value for
    inputs that are not a decimal number followed by an optional unit.  White
    space around the text and between the number and the unit is let
    through, and so is the Kelvin sign U+212A, which the expression takes
    for a [k]. *)
Lemma parseSize_beyond_grammar :
  (~ SizeSyntax.spec_size_syntax " 1.5 gb " /\
   forall uint64_unrepresentable,
     SizeParser.parseSize uint64_unrepresentable " 1.5 gb " = Ok 1610612736) /\
  (~ SizeSyntax.spec_size_syntax "10 kb" /\
   forall uint64_unrepresentable,
     SizeParser.parseSize uint64_unrepresentable "10 kb" = Ok 10240) /\
  (~ SizeSyntax.spec_size_syntax ("1" +:+ SizeParser.kelvin) /\
   forall uint64_unrepresentable,
     SizeParser.parseSize uint64_unrepresentable ("1" +:+ SizeParser.kelvin) = Ok 1).
Proof.
  repeat split; try (intros conv; vm_compute; reflexivity);
    intros H; apply spec_size_syntax_bytes in H; vm_compute in H; discriminate.
Qed.

(** C9, amended. [parseSize] returns an error, and no byte value, for every
    input that, once the white space around it is trimmed, is not a
    non-negative decimal number, white space if any, and an optional unit (one
    of K, M, G, T, P in either case or the Kelvin sign, then an optional B in
    either case); the error is the format error or the number error.  In
    particular this holds for [""], ["abc"], ["100XYZ"] and ["-50M"], and for
    every input that starts with a minus sign. *)
Theorem parseSize_rejects (uint64_unrepresentable : spec_float -> Z) :
  (forall s,
     ~ SizeSyntax.size_syntax (GoStrings.TrimSpace s) ->
     exists msg,
       SizeParser.parseSize uint64_unrepresentable s = Err msg /\
       (msg = "invalid size format: " +:+ s \/
        exists num, msg = "invalid size number: " +:+ num)) /\
  (forall s rest,
     GoStrings.TrimSpace s = String "-" rest ->
     SizeParser.parseSize uint64_unrepresentable s = Err ("invalid size format: " +:+ s)) /\
  SizeParser.parseSize uint64_unrepresentable "" = Err "invalid size format: " /\
  SizeParser.parseSize uint64_unrepresentable "abc" = Err "invalid size format: abc" /\
  SizeParser.parseSize uint64_unrepresentable "100XYZ" = Err "invalid size format: 100XYZ" /\
  SizeParser.parseSize uint64_unrepresentable "-50M" = Err "invalid size format: -50M".
Proof.
  split; [|split].
  - intros s Hs.
    destruct (SizeParser.parseSize uint64_unrepresentable s) as [v|msg] eqn:E.
    + exfalso. apply Hs. eapply parseSize_Ok_syntax; eassumption.
    + exists msg. split; [reflexivity|].
      eapply parseSize_error_kind; eassumption.
  - intros s rest Hs. unfold SizeParser.parseSize. rewrite Hs. reflexivity.
  - repeat split; vm_compute; reflexivity.
Qed.

Lemma parseSize_rejects_witness :
  ~ SizeSyntax.size_syntax (GoStrings.TrimSpace "-50M") /\
  exists msg, SizeParser.parseSize (fun _ => 0) "-50M" = Err msg.
Proof.
  assert (H : ~ SizeSyntax.size_syntax (GoStrings.TrimSpace "-50M")).
  { intros Hs. apply size_syntax_head in Hs as (c & rest & Heq & Hc).
    vm_compute in Heq. inversion Heq; subst. vm_compute in Hc. discriminate. }
  split; [exact H|].
  destruct (proj1 (parseSize_rejects (fun _ => 0)) "-50M" H) as (msg & Hmsg & _).
  exists msg. exact Hmsg.
Defined.

(** ** [walkDirRecursive] *)

(** *** Sums on [uint64] *)

Lemma add64_range a b : 0 <= add64 a b < 2 ^ 64.
Proof. unfold add64. apply Z.mod_pos_bound. lia. Qed.

Lemma uint64_range x : 0 <= uint64 x < 2 ^ 64.
Proof. unfold uint64. apply Z.mod_pos_bound. lia. Qed.

Lemma fold_add64_mod l : forall a,
  fold_left add64 l a mod 2 ^ 64 = (a + Zsum l) mod 2 ^ 64.
Proof.
  induction l as [|x l IH]; intros a; simpl.
  - f_equal; lia.
  - rewrite IH. unfold add64.
    rewrite Zplus_mod_idemp_l. f_equal; lia.
Qed.

Lemma fold_add64_range l : forall a,
  0 <= a < 2 ^ 64 -> 0 <= fold_left add64 l a < 2 ^ 64.
Proof.
  induction l as [|x l IH]; intros a Ha; simpl; [exact Ha|].
  apply IH, add64_range.
Qed.

Lemma fold_add64_sum l a :
  0 <= a < 2 ^ 64 -> fold_left add64 l a = (a + Zsum l) mod 2 ^ 64.
Proof.
  intros Ha. rewrite <- fold_add64_mod.
  symmetry. apply Z.mod_small, fold_add64_range, Ha.
Qed.

Lemma Zsum_app l1 l2 : Zsum (l1 ++ l2) = Zsum l1 + Zsum l2.
Proof. induction l1 as [|x l1 IH]; simpl; [reflexivity|]. rewrite IH. lia. Qed.

Lemma Zsum_perm l1 l2 : Permutation l1 l2 -> Zsum l1 = Zsum l2.
Proof. induction 1; simpl; lia. Qed.

Lemma Zsum_nonneg l : Forall (fun x => 0 <= x) l -> 0 <= Zsum l.
Proof. induction 1; simpl; lia. Qed.

(** The order in which the channel delivers the sizes does not matter. *)
Lemma fold_add64_perm l1 l2 a :
  0 <= a < 2 ^ 64 -> Permutation l1 l2 ->
  fold_left add64 l1 a = fold_left add64 l2 a.
Proof.
  intros Ha Hp. rewrite !fold_add64_sum by exact Ha.
  rewrite (Zsum_perm _ _ Hp). reflexivity.
Qed.

(** *** Schedules *)

Lemma flatten_cons_emit ev items : flatten (Emit ev :: items) = ev :: flatten items.
Proof. reflexivity. Qed.

Lemma flatten_cons_spawn g items : flatten (Spawn g :: items) = g ++ flatten items.
Proof. reflexivity. Qed.

Lemma flatten_app i1 i2 : flatten (i1 ++ i2) = flatten i1 ++ flatten i2.
Proof. unfold flatten. rewrite map_app, concat_app. reflexivity. Qed.

Lemma flatten_emits evs : flatten (emits evs) = evs.
Proof.
  induction evs as [|ev evs IH]; [reflexivity|].
  change (emits (ev :: evs)) with (Emit ev :: emits evs).
  rewrite flatten_cons_emit, IH. reflexivity.
Qed.

Lemma concat_empties (pool : list (list event)) :
  Forall (fun g => g = []) pool -> concat pool = [].
Proof. induction 1 as [|g pool -> _ IH]; simpl; auto. Qed.

(** Whatever the schedule, what happens is what the task and the goroutines
    had to do. *)
Lemma sched_perm items pool t :
  sched items pool t -> Permutation t (flatten items ++ concat pool).
Proof.
  induction 1 as [pool Hp | ev items pool t _ IH | g items pool t _ IH
                 | items pool1 ev g pool2 t _ IH].
  - rewrite (concat_empties pool Hp). constructor.
  - rewrite flatten_cons_emit. simpl. constructor. exact IH.
  - rewrite flatten_cons_spawn. rewrite IH. simpl.
    rewrite <- app_assoc. apply Permutation_app_swap_app.
  - rewrite concat_app in *. rewrite concat_cons in *.
    rewrite IH.
    rewrite (app_assoc (flatten items) (concat pool1) (g ++ concat pool2)).
    rewrite (app_assoc (flatten items) (concat pool1) ((ev :: g) ++ concat pool2)).
    change ((ev :: g) ++ concat pool2) with (ev :: (g ++ concat pool2)).
    apply Permutation_middle.
Qed.

(** The schedule of [walkDirRecursive]: every goroutine runs to its end
    where it is spawned. *)
Lemma sched_in_order items : forall pool,
  Forall (fun g => g = []) pool -> sched items pool (flatten items).
Proof.
  induction items as [|[ev|g] items IH]; intros pool Hp.
  - constructor. exact Hp.
  - rewrite flatten_cons_emit. constructor. apply IH, Hp.
  - rewrite flatten_cons_spawn. constructor.
    induction g as [|ev g IHg]; simpl.
    + apply IH. constructor; [reflexivity|exact Hp].
    + apply (sched_go items [] ev g pool). exact IHg.
Qed.

(** *** The loop of a call *)

Section WalkFacts.

Variable threshold : Z.
Variable excludeSet : gset string.

#[local] Abbreviation walk := (walkDirRecursive threshold excludeSet).
#[local] Abbreviation step := (visit threshold excludeSet).
#[local] Abbreviation skip := (excluded excludeSet).
#[local] Abbreviation note := (record_if threshold).

Lemma visit_excluded path fr e : skip (Name e) = true -> step path fr e = fr.
Proof. destruct e as [name info|name listing]; simpl; intros ->; reflexivity. Qed.

Lemma visit_Dir path fr name listing :
  skip name = false ->
  step path fr (Dir name listing) =
  mkFrame (totalSize fr)
          (sizeChannel fr ++ [fst (walk (Filepath.Join path name) listing)])
          (trace fr ++ snd (walk (Filepath.Join path name) listing)
                    ++ note (Filepath.Join path name)
                            (fst (walk (Filepath.Join path name) listing)) true).
Proof.
  intros H. unfold walkDirRecursive. simpl. rewrite H.
  destruct (walk_with step (Filepath.Join path name) listing).
  reflexivity.
Qed.

Lemma visit_File_err path fr name msg :
  skip name = false ->
  step path fr (File name (Err msg)) =
  mkFrame (totalSize fr) (sizeChannel fr)
          (trace fr ++ [info_error (Filepath.Join path name) msg]).
Proof. intros H. simpl. rewrite H. reflexivity. Qed.

Lemma visit_File_ok path fr name sz :
  skip name = false ->
  step path fr (File name (Ok sz)) =
  mkFrame (add64 (totalSize fr) (uint64 sz)) (sizeChannel fr)
          (trace fr ++ note (Filepath.Join path name) (uint64 sz) false).
Proof. intros H. simpl. rewrite H. reflexivity. Qed.

Lemma walk_Ok path entries :
  walk path (Ok entries) =
  (fold_left add64 (sizeChannel (fold_left (step path) entries frame0))
             (totalSize (fold_left (step path) entries frame0)),
   trace (fold_left (step path) entries frame0)).
Proof. reflexivity. Qed.

Lemma walk_Err path msg : walk path (Err msg) = (0, [read_error path msg]).
Proof. reflexivity. Qed.

Lemma loop_cons path e entries fr :
  fold_left (step path) (e :: entries) fr = fold_left (step path) entries (step path fr e).
Proof. reflexivity. Qed.

(** One iteration only appends to the channel and to the trace. *)
Lemma visit_acc path fr e :
  step path fr e =
  mkFrame (totalSize (step path (mkFrame (totalSize fr) [] []) e))
          (sizeChannel fr ++ sizeChannel (step path (mkFrame (totalSize fr) [] []) e))
          (trace fr ++ trace (step path (mkFrame (totalSize fr) [] []) e)).
Proof.
  destruct (skip (Name e)) eqn:E.
  - rewrite !visit_excluded by exact E. simpl.
    rewrite !app_nil_r. destruct fr; reflexivity.
  - destruct e as [name [sz|msg]|name listing]; simpl in E.
    + rewrite !visit_File_ok by exact E. simpl. rewrite app_nil_r. reflexivity.
    + rewrite !visit_File_err by exact E. simpl. rewrite app_nil_r. reflexivity.
    + rewrite !visit_Dir by exact E. reflexivity.
Qed.

Lemma loop_acc path entries : forall fr,
  fold_left (step path) entries fr =
  mkFrame (totalSize (fold_left (step path) entries (mkFrame (totalSize fr) [] [])))
          (sizeChannel fr
             ++ sizeChannel (fold_left (step path) entries (mkFrame (totalSize fr) [] [])))
          (trace fr
             ++ trace (fold_left (step path) entries (mkFrame (totalSize fr) [] []))).
Proof.
  induction entries as [|e entries IH]; intros fr.
  - simpl. rewrite !app_nil_r. destruct fr; reflexivity.
  - rewrite !loop_cons.
    rewrite IH. rewrite (IH (step path (mkFrame (totalSize fr) [] []) e)).
    rewrite (visit_acc path fr e). simpl.
    rewrite !app_assoc. reflexivity.
Qed.

Lemma visit_total_range path fr e :
  0 <= totalSize fr < 2 ^ 64 -> 0 <= totalSize (step path fr e) < 2 ^ 64.
Proof.
  intros H. destruct (skip (Name e)) eqn:E.
  - rewrite visit_excluded by exact E. exact H.
  - destruct e as [name [sz|msg]|name listing]; simpl in E.
    + rewrite visit_File_ok by exact E. apply add64_range.
    + rewrite visit_File_err by exact E. exact H.
    + rewrite visit_Dir by exact E. exact H.
Qed.

Lemma loop_total_range path entries : forall fr,
  0 <= totalSize fr < 2 ^ 64 ->
  0 <= totalSize (fold_left (step path) entries fr) < 2 ^ 64.
Proof.
  induction entries as [|e entries IH]; intros fr H; [exact H|].
  rewrite loop_cons. apply IH, visit_total_range, H.
Qed.

Lemma walk_total_range path listing : 0 <= fst (walk path listing) < 2 ^ 64.
Proof.
  destruct listing as [entries|msg].
  - rewrite walk_Ok. simpl. apply fold_add64_range, loop_total_range.
    simpl. lia.
  - rewrite walk_Err. simpl. lia.
Qed.

Lemma contribution_range path e :
  0 <= contribution threshold excludeSet path e < 2 ^ 64.
Proof.
  unfold contribution. destruct (skip (Name e)); [lia|].
  destruct e as [name [sz|msg]|name listing]; try lia.
  - apply uint64_range.
  - apply walk_total_range.
Qed.

(** The running total and the channel together hold the contributions of
    the entries seen so far. *)
Lemma loop_sum path entries : forall fr,
  (totalSize (fold_left (step path) entries fr)
   + Zsum (sizeChannel (fold_left (step path) entries fr))) mod 2 ^ 64 =
  (totalSize fr + Zsum (sizeChannel fr)
   + Zsum (map (contribution threshold excludeSet path) entries)) mod 2 ^ 64.
Proof.
  induction entries as [|e entries IH]; intros fr.
  - simpl. f_equal; lia.
  - rewrite loop_cons, IH. rewrite map_cons.
    change (Zsum (?x :: ?l)) with (x + Zsum l).
    set (rest := Zsum (map (contribution threshold excludeSet path) entries)).
    unfold contribution.
    destruct (skip (Name e)) eqn:E.
    + rewrite visit_excluded by exact E. f_equal; lia.
    + destruct e as [name [sz|msg]|name listing]; simpl in E.
      * rewrite visit_File_ok by exact E.
        cbn [totalSize sizeChannel]. unfold add64.
        rewrite <- !Z.add_assoc. rewrite Zplus_mod_idemp_l.
        f_equal; lia.
      * rewrite visit_File_err by exact E.
        cbn [totalSize sizeChannel]. f_equal; lia.
      * rewrite visit_Dir by exact E.
        cbn [totalSize sizeChannel]. rewrite Zsum_app.
        cbn [Zsum fold_right]. f_equal; lia.
Qed.

Lemma walk_total_sum path entries :
  fst (walk path (Ok entries)) =
  Zsum (map (contribution threshold excludeSet path) entries) mod 2 ^ 64.
Proof.
  rewrite walk_Ok. simpl.
  rewrite fold_add64_sum by (apply loop_total_range; simpl; lia).
  rewrite loop_sum. simpl. reflexivity.
Qed.

(** *** Every schedule against the schedule of the function *)

Lemma walkR_sound path listing total t :
  walkR threshold excludeSet path listing total t ->
  total = fst (walk path listing) /\ Permutation t (snd (walk path listing)).
Proof.
  revert path listing total t.
  apply (walkR_mut threshold excludeSet
           (fun path listing total t =>
              total = fst (walk path listing) /\ Permutation t (snd (walk path listing)))
           (fun path entries acc total items sizes =>
              forall fr, totalSize fr = acc ->
                totalSize (fold_left (step path) entries fr) = total /\
                sizeChannel (fold_left (step path) entries fr) = sizeChannel fr ++ sizes /\
                Permutation (trace (fold_left (step path) entries fr))
                            (trace fr ++ flatten items))).
  - intros path msg. rewrite walk_Err. split; reflexivity.
  - intros path entries total items sizes chan t _ IH Hs Hp.
    destruct (IH frame0 eq_refl) as (Ht & Hc & Htr).
    rewrite walk_Ok. simpl in *. rewrite Ht, Hc. split.
    + symmetry. apply fold_add64_perm; [|exact Hp].
      rewrite <- Ht. apply loop_total_range. simpl. lia.
    + rewrite Htr. rewrite (sched_perm _ _ _ Hs). simpl.
      rewrite app_nil_r. reflexivity.
  - intros path acc fr Hfr. simpl. rewrite !app_nil_r. auto.
  - intros path e rest acc total items sizes He _ IH fr Hfr. rewrite loop_cons.
    rewrite visit_excluded by exact He. apply IH, Hfr.
  - intros path name listing rest acc total items sizes subdirSize sub He _ [Hs Hp] _ IH fr Hfr.
    rewrite loop_cons. rewrite visit_Dir by exact He.
    destruct (IH (mkFrame (totalSize fr)
                    (sizeChannel fr ++ [fst (walk (Filepath.Join path name) listing)])
                    (trace fr ++ snd (walk (Filepath.Join path name) listing)
                       ++ note (Filepath.Join path name)
                            (fst (walk (Filepath.Join path name) listing)) true))
                 Hfr) as (Ht & Hc & Htr).
    split; [exact Ht|]. split.
    + rewrite Hc. simpl. rewrite <- app_assoc. subst subdirSize. reflexivity.
    + rewrite Htr. simpl. rewrite flatten_cons_spawn.
      subst subdirSize. rewrite Hp. rewrite <- !app_assoc. reflexivity.
  - intros path name msg rest acc total items sizes He _ IH fr Hfr.
    rewrite loop_cons. rewrite visit_File_err by exact He.
    destruct (IH (mkFrame (totalSize fr) (sizeChannel fr)
                    (trace fr ++ [info_error (Filepath.Join path name) msg])) Hfr)
      as (Ht & Hc & Htr).
    split; [exact Ht|]. split; [exact Hc|].
    rewrite Htr. simpl. rewrite flatten_cons_emit, <- app_assoc. reflexivity.
  - intros path name sz rest acc total items sizes He _ IH fr Hfr.
    rewrite loop_cons. rewrite visit_File_ok by exact He.
    destruct (IH (mkFrame (add64 (totalSize fr) (uint64 sz)) (sizeChannel fr)
                    (trace fr ++ note (Filepath.Join path name) (uint64 sz) false)))
      as (Ht & Hc & Htr); [simpl; congruence|].
    split; [exact Ht|]. split; [exact Hc|].
    rewrite Htr. simpl. rewrite flatten_app, flatten_emits, <- app_assoc. reflexivity.
Qed.

(** The schedule of the function is one of the schedules. *)
Lemma loop_loopR path entries :
  Forall (fun e => match e with
                   | File _ _ => True
                   | Dir _ listing =>
                       forall p, walkR threshold excludeSet p listing
                                   (fst (walk p listing)) (snd (walk p listing))
                   end) entries ->
  forall acc, exists items,
    loopR threshold excludeSet path entries acc
          (totalSize (fold_left (step path) entries (mkFrame acc [] []))) items
          (sizeChannel (fold_left (step path) entries (mkFrame acc [] []))) /\
    flatten items = trace (fold_left (step path) entries (mkFrame acc [] [])).
Proof.
  induction 1 as [|e entries He _ IH]; intros acc.
  - exists []. split; [constructor|reflexivity].
  - rewrite loop_cons, loop_acc.
    destruct (skip (Name e)) eqn:E.
    + rewrite visit_excluded by exact E. simpl.
      destruct (IH acc) as (items & Hl & Hf).
      exists items. split; [|exact Hf]. apply loopR_excluded; assumption.
    + destruct e as [name [sz|msg]|name listing]; simpl in E.
      * rewrite visit_File_ok by exact E. simpl.
        destruct (IH (add64 acc (uint64 sz))) as (items & Hl & Hf).
        eexists. split; [apply loopR_file; eassumption|].
        rewrite flatten_app, flatten_emits, Hf. reflexivity.
      * rewrite visit_File_err by exact E. simpl.
        destruct (IH acc) as (items & Hl & Hf).
        eexists. split; [apply loopR_info_error; eassumption|].
        rewrite flatten_cons_emit, Hf. reflexivity.
      * rewrite visit_Dir by exact E. simpl.
        destruct (IH acc) as (items & Hl & Hf).
        eexists. split; [apply loopR_dir; [exact E|apply He|exact Hl]|].
        rewrite flatten_cons_spawn, Hf, <- app_assoc. reflexivity.
Qed.

Lemma walk_walkR_entries entries :
  Forall (fun e => match e with
                   | File _ _ => True
                   | Dir _ listing =>
                       forall p, walkR threshold excludeSet p listing
                                   (fst (walk p listing)) (snd (walk p listing))
                   end) entries ->
  forall path, walkR threshold excludeSet path (Ok entries)
                 (fst (walk path (Ok entries))) (snd (walk path (Ok entries))).
Proof.
  intros H path. rewrite walk_Ok. simpl.
  destruct (loop_loopR path entries H 0) as (items & Hl & Hf).
  change (mkFrame 0 [] []) with frame0 in *.
  rewrite <- Hf.
  eapply walkR_ok; [exact Hl| |reflexivity].
  apply sched_in_order. constructor.
Qed.

Lemma walk_walkR_entry e :
  match e with
  | File _ _ => True
  | Dir _ listing =>
      forall p, walkR threshold excludeSet p listing
                  (fst (walk p listing)) (snd (walk p listing))
  end.
Proof.
  induction e as [name info|name msg|name entries IH] using entry_nested_ind.
  - exact I.
  - intros p. rewrite walk_Err. constructor.
  - intros p. apply walk_walkR_entries, IH.
Qed.

(** [walkDirRecursive] returns, and what it returns is what one schedule of
    the goroutines produces. *)
Lemma walk_walkR path listing :
  walkR threshold excludeSet path listing (fst (walk path listing)) (snd (walk path listing)).
Proof.
  destruct listing as [entries|msg].
  - apply walk_walkR_entries. apply List.Forall_forall. intros e _. apply walk_walkR_entry.
  - rewrite walk_Err. constructor.
Qed.

End WalkFacts.

(** The goroutines of a call may also finish in the other order. *)
Example walkR_other_schedule :
  snd (walkDirRecursive 0 ∅ "/r" Fixture.two_directories)
  = [Recorded (mkFileInfo "/r/a/x" 1 false); Recorded (mkFileInfo "/r/a" 1 true);
     Recorded (mkFileInfo "/r/b/y" 2 false); Recorded (mkFileInfo "/r/b" 2 true)] /\
  walkR 0 ∅ "/r" Fixture.two_directories 3
    [Recorded (mkFileInfo "/r/b/y" 2 false); Recorded (mkFileInfo "/r/a/x" 1 false);
     Recorded (mkFileInfo "/r/b" 2 true); Recorded (mkFileInfo "/r/a" 1 true)].
Proof.
  split; [vm_compute; reflexivity|].
  pose (x := Recorded (mkFileInfo "/r/a/x" 1 false)).
  pose (a := Recorded (mkFileInfo "/r/a" 1 true)).
  pose (y := Recorded (mkFileInfo "/r/b/y" 2 false)).
  pose (b := Recorded (mkFileInfo "/r/b" 2 true)).
  assert (Ha : walkR 0 ∅ "/r/a" (Ok [File "x" (Ok 1)]) 1 [x])
    by exact (walk_walkR 0 ∅ "/r/a" (Ok [File "x" (Ok 1)])).
  assert (Hb : walkR 0 ∅ "/r/b" (Ok [File "y" (Ok 2)]) 2 [y])
    by exact (walk_walkR 0 ∅ "/r/b" (Ok [File "y" (Ok 2)])).
  assert (Hl : loopR 0 ∅ "/r" [Dir "a" (Ok [File "x" (Ok 1)]); Dir "b" (Ok [File "y" (Ok 2)])]
                 0 0 [Spawn [x; a]; Spawn [y; b]] [1; 2]).
  { exact (loopR_dir 0 ∅ "/r" "a" _ _ 0 0 _ _ 1 [x] eq_refl Ha
             (loopR_dir 0 ∅ "/r" "b" _ _ 0 0 _ _ 2 [y] eq_refl Hb
                (loopR_nil 0 ∅ "/r" 0))). }
  change 3 with (fold_left add64 [2; 1] 0).
  apply (walkR_ok 0 ∅ "/r" _ 0 _ [1; 2] [2; 1] _ Hl); [|apply perm_swap].
  apply sched_spawn, sched_spawn.
  apply (sched_go [] [] y [b] [[x; a]]).
  apply (sched_go [] [[b]] x [a] []).
  apply (sched_go [] [] b [] [[a]]).
  apply (sched_go [] [[]] a [] []).
  apply sched_done. repeat constructor.
Qed.

(** *** What is recorded *)

Lemma recorded_In fi t : In fi (recorded t) <-> In (Recorded fi) t.
Proof.
  unfold recorded. rewrite <- !list_elem_of_In, list_elem_of_omap. split.
  - intros ([fi'|line] & Hin & Heq); inversion Heq; subst. exact Hin.
  - intros H. exists (Recorded fi). auto.
Qed.

Lemma recorded_app t1 t2 : recorded (t1 ++ t2) = recorded t1 ++ recorded t2.
Proof. apply omap_app. Qed.

Lemma recorded_perm t1 t2 : Permutation t1 t2 -> Permutation (recorded t1) (recorded t2).
Proof. intros H. unfold recorded. rewrite H. reflexivity. Qed.

(** The events of a traversal reach the process one by one: the entries are
    appended to [results], in the order of the events, and nothing that was
    there is touched. *)
Lemma apply_events_results t : forall st,
  results (fold_left apply_event t st) = results st ++ recorded t.
Proof.
  induction t as [|[fi|line] t IH]; intros st; simpl.
  - rewrite app_nil_r. reflexivity.
  - rewrite IH. simpl. unfold addResult. rewrite <- app_assoc.
    destruct fi; reflexivity.
  - rewrite IH. reflexivity.
Qed.

Lemma apply_events_stdout t : forall st,
  stdout (fold_left apply_event t st) = stdout st.
Proof.
  induction t as [|[fi|line] t IH]; intros st; simpl; [reflexivity| |];
    rewrite IH; reflexivity.
Qed.

Lemma apply_events_stderr t : forall st,
  stderr (fold_left apply_event t st) = stderr st ++ diagnostics t.
Proof.
  induction t as [|[fi|line] t IH]; intros st; simpl.
  - rewrite app_nil_r. reflexivity.
  - rewrite IH. reflexivity.
  - rewrite IH. simpl. rewrite <- app_assoc. reflexivity.
Qed.

Section TraceFacts.

Variable threshold : Z.
Variable excludeSet : gset string.

#[local] Abbreviation walk := (walkDirRecursive threshold excludeSet).
#[local] Abbreviation step := (visit threshold excludeSet).
#[local] Abbreviation skip := (excluded excludeSet).
#[local] Abbreviation note := (record_if threshold).
#[local] Abbreviation own := (own_events threshold excludeSet).

Lemma visit_trace path fr e :
  trace (step path fr e) = trace fr ++ (if skip (Name e) then [] else own path e).
Proof.
  destruct (skip (Name e)) eqn:E.
  - rewrite visit_excluded by exact E. rewrite app_nil_r. reflexivity.
  - destruct e as [name [sz|msg]|name listing]; simpl in E.
    + rewrite visit_File_ok by exact E. reflexivity.
    + rewrite visit_File_err by exact E. reflexivity.
    + rewrite visit_Dir by exact E. reflexivity.
Qed.

(** The trace of the loop, entry by entry. *)
Lemma loop_trace path entries : forall fr,
  trace (fold_left (step path) entries fr) =
  trace fr ++ concat (map (fun e => if skip (Name e) then [] else own path e) entries).
Proof.
  induction entries as [|e entries IH]; intros fr.
  - simpl. rewrite app_nil_r. reflexivity.
  - rewrite loop_cons, IH, visit_trace. simpl. rewrite <- app_assoc. reflexivity.
Qed.

Lemma walk_trace path entries :
  snd (walk path (Ok entries)) =
  concat (map (fun e => if skip (Name e) then [] else own path e) entries).
Proof. rewrite walk_Ok. simpl. rewrite loop_trace. reflexivity. Qed.

Lemma walk_trace_In path entries ev :
  In ev (snd (walk path (Ok entries))) <->
  exists e, In e entries /\ skip (Name e) = false /\ In ev (own path e).
Proof.
  rewrite walk_trace, in_concat. split.
  - intros (l & Hl & Hev). apply in_map_iff in Hl as (e & <- & He).
    destruct (skip (Name e)) eqn:E; [destruct Hev|].
    exists e. auto.
  - intros (e & He & E & Hev). exists (own path e). split; [|exact Hev].
    apply in_map_iff. exists e. rewrite E. auto.
Qed.

Lemma note_In path size isDir ev :
  In ev (note path size isDir) <->
  ev = Recorded (mkFileInfo path size isDir) /\ threshold <= size.
Proof.
  unfold record_if. destruct (threshold <=? size) eqn:E.
  - apply Z.leb_le in E. simpl. intuition congruence.
  - apply Z.leb_gt in E. simpl. intuition lia.
Qed.

(** Every entry of the collection has a size at or above the threshold. *)
Lemma recorded_above_entries entries :
  Forall (fun e => match e with
                   | Dir _ listing =>
                       forall p fi, In (Recorded fi) (snd (walk p listing)) ->
                                    threshold <= Size fi
                   | File _ _ => True
                   end) entries ->
  forall path fi, In (Recorded fi) (snd (walk path (Ok entries))) -> threshold <= Size fi.
Proof.
  intros H path fi Hin.
  apply walk_trace_In in Hin as (e & He & E & Hev).
  rewrite List.Forall_forall in H. specialize (H e He).
  destruct e as [name [sz|msg]|name listing]; unfold own_events in Hev; simpl in Hev.
  - apply note_In in Hev as [Heq Hle]. inversion Heq; subst. exact Hle.
  - destruct Hev as [Hev|[]]. discriminate.
  - apply in_app_or in Hev as [Hev|Hev].
    + eapply H; eassumption.
    + apply note_In in Hev as [Heq Hle]. inversion Heq; subst. exact Hle.
Qed.

Lemma recorded_above path listing fi :
  In (Recorded fi) (snd (walk path listing)) -> threshold <= Size fi.
Proof.
  assert (He : forall e, match e with
                         | Dir _ listing =>
                             forall p fi, In (Recorded fi) (snd (walk p listing)) ->
                                          threshold <= Size fi
                         | File _ _ => True
                         end).
  { induction e as [name info|name msg|name entries IH] using entry_nested_ind.
    - exact I.
    - intros p fi' [Hin|[]]. discriminate.
    - intros p fi'. apply recorded_above_entries, IH. }
  destruct listing as [entries|msg].
  - apply recorded_above_entries. apply List.Forall_forall. intros e _. apply He.
  - intros [Hin|[]]. discriminate.
Qed.

(** Every entry of the collection stands for a visible node, with the size
    computed for it. *)
Lemma recorded_visible_entries entries :
  Forall (fun e => match e with
                   | Dir _ (Ok sub) =>
                       forall p fi, In (Recorded fi) (snd (walk p (Ok sub))) ->
                         exists e', visible excludeSet p sub (Path fi) e' /\
                                    computed_size threshold excludeSet (Path fi) e' = Some (Size fi) /\
                                    EntryIsDir e' = IsDir fi
                   | _ => True
                   end) entries ->
  forall path fi, In (Recorded fi) (snd (walk path (Ok entries))) ->
    exists e', visible excludeSet path entries (Path fi) e' /\
               computed_size threshold excludeSet (Path fi) e' = Some (Size fi) /\
               EntryIsDir e' = IsDir fi.
Proof.
  intros H path fi Hin.
  apply walk_trace_In in Hin as (e & He & E & Hev).
  rewrite List.Forall_forall in H. specialize (H e He).
  destruct e as [name [sz|msg]|name listing]; unfold own_events in Hev; simpl in Hev.
  - apply note_In in Hev as [Heq _]. inversion Heq; subst.
    exists (File name (Ok sz)). split; [|auto].
    apply (visible_child excludeSet path entries (File name (Ok sz))); assumption.
  - destruct Hev as [Hev|[]]. discriminate.
  - apply in_app_or in Hev as [Hev|Hev].
    + destruct listing as [sub|msg]; [|destruct Hev as [Hev|[]]; discriminate].
      destruct (H _ _ Hev) as (e' & Hv & Hs & Hd).
      exists e'. split; [|auto].
      eapply visible_below; eassumption.
    + apply note_In in Hev as [Heq _]. inversion Heq; subst.
      exists (Dir name listing). split; [|auto].
      apply (visible_child excludeSet path entries (Dir name listing)); assumption.
Qed.

Lemma recorded_visible path entries fi :
  In (Recorded fi) (snd (walk path (Ok entries))) ->
  exists e', visible excludeSet path entries (Path fi) e' /\
             computed_size threshold excludeSet (Path fi) e' = Some (Size fi) /\
             EntryIsDir e' = IsDir fi.
Proof.
  apply recorded_visible_entries. apply List.Forall_forall. intros e _.
  induction e as [name info|name msg|name sub IH] using entry_nested_ind; auto.
  intros p fi'. apply recorded_visible_entries, IH.
Qed.

(** What a visible node makes happen happens. *)
Lemma visible_own path entries p e :
  visible excludeSet path entries p e ->
  exists parent,
    p = Filepath.Join parent (Name e) /\
    forall ev, In ev (own parent e) -> In ev (snd (walk path (Ok entries))).
Proof.
  induction 1 as [path entries e He E|path entries name sub p e Hd E _ IH].
  - exists path. split; [reflexivity|]. intros ev Hev.
    apply walk_trace_In. exists e. auto.
  - destruct IH as (parent & Hp & IH). exists parent. split; [exact Hp|].
    intros ev Hev. apply walk_trace_In.
    exists (Dir name (Ok sub)). split; [exact Hd|]. split; [exact E|].
    unfold own_events. simpl. apply in_or_app. left. apply IH, Hev.
Qed.

End TraceFacts.

(** ** Paths *)

Section Paths.
Import GoStrings Filepath.

Lemma append_cons c (a b : string) : String c a +:+ b = String c (a +:+ b).
Proof. reflexivity. Qed.

Lemma Split_nonempty s sep : Split s sep <> [].
Proof.
  destruct s as [|c s]; simpl; [discriminate|].
  destruct (Ascii.eqb c sep); [discriminate|].
  destruct (Split s sep); discriminate.
Qed.

Lemma Split_app a b sep :
  Split (a +:+ String sep b) sep = Split a sep ++ Split b sep.
Proof.
  induction a as [|c a IH].
  - change ("" +:+ String sep b) with (String sep b). simpl.
    rewrite Ascii.eqb_refl. reflexivity.
  - rewrite append_cons. simpl. rewrite IH.
    destruct (Ascii.eqb c sep); [reflexivity|].
    destruct (Split a sep) as [|h t] eqn:E; [|reflexivity].
    exfalso. eapply Split_nonempty; eassumption.
Qed.

Lemma Split_plain n :
  all_of (fun c => negb (Ascii.eqb c slash)) n = true -> Split n slash = [n].
Proof.
  induction n as [|c n IH]; simpl; [reflexivity|].
  intros H. apply andb_true_iff in H as [Hc Hn].
  apply negb_true_iff in Hc. rewrite Hc, (IH Hn). reflexivity.
Qed.

Lemma join_with_snoc l x :
  join_with "/" (l ++ [x]) = x \/ exists prefix, join_with "/" (l ++ [x]) = prefix +:+ "/" +:+ x.
Proof.
  induction l as [|y l IH]; [left; reflexivity|]. right.
  destruct l as [|z l].
  - exists y. reflexivity.
  - change (join_with "/" ((y :: z :: l) ++ [x]))
      with (y +:+ "/" +:+ join_with "/" ((z :: l) ++ [x])).
    destruct IH as [->|(prefix & ->)].
    + exists y. reflexivity.
    + exists (y +:+ "/" +:+ prefix). rewrite !append_assoc. reflexivity.
Qed.

Lemma last_snoc (l : list string) (x d : string) :
  match l ++ [x] with
  | [] => d
  | c :: l' => List.last l' c
  end = x.
Proof.
  destruct l as [|c l]; [reflexivity|].
  change ((c :: l) ++ [x]) with (c :: (l ++ [x])). cbv beta iota.
  apply last_last.
Qed.

Lemma plain_first_byte n :
  plain_name n -> exists c r, n = String c r /\ Ascii.eqb c slash = false.
Proof.
  intros (Hne & _ & _ & Hs). destruct n as [|c r]; [congruence|].
  exists c, r. split; [reflexivity|]. simpl in Hs.
  apply andb_true_iff in Hs as [Hc _]. apply negb_true_iff in Hc. exact Hc.
Qed.

(** The base of a path that ends in a slash and a plain name is that
    name. *)
Lemma Base_snoc prefix n : plain_name n -> Base (prefix +:+ "/" +:+ n) = n.
Proof.
  intros Hn. unfold Base.
  destruct (prefix +:+ "/" +:+ n) as [|c0 r0] eqn:E.
  - destruct prefix; discriminate.
  - rewrite <- E. change ("/" +:+ n) with (String slash n).
    rewrite Split_app, (Split_plain n) by apply Hn.
    rewrite List.filter_app. simpl List.filter.
    destruct (String.eqb_spec n ""); [destruct Hn; contradiction|].
    simpl. apply last_snoc.
Qed.

Lemma Base_plain n : plain_name n -> Base n = n.
Proof.
  intros Hn. unfold Base.
  destruct n as [|c r] eqn:E; [destruct Hn; contradiction|].
  rewrite <- E in *. rewrite (Split_plain n) by apply Hn. simpl.
  destruct (String.eqb_spec n ""); [destruct Hn; contradiction|]. reflexivity.
Qed.

Lemma clean_step_plain rooted out n : plain_name n -> clean_step rooted out n = n :: out.
Proof.
  intros (H1 & H2 & H3 & _). unfold clean_step.
  destruct (String.eqb_spec n ""); [contradiction|].
  destruct (String.eqb_spec n "."); [contradiction|].
  destruct (String.eqb_spec n ".."); [contradiction|]. reflexivity.
Qed.

Lemma clean_components_snoc rooted parent n :
  plain_name n ->
  clean_components rooted (parent +:+ "/" +:+ n) = clean_components rooted parent ++ [n].
Proof.
  intros Hn. unfold clean_components.
  change ("/" +:+ n) with (String slash n).
  rewrite Split_app, (Split_plain n) by apply Hn.
  rewrite fold_left_app.
  change (fold_left (clean_step rooted) [n] ?o) with (clean_step rooted o n).
  rewrite clean_step_plain by exact Hn. reflexivity.
Qed.

Lemma Clean_cons c r :
  Clean (String c r) =
  if Ascii.eqb c slash
  then String slash (join_with "/" (clean_components true (String c r)))
  else if String.eqb (join_with "/" (clean_components false (String c r))) ""
       then "." else join_with "/" (clean_components false (String c r)).
Proof. unfold Clean. destruct (Ascii.eqb c slash); reflexivity. Qed.

(** Cleaning keeps a plain last component last. *)
Lemma Clean_snoc parent n :
  parent <> "" -> plain_name n ->
  Clean (parent +:+ "/" +:+ n) = n \/
  exists prefix, Clean (parent +:+ "/" +:+ n) = prefix +:+ "/" +:+ n.
Proof.
  intros Hp Hn. destruct parent as [|c r]; [congruence|].
  rewrite append_cons, Clean_cons, <- append_cons.
  rewrite !clean_components_snoc by exact Hn.
  destruct (Ascii.eqb c slash).
  - right.
    destruct (join_with_snoc (clean_components true (String c r)) n) as [E|(prefix & E)];
      rewrite E.
    + exists "". reflexivity.
    + exists (String slash prefix). reflexivity.
  - destruct (join_with_snoc (clean_components false (String c r)) n) as [E|(prefix & E)];
      rewrite E.
    + destruct (String.eqb_spec n ""); [destruct Hn; contradiction|]. left. reflexivity.
    + destruct (String.eqb_spec (prefix +:+ "/" +:+ n) "") as [E'|_].
      * destruct prefix; discriminate.
      * right. exists prefix. reflexivity.
Qed.

Lemma Clean_plain n : plain_name n -> Clean n = n.
Proof.
  intros Hn. destruct (plain_first_byte n Hn) as (c & r & E & Hc).
  assert (Hcc : clean_components false n = [n]).
  { unfold clean_components. rewrite (Split_plain n) by apply Hn.
    change (fold_left (clean_step false) [n] []) with (clean_step false [] n).
    rewrite clean_step_plain by exact Hn. reflexivity. }
  rewrite E at 1. rewrite Clean_cons, Hc, <- E, Hcc.
  change (join_with "/" [n]) with n.
  destruct (String.eqb_spec n ""); [destruct Hn; contradiction|]. reflexivity.
Qed.

(** The bare name of what [filepath.Join] builds from a directory and a file
    name is the file name. *)
Lemma Base_Join parent n : plain_name n -> Base (Join parent n) = n.
Proof.
  intros Hn. unfold Join.
  destruct (String.eqb_spec n ""); [destruct Hn; contradiction|].
  destruct (String.eqb_spec parent "").
  - rewrite Clean_plain by exact Hn. apply Base_plain, Hn.
  - destruct (Clean_snoc parent n) as [E|(prefix & E)]; auto; rewrite E.
    + apply Base_plain, Hn.
    + apply Base_snoc, Hn.
Qed.

End Paths.

(** A visible node is reached from the directory of the traversal through
    names that are not excluded, its own being the last. *)
Lemma visible_chain excludeSet path entries p e :
  visible excludeSet path entries p e ->
  exists names,
    p = fold_left Filepath.Join (names ++ [Name e]) path /\
    Forall (fun n => excluded excludeSet n = false) (names ++ [Name e]) /\
    occurs entries e.
Proof.
  induction 1 as [path entries e He E|path entries name sub p e Hd E _ IH].
  - exists []. split; [reflexivity|]. split; [|constructor; exact He].
    constructor; [exact E|constructor].
  - destruct IH as (names & Hp & Hn & Ho).
    exists (name :: names). split; [exact Hp|]. split.
    + constructor; assumption.
    + eapply occurs_below; eassumption.
Qed.

Lemma visible_Base excludeSet path entries p e :
  visible excludeSet path entries p e ->
  plain_name (Name e) ->
  Filepath.Base p = Name e.
Proof.
  intros Hv Hn.
  assert (H : exists parent, p = Filepath.Join parent (Name e)).
  { clear Hn. induction Hv; eauto. }
  destruct H as (parent & ->). apply Base_Join, Hn.
Qed.

(** ** The recursive sum *)

(** C1, the claim as stated fails: the total is a [uint64] and the sum
    can pass [2^64].  Three files of [2^63 - 1] bytes, the largest size an
    [int64] holds, give on every schedule the total [2^63 - 3], which is not
    the sum of the three sizes. *)
Lemma total_wraps_around :
  (forall total t,
     walkR 1 ∅ "/r"
       (Ok [File "a" (Ok (2 ^ 63 - 1)); File "b" (Ok (2 ^ 63 - 1));
            File "c" (Ok (2 ^ 63 - 1))]) total t ->
     total = 2 ^ 63 - 3) /\
  map (contribution 1 ∅ "/r")
      [File "a" (Ok (2 ^ 63 - 1)); File "b" (Ok (2 ^ 63 - 1)); File "c" (Ok (2 ^ 63 - 1))]
  = [2 ^ 63 - 1; 2 ^ 63 - 1; 2 ^ 63 - 1] /\
  Zsum (map (contribution 1 ∅ "/r")
          [File "a" (Ok (2 ^ 63 - 1)); File "b" (Ok (2 ^ 63 - 1));
           File "c" (Ok (2 ^ 63 - 1))])
  = 3 * 2 ^ 63 - 3 /\
  2 ^ 63 - 3 <> 3 * 2 ^ 63 - 3.
Proof.
  split; [|split; [|split]]; try (vm_compute; congruence).
  intros total t H. apply walkR_sound in H as [-> _]. vm_compute. reflexivity.
Qed.

(** C1, amended. Whatever the schedule of the goroutines and the order in
    which the channel delivers their sizes, the total returned for a
    directory is the [uint64] sum, that is the sum modulo [2^64], of the
    contributions of its children: nothing for an excluded child, its size
    for a file, its recursively computed total for a subdirectory.  It is the
    plain sum whenever that fits 64 bits, and a listing with the same
    children in another order has the same total. *)
Theorem walk_total_is_sum (threshold : Z) (excludeSet : gset string)
    (path : string) (entries : list entry) (total : Z) (t : list event) :
  walkR threshold excludeSet path (Ok entries) total t ->
  total = fst (walkDirRecursive threshold excludeSet path (Ok entries)) /\
  total = Zsum (map (contribution threshold excludeSet path) entries) mod 2 ^ 64 /\
  (Zsum (map (contribution threshold excludeSet path) entries) < 2 ^ 64 ->
   total = Zsum (map (contribution threshold excludeSet path) entries)) /\
  (forall entries' total' t',
     Permutation entries entries' ->
     walkR threshold excludeSet path (Ok entries') total' t' ->
     total' = total).
Proof.
  intros H. apply walkR_sound in H as [Ht _].
  assert (Hs : total = Zsum (map (contribution threshold excludeSet path) entries) mod 2 ^ 64).
  { rewrite Ht. apply walk_total_sum. }
  split; [exact Ht|]. split; [exact Hs|]. split.
  - intros Hfit. rewrite Hs. apply Z.mod_small. split; [|exact Hfit].
    apply Zsum_nonneg. apply List.Forall_forall. intros x Hx.
    apply in_map_iff in Hx as (e & <- & _). apply contribution_range.
  - intros entries' total' t' Hp H'.
    apply walkR_sound in H' as [Ht' _].
    rewrite Ht', Hs, walk_total_sum.
    f_equal. apply Zsum_perm. apply Permutation_map. symmetry. exact Hp.
Qed.

Lemma walk_total_is_sum_witness :
  walkR 1 ∅ "/tmp/x"
        (Ok [File "file1.txt" (Ok 5); Dir "subdir1" (Ok [File "file2.txt" (Ok 5)]);
             Dir "subdir2" (Ok [File "file3.txt" (Ok 1)])])
        11
        (snd (walkDirRecursive 1 ∅ "/tmp/x"
                (Ok [File "file1.txt" (Ok 5); Dir "subdir1" (Ok [File "file2.txt" (Ok 5)]);
                     Dir "subdir2" (Ok [File "file3.txt" (Ok 1)])]))) /\
  11 = Zsum (map (contribution 1 ∅ "/tmp/x")
               [File "file1.txt" (Ok 5); Dir "subdir1" (Ok [File "file2.txt" (Ok 5)]);
                Dir "subdir2" (Ok [File "file3.txt" (Ok 1)])]) mod 2 ^ 64.
Proof.
  assert (H : walkR 1 ∅ "/tmp/x"
                (Ok [File "file1.txt" (Ok 5); Dir "subdir1" (Ok [File "file2.txt" (Ok 5)]);
                     Dir "subdir2" (Ok [File "file3.txt" (Ok 1)])])
                11
                (snd (walkDirRecursive 1 ∅ "/tmp/x"
                        (Ok [File "file1.txt" (Ok 5); Dir "subdir1" (Ok [File "file2.txt" (Ok 5)]);
                             Dir "subdir2" (Ok [File "file3.txt" (Ok 1)])])))).
  { exact (walk_walkR 1 ∅ "/tmp/x"
             (Ok [File "file1.txt" (Ok 5); Dir "subdir1" (Ok [File "file2.txt" (Ok 5)]);
                  Dir "subdir2" (Ok [File "file3.txt" (Ok 1)])])). }
  split; [exact H|].
  exact (proj1 (proj2 (walk_total_is_sum _ _ _ _ _ _ H))).
Defined.

(** ** Exclusion *)

Section Exclusion.

Variable threshold : Z.
Variable excludeSet : gset string.

#[local] Abbreviation skip := (excluded excludeSet).
#[local] Abbreviation cut := (prune_entry excludeSet).

Lemma prune_entry_excluded e : skip (Name e) = true -> cut e = [].
Proof. destruct e as [name info|name [sub|msg]]; simpl; intros ->; reflexivity. Qed.

Lemma prune_entry_File name info :
  skip name = false -> cut (File name info) = [File name info].
Proof. simpl. intros ->. reflexivity. Qed.

Lemma prune_entry_Dir name listing :
  skip name = false -> cut (Dir name listing) = [Dir name (prune excludeSet listing)].
Proof. destruct listing as [sub|msg]; simpl; intros ->; reflexivity. Qed.

(** A schedule on the tree is a schedule on the pruned tree. *)
Lemma walkR_prune path listing total t :
  walkR threshold excludeSet path listing total t ->
  walkR threshold excludeSet path (prune excludeSet listing) total t.
Proof.
  revert path listing total t.
  apply (walkR_mut threshold excludeSet
           (fun path listing total t =>
              walkR threshold excludeSet path (prune excludeSet listing) total t)
           (fun path entries acc total items sizes =>
              loopR threshold excludeSet path (concat (map cut entries))
                    acc total items sizes)).
  - intros path msg. constructor.
  - intros path entries total items sizes chan t _ IH Hs Hp.
    simpl. econstructor; eassumption.
  - intros path acc. constructor.
  - intros path e rest acc total items sizes He _ IH.
    rewrite map_cons, concat_cons, prune_entry_excluded by exact He. exact IH.
  - intros path name listing rest acc total items sizes subdirSize sub He _ IHw _ IH.
    rewrite map_cons, concat_cons, prune_entry_Dir by exact He.
    apply loopR_dir; assumption.
  - intros path name msg rest acc total items sizes He _ IH.
    rewrite map_cons, concat_cons, prune_entry_File by exact He.
    apply loopR_info_error; assumption.
  - intros path name sz rest acc total items sizes He _ IH.
    rewrite map_cons, concat_cons, prune_entry_File by exact He.
    apply loopR_file; assumption.
Qed.

(** And a schedule on the pruned tree is a schedule on the tree. *)
Lemma loopR_unprune entries :
  Forall (fun e => match e with
                   | Dir _ listing =>
                       forall p total t,
                         walkR threshold excludeSet p (prune excludeSet listing) total t ->
                         walkR threshold excludeSet p listing total t
                   | File _ _ => True
                   end) entries ->
  forall path acc total items sizes,
    loopR threshold excludeSet path (concat (map cut entries)) acc total items sizes ->
    loopR threshold excludeSet path entries acc total items sizes.
Proof.
  induction 1 as [|e entries He _ IH]; intros path acc total items sizes Hl.
  - exact Hl.
  - rewrite map_cons, concat_cons in Hl.
    destruct (skip (Name e)) eqn:E.
    + rewrite prune_entry_excluded in Hl by exact E.
      apply loopR_excluded; [exact E|]. apply IH, Hl.
    + destruct e as [name info|name listing]; simpl in E.
      * rewrite prune_entry_File in Hl by exact E.
        inversion Hl; subst; simpl in *; try congruence.
        -- apply loopR_info_error; [exact E|]. apply IH. assumption.
        -- apply loopR_file; [exact E|]. apply IH. assumption.
      * rewrite prune_entry_Dir in Hl by exact E.
        inversion Hl; subst; simpl in *; try congruence.
        apply loopR_dir; [exact E|apply He; assumption|apply IH; assumption].
Qed.

Lemma walkR_unprune_entries entries :
  Forall (fun e => match e with
                   | Dir _ listing =>
                       forall p total t,
                         walkR threshold excludeSet p (prune excludeSet listing) total t ->
                         walkR threshold excludeSet p listing total t
                   | File _ _ => True
                   end) entries ->
  forall path total t,
    walkR threshold excludeSet path (prune excludeSet (Ok entries)) total t ->
    walkR threshold excludeSet path (Ok entries) total t.
Proof.
  intros H path total t Hw. simpl in Hw.
  inversion Hw; subst.
  econstructor; [|eassumption|eassumption].
  apply loopR_unprune; assumption.
Qed.

Lemma walkR_unprune path listing total t :
  walkR threshold excludeSet path (prune excludeSet listing) total t ->
  walkR threshold excludeSet path listing total t.
Proof.
  assert (He : forall e, match e with
                         | Dir _ listing =>
                             forall p total t,
                               walkR threshold excludeSet p (prune excludeSet listing) total t ->
                               walkR threshold excludeSet p listing total t
                         | File _ _ => True
                         end).
  { induction e as [name info|name msg|name entries IH] using entry_nested_ind.
    - exact I.
    - intros p total' t' Hw. exact Hw.
    - apply walkR_unprune_entries, IH. }
  destruct listing as [entries|msg]; [|auto].
  apply walkR_unprune_entries. apply List.Forall_forall. intros e _. apply He.
Qed.

(** Nothing with an excluded name is left in the pruned tree. *)
Lemma occurs_prune_entries entries :
  Forall (fun e => match e with
                   | Dir _ (Ok sub) =>
                       forall e', occurs (concat (map cut sub)) e' -> skip (Name e') = false
                   | _ => True
                   end) entries ->
  forall e', occurs (concat (map cut entries)) e' -> skip (Name e') = false.
Proof.
  intros H e' Ho.
  assert (Hin : forall x, In x (concat (map cut entries)) ->
                  exists e, In e entries /\ skip (Name e) = false /\ cut e = [x]).
  { intros x Hx. apply in_concat in Hx as (l & Hl & Hx).
    apply in_map_iff in Hl as (e & <- & He). exists e. split; [exact He|].
    destruct (skip (Name e)) eqn:E.
    - rewrite prune_entry_excluded in Hx by exact E. destruct Hx.
    - split; [reflexivity|].
      destruct e as [name info|name listing]; simpl in E.
      + rewrite prune_entry_File in * by exact E. destruct Hx as [<-|[]]. reflexivity.
      + rewrite prune_entry_Dir in * by exact E. destruct Hx as [<-|[]]. reflexivity. }
  inversion Ho as [? ? Hx|? name sub ? Hx Hsub]; subst.
  - destruct (Hin _ Hx) as (e & He & E & Hc).
    destruct e as [name info|name listing]; simpl in E.
    + rewrite prune_entry_File in Hc by exact E. inversion Hc; subst. exact E.
    + rewrite prune_entry_Dir in Hc by exact E. inversion Hc; subst. exact E.
  - destruct (Hin _ Hx) as (e & He & E & Hc).
    rewrite List.Forall_forall in H. specialize (H e He).
    destruct e as [name' info|name' listing]; simpl in E.
    + rewrite prune_entry_File in Hc by exact E. inversion Hc.
    + rewrite prune_entry_Dir in Hc by exact E. inversion Hc; subst.
      destruct listing as [sub'|msg]; simpl in *; [|discriminate].
      match goal with Heq : Ok _ = Ok _ |- _ => inversion Heq; subst end.
      apply H. exact Hsub.
Qed.

Lemma occurs_prune entries e' :
  occurs (concat (map cut entries)) e' -> skip (Name e') = false.
Proof.
  apply occurs_prune_entries. apply List.Forall_forall. intros e _.
  induction e as [name info|name msg|name sub IH] using entry_nested_ind; auto.
  apply occurs_prune_entries, IH.
Qed.

End Exclusion.

(** C5. On every schedule the traversal of a tree is the traversal of the
    tree without its excluded nodes: the same total for every directory and
    the same events, whatever the excluded nodes contain.  The pruned tree
    has no node with an excluded name at any depth, and an excluded child
    adds nothing to the total.  Every recorded entry stands for a node whose
    path is the path of the traversal extended by names none of which is
    excluded; its bare name is the last of them. *)
Theorem exclusion_prunes (threshold : Z) (excludeSet : gset string)
    (path : string) (entries : list entry) :
  (forall total t,
     walkR threshold excludeSet path (Ok entries) total t <->
     walkR threshold excludeSet path (prune excludeSet (Ok entries)) total t) /\
  (forall pruned e,
     prune excludeSet (Ok entries) = Ok pruned ->
     occurs pruned e -> excluded excludeSet (Name e) = false) /\
  (forall e, In e entries -> excluded excludeSet (Name e) = true ->
             contribution threshold excludeSet path e = 0) /\
  (forall total t fi,
     walkR threshold excludeSet path (Ok entries) total t ->
     In fi (recorded t) ->
     exists names e,
       occurs entries e /\
       Path fi = fold_left Filepath.Join (names ++ [Name e]) path /\
       Forall (fun n => excluded excludeSet n = false) (names ++ [Name e]) /\
       (plain_name (Name e) ->
        Filepath.Base (Path fi) = Name e /\
        excluded excludeSet (Filepath.Base (Path fi)) = false)).
Proof.
  split; [|split; [|split]].
  - intros total t. split; [apply walkR_prune|apply walkR_unprune].
  - intros pruned e Hp Ho. simpl in Hp. inversion Hp; subst.
    eapply occurs_prune; eassumption.
  - intros e _ He. unfold contribution. rewrite He. reflexivity.
  - intros total t fi Hw Hin.
    apply walkR_sound in Hw as [_ Hp].
    apply recorded_In in Hin.
    apply (Permutation_in _ Hp) in Hin.
    apply recorded_visible in Hin as (e & Hv & _).
    destruct (visible_chain _ _ _ _ _ Hv) as (names & Hpath & Hnames & Ho).
    exists names, e. split; [exact Ho|]. split; [exact Hpath|]. split; [exact Hnames|].
    intros Hplain. rewrite (visible_Base _ _ _ _ _ Hv Hplain). split; [reflexivity|].
    apply Forall_app in Hnames as [_ Hlast]. inversion Hlast; assumption.
Qed.

Lemma exclusion_prunes_witness :
  walkR 1 {["excluded_dir"]} "/r"
    (prune {["excluded_dir"]}
       (Ok [Dir "included_dir" (Ok [File "file1.txt" (Ok 3)]);
            Dir "excluded_dir" (Ok [File "file2.txt" (Ok 4)]);
            File "another_file.txt" (Ok 5)]))
    (fst (walkDirRecursive 1 {["excluded_dir"]} "/r"
            (Ok [Dir "included_dir" (Ok [File "file1.txt" (Ok 3)]);
                 Dir "excluded_dir" (Ok [File "file2.txt" (Ok 4)]);
                 File "another_file.txt" (Ok 5)])))
    (snd (walkDirRecursive 1 {["excluded_dir"]} "/r"
            (Ok [Dir "included_dir" (Ok [File "file1.txt" (Ok 3)]);
                 Dir "excluded_dir" (Ok [File "file2.txt" (Ok 4)]);
                 File "another_file.txt" (Ok 5)]))).
Proof.
  apply (proj1 (proj1 (exclusion_prunes 1 {["excluded_dir"]} "/r"
                         [Dir "included_dir" (Ok [File "file1.txt" (Ok 3)]);
                          Dir "excluded_dir" (Ok [File "file2.txt" (Ok 4)]);
                          File "another_file.txt" (Ok 5)]) _ _)).
  apply walk_walkR.
Defined.

(** ** The order of the listing *)

Section StringOrder.

Lemma ascii_compare_refl c : Ascii.compare c c = Eq.
Proof. unfold Ascii.compare. apply N.compare_refl. Qed.

Lemma ascii_compare_trans_lt a b c :
  Ascii.compare a b = Lt -> Ascii.compare b c = Lt -> Ascii.compare a c = Lt.
Proof. unfold Ascii.compare. rewrite !N.compare_lt_iff. lia. Qed.

Lemma string_compare_refl s : String.compare s s = Eq.
Proof.
  induction s as [|c s IH]; simpl; [reflexivity|].
  rewrite ascii_compare_refl. exact IH.
Qed.

Lemma string_compare_trans_lt : forall a b c,
  String.compare a b = Lt -> String.compare b c = Lt -> String.compare a c = Lt.
Proof.
  induction a as [|x a IH]; intros [|y b] [|z c]; simpl; try discriminate; auto.
  destruct (Ascii.compare x y) eqn:Exy; try discriminate;
    destruct (Ascii.compare y z) eqn:Eyz; try discriminate; intros H1 H2.
  - apply Ascii.compare_eq_iff in Exy, Eyz. subst.
    rewrite ascii_compare_refl. eapply IH; eassumption.
  - apply Ascii.compare_eq_iff in Exy. subst. rewrite Eyz. reflexivity.
  - apply Ascii.compare_eq_iff in Eyz. subst. rewrite Exy. reflexivity.
  - rewrite (ascii_compare_trans_lt _ _ _ Exy Eyz). reflexivity.
Qed.

Lemma string_ltb_false_leb a b : String.ltb a b = false -> String.leb b a = true.
Proof.
  unfold String.ltb, String.leb. rewrite (String.compare_antisym a b).
  destruct (String.compare b a); simpl; auto.
Qed.

Lemma string_ltb_leb a b : String.ltb a b = true -> String.leb a b = true.
Proof. unfold String.ltb, String.leb. destruct (String.compare a b); auto. Qed.

Lemma string_leb_refl a : String.leb a a = true.
Proof. unfold String.leb. rewrite string_compare_refl. reflexivity. Qed.

Lemma string_leb_trans a b c :
  String.leb a b = true -> String.leb b c = true -> String.leb a c = true.
Proof.
  unfold String.leb.
  destruct (String.compare a b) eqn:Eab; try discriminate;
    destruct (String.compare b c) eqn:Ebc; try discriminate; intros _ _.
  - apply String.compare_eq_iff in Eab, Ebc. subst.
    rewrite string_compare_refl. reflexivity.
  - apply String.compare_eq_iff in Eab. subst. rewrite Ebc. reflexivity.
  - apply String.compare_eq_iff in Ebc. subst. rewrite Eab. reflexivity.
  - rewrite (string_compare_trans_lt _ _ _ Eab Ebc). reflexivity.
Qed.

End StringOrder.

Section Order.

Lemma precedes_refl a : precedes a a.
Proof. right. right. auto using string_leb_refl. Qed.

Lemma precedes_trans a b c : precedes a b -> precedes b c -> precedes a c.
Proof.
  unfold precedes.
  intros [[H1 H2]|[[H1 H2]|(H1 & H2 & H3)]] [[H4 H5]|[[H4 H5]|(H4 & H5 & H6)]];
    try (left; split; congruence);
    try (right; left; split; [congruence|lia]).
  right. right. split; [congruence|]. split; [lia|].
  eapply string_leb_trans; eassumption.
Qed.

Lemma precedes_antisym a b : precedes a b -> precedes b a -> a = b.
Proof.
  unfold precedes.
  intros [[H1 H2]|[[H1 H2]|(H1 & H2 & H3)]] [[H4 H5]|[[H4 H5]|(H4 & H5 & H6)]];
    try congruence; try lia.
  destruct a, b; simpl in *. f_equal; auto.
  apply String.leb_antisym; assumption.
Qed.

Lemma precedes_total a b : precedes a b \/ precedes b a.
Proof.
  unfold precedes.
  destruct (IsDir a) eqn:Ea, (IsDir b) eqn:Eb; auto.
  - destruct (Z.lt_trichotomy (Size a) (Size b)) as [H|[H|H]]; auto 6.
    destruct (String.leb_total (Path a) (Path b)); auto 8.
  - destruct (Z.lt_trichotomy (Size a) (Size b)) as [H|[H|H]]; auto 6.
    destruct (String.leb_total (Path a) (Path b)); auto 8.
Qed.

(** [less] is the strict part of the order. *)
Lemma less_precedes a b : less a b = true -> precedes a b /\ a <> b.
Proof.
  unfold less, precedes.
  destruct (Bool.eqb (IsDir a) (IsDir b)) eqn:Ed; simpl.
  - apply Bool.eqb_prop in Ed.
    destruct (Size a =? Size b) eqn:Es; simpl.
    + apply Z.eqb_eq in Es. intros H. split.
      * right. right. auto using string_ltb_leb.
      * intros ->. unfold String.ltb in H.
        rewrite string_compare_refl in H. discriminate.
    + apply Z.eqb_neq in Es. intros H. apply Z.ltb_lt in H. split.
      * right. left. auto.
      * intros ->. lia.
  - apply Bool.eqb_false_iff in Ed. intros H. split.
    + left. split; [exact H|]. destruct (IsDir b); congruence.
    + intros ->. congruence.
Qed.

Lemma not_less_precedes a b : less a b = false -> precedes b a.
Proof.
  unfold less, precedes.
  destruct (Bool.eqb (IsDir a) (IsDir b)) eqn:Ed; simpl.
  - apply Bool.eqb_prop in Ed.
    destruct (Size a =? Size b) eqn:Es; simpl.
    + apply Z.eqb_eq in Es. intros H. right. right.
      auto using string_ltb_false_leb.
    + apply Z.eqb_neq in Es. intros H. apply Z.ltb_ge in H.
      right. left. split; [auto|lia].
  - apply Bool.eqb_false_iff in Ed. intros H. left.
    destruct (IsDir b); [auto|congruence].
Qed.

Lemma insert_perm x l : Permutation (insert x l) (x :: l).
Proof.
  induction l as [|y l IH]; simpl; [reflexivity|].
  destruct (less x y); [reflexivity|].
  rewrite IH. apply perm_swap.
Qed.

Lemma insert_sorted x l :
  StronglySorted precedes l -> StronglySorted precedes (insert x l).
Proof.
  induction 1 as [|y l Hl IH Hy]; simpl.
  - constructor; constructor.
  - destruct (less x y) eqn:E.
    + apply less_precedes in E as [E _].
      constructor; [constructor; assumption|].
      constructor; [exact E|].
      eapply List.Forall_impl; [|exact Hy]. intros z Hz.
      eapply precedes_trans; eassumption.
    + apply not_less_precedes in E.
      constructor; [exact IH|].
      apply List.Forall_forall. intros z Hz.
      apply (Permutation_in _ (insert_perm x l)) in Hz as [<-|Hz]; [exact E|].
      rewrite List.Forall_forall in Hy. apply Hy, Hz.
Qed.

Lemma sort_Slice_perm l : Permutation (sort_Slice l) l.
Proof.
  induction l as [|x l IH]; simpl; [reflexivity|].
  rewrite insert_perm. constructor. exact IH.
Qed.

Lemma sort_Slice_sorted l : StronglySorted precedes (sort_Slice l).
Proof.
  induction l as [|x l IH]; simpl; [constructor|].
  apply insert_sorted, IH.
Qed.

Lemma sorted_perm_eq l1 : forall l2,
  StronglySorted precedes l1 -> StronglySorted precedes l2 ->
  Permutation l1 l2 -> l1 = l2.
Proof.
  induction l1 as [|x l1 IH]; intros l2 H1 H2 Hp.
  - apply Permutation_nil in Hp. auto.
  - destruct l2 as [|y l2].
    + symmetry in Hp. apply Permutation_nil in Hp. discriminate.
    + inversion H1 as [|? ? H1' Hx]; subst.
      inversion H2 as [|? ? H2' Hy]; subst.
      assert (Hxy : x = y).
      { rewrite List.Forall_forall in Hx, Hy.
        assert (Hin1 : In y (x :: l1)) by (eapply Permutation_in; [symmetry; exact Hp|left; reflexivity]).
        assert (Hin2 : In x (y :: l2)) by (eapply Permutation_in; [exact Hp|left; reflexivity]).
        destruct Hin1 as [->|Hin1]; [reflexivity|].
        destruct Hin2 as [->|Hin2]; [reflexivity|].
        apply precedes_antisym; auto. }
      subst y. f_equal. apply IH; auto.
      eapply Permutation_cons_inv; eassumption.
Qed.

(** Any slice that [sort.Slice] may leave, that is any permutation in which
    no element is [less] than an earlier one, is the one [sort_Slice]
    computes. *)
Lemma sort_Slice_unique l l' :
  Permutation l l' ->
  StronglySorted (fun a b => less b a = false) l' ->
  l' = sort_Slice l.
Proof.
  intros Hp Hs. apply sorted_perm_eq.
  - clear Hp. induction Hs as [|x l0 _ IH Hx]; constructor; [exact IH|].
    eapply List.Forall_impl; [|exact Hx]. intros y Hy. apply not_less_precedes, Hy.
  - apply sort_Slice_sorted.
  - rewrite sort_Slice_perm. symmetry. exact Hp.
Qed.

End Order.

(** ** [run] *)

Lemma display_defined fi : is_uint64 fi -> exists line, display fi = Some line.
Proof.
  intros H. unfold display.
  destruct (humanReadableSize_defined (Size fi) H) as (h & ->).
  eexists; reflexivity.
Qed.

Lemma mapM_display_defined l :
  Forall is_uint64 l -> exists lines, mapM display l = Some lines.
Proof.
  intros H.
  assert (Hs : is_Some (mapM display l)).
  { apply mapM_is_Some. eapply List.Forall_impl; [|exact H].
    intros fi Hfi. destruct (display_defined fi Hfi) as (line & Hl).
    simpl. rewrite Hl. eexists; reflexivity. }
  destruct Hs as (lines & Hl). exists lines. exact Hl.
Qed.

Lemma Forall_perm {A} (P : A -> Prop) l1 l2 :
  Permutation l1 l2 -> Forall P l1 -> Forall P l2.
Proof.
  intros Hp H. apply List.Forall_forall. intros x Hx.
  rewrite List.Forall_forall in H. apply H.
  eapply Permutation_in; [symmetry; exact Hp|exact Hx].
Qed.

Lemma computed_size_range threshold excludeSet p e sz :
  computed_size threshold excludeSet p e = Some sz -> 0 <= sz < 2 ^ 64.
Proof.
  destruct e as [name [s|msg]|name listing]; simpl; intros H; inversion H; subst.
  - apply uint64_range.
  - apply walk_total_range.
Qed.

(** Totals and recorded sizes are [uint64] values on every schedule. *)
Lemma walkR_range threshold excludeSet path listing total t :
  walkR threshold excludeSet path listing total t ->
  0 <= total < 2 ^ 64 /\ Forall is_uint64 (recorded t).
Proof.
  intros H. apply walkR_sound in H as [-> Hp]. split; [apply walk_total_range|].
  apply List.Forall_forall. intros fi Hfi.
  apply recorded_In in Hfi. apply (Permutation_in _ Hp) in Hfi.
  destruct listing as [entries|msg].
  - apply recorded_visible in Hfi as (e & _ & Hs & _).
    eapply computed_size_range; eassumption.
  - destruct Hfi as [Hfi|[]]. discriminate.
Qed.

(** What [run] does once the traversal has returned. *)
Lemma run_report_spec scanPath threshold total t st :
  0 <= total < 2 ^ 64 -> Forall is_uint64 (recorded t) -> Forall is_uint64 (results st) ->
  exists lines,
    mapM display (sort_Slice (results st ++ recorded t ++ root_entry scanPath threshold total))
    = Some lines /\
    run_report scanPath threshold (total, t) st =
    Returned None
      (mkProcess (sort_Slice (results st ++ recorded t ++ root_entry scanPath threshold total))
                 (stdout st ++ lines) (stderr st ++ diagnostics t)).
Proof.
  intros Ht Hrec Hst.
  assert (Hall : Forall is_uint64
                   (sort_Slice (results st ++ recorded t ++ root_entry scanPath threshold total))).
  { eapply Forall_perm; [symmetry; apply sort_Slice_perm|].
    apply Forall_app. split; [exact Hst|]. apply Forall_app. split; [exact Hrec|].
    unfold root_entry. destruct (threshold <=? total); constructor; [exact Ht|constructor]. }
  destruct (mapM_display_defined _ Hall) as (lines & Hl).
  exists lines. split; [exact Hl|].
  unfold run_report.
  rewrite apply_events_results, apply_events_stdout, apply_events_stderr.
  assert (Hc : (if threshold <=? total
                then addResult scanPath total true (results st ++ recorded t)
                else results st ++ recorded t)
               = results st ++ recorded t ++ root_entry scanPath threshold total).
  { unfold root_entry, addResult. destruct (threshold <=? total).
    - rewrite <- app_assoc. reflexivity.
    - rewrite app_nil_r. reflexivity. }
  rewrite Hc, Hl. reflexivity.
Qed.

Section RunFacts.

Variable uint64_unrepresentable : spec_float -> Z.
Variable stat : string -> result entry.

#[local] Abbreviation prepare := (run_prepare uint64_unrepresentable stat).

(** [run] with two positional arguments, up to the traversal. *)
Lemma run_prepare_two arg0 args excludeDirs arg_dir minSizeStr st :
  Flag.Parse "proc,dev,sys" args = Flag.Parsed excludeDirs [arg_dir; minSizeStr] ->
  prepare (arg0 :: args) st =
  if excluded (build_excludeSet excludeDirs) (Filepath.Base (Filepath.Clean arg_dir)) then
    Some (Stop None
            (print ("Top-level directory '" +:+ Filepath.Clean arg_dir
                    +:+ "' is in the exclude list. Nothing to do.") st))
  else
    match SizeParser.parseSize uint64_unrepresentable minSizeStr with
    | Err msg => Some (Stop (Some ("error: " +:+ msg)) st)
    | Ok threshold =>
        match stat (Filepath.Clean arg_dir) with
        | Err msg =>
            Some (Stop (Some ("error accessing '" +:+ Filepath.Clean arg_dir
                              +:+ "': " +:+ msg)) st)
        | Ok (File _ _) =>
            Some (Stop (Some ("error: '" +:+ Filepath.Clean arg_dir
                              +:+ "' is not a directory")) st)
        | Ok (Dir _ listing) =>
            match Formatter.humanReadableSize threshold with
            | None => None
            | Some hrThreshold =>
                Some (Scan (Filepath.Clean arg_dir) threshold (build_excludeSet excludeDirs)
                        listing
                        (print "--------------------------------"
                           (print "TYPE   SIZE        NAME"
                              (print ""
                                 ((if (0 <? size (build_excludeSet excludeDirs))%nat
                                   then print ("Excluding: " +:+ excludeDirs)
                                   else fun s => s)
                                    (print ("Minimum size threshold: " +:+ hrThreshold)
                                       (print ("Scanning directory: " +:+ Filepath.Clean arg_dir)
                                          st)))))))
            end
        end
    end.
Proof.
  intros H. unfold run_prepare. rewrite H.
  destruct (excluded _ _); [reflexivity|].
  destruct (SizeParser.parseSize _ _); [|reflexivity].
  destruct (stat _) as [[? ?|? ?]|]; try reflexivity.
  destruct (Formatter.humanReadableSize _); [|reflexivity].
  destruct (0 <? size (build_excludeSet excludeDirs))%nat; reflexivity.
Qed.

(** When [run] gets to the traversal, the threshold is the parsed size, the
    top-level name is not excluded, and only the header has been
    printed. *)
Lemma run_prepare_Scan args st scanPath threshold excludeSet listing st0 :
  prepare args st = Some (Scan scanPath threshold excludeSet listing st0) ->
  0 <= threshold < 2 ^ 64 /\
  excluded excludeSet (Filepath.Base scanPath) = false /\
  results st0 = results st /\ stderr st0 = stderr st /\
  exists header, stdout st0 = stdout st ++ header.
Proof.
  unfold run_prepare.
  destruct args as [|arg0 args]; [discriminate|].
  destruct (Flag.Parse "proc,dev,sys" args) as [excludeDirs pos| |msg]; try discriminate.
  destruct pos as [|arg_dir [|minSizeStr [|? ?]]]; try discriminate.
  destruct (excluded _ _) eqn:E; [discriminate|].
  destruct (SizeParser.parseSize _ _) as [th|msg] eqn:Ep; [|discriminate].
  destruct (stat _) as [[? ?|? l]|]; try discriminate.
  destruct (Formatter.humanReadableSize _); [|discriminate].
  intros H. inversion H; subst. clear H.
  split; [eapply parseSize_range; eassumption|].
  split; [exact E|].
  destruct (0 <? size (build_excludeSet excludeDirs))%nat; simpl;
    repeat split; try reflexivity; eexists;
    rewrite <- !app_assoc; reflexivity.
Qed.

Lemma runR_Scan args st o scanPath threshold excludeSet listing st0 :
  prepare args st = Some (Scan scanPath threshold excludeSet listing st0) ->
  runR uint64_unrepresentable stat args st o ->
  exists total t,
    walkR threshold excludeSet scanPath listing total t /\
    o = run_report scanPath threshold (total, t) st0.
Proof.
  intros Hp Hr. inversion Hr as [H|err st' H|p th ex l st1 total t H Hw]; subst;
    rewrite Hp in H; inversion H; subst.
  exists total, t. auto.
Qed.

Lemma runR_Stop args st o err st0 :
  prepare args st = Some (Stop err st0) ->
  runR uint64_unrepresentable stat args st o -> o = Returned err st0.
Proof.
  intros Hp Hr. inversion Hr as [H|err' st' H|p th ex l st1 total t H Hw]; subst;
    rewrite Hp in H; inversion H; subst. reflexivity.
Qed.

(** [run] is one of the behaviours of [runR]. *)
Lemma run_runR args st : runR uint64_unrepresentable stat args st (run uint64_unrepresentable stat args st).
Proof.
  unfold run. destruct (prepare args st) as [[err st0|p th ex l st0]|] eqn:E.
  - apply runR_stop. exact E.
  - pose proof (walk_walkR th ex p l) as Hw.
    destruct (walkDirRecursive th ex p l) as [total t]. simpl in Hw.
    eapply runR_scan; eassumption.
  - apply runR_panic. exact E.
Qed.

End RunFacts.

(** *** Goroutines in the trace *)

Lemma sched_sublist items pool t :
  sched items pool t ->
  forall g, In (Spawn g) items \/ In g pool -> sublist g t.
Proof.
  induction 1 as [pool Hp | ev items pool t _ IH | g0 items pool t _ IH
                 | items pool1 ev g0 pool2 t _ IH]; intros g Hg.
  - destruct Hg as [[]|Hg]. rewrite List.Forall_forall in Hp.
    rewrite (Hp g Hg). constructor.
  - apply sublist_cons. apply IH.
    destruct Hg as [[Hg|Hg]|Hg]; [discriminate|auto|auto].
  - apply IH. destruct Hg as [[Hg|Hg]|Hg].
    + inversion Hg; subst. right. left. reflexivity.
    + auto.
    + right. right. exact Hg.
  - destruct Hg as [Hg|Hg].
    + apply sublist_cons. apply IH. auto.
    + apply in_app_or in Hg as [Hg|[Hg|Hg]].
      * apply sublist_cons. apply IH. right. apply in_or_app. auto.
      * subst g. apply sublist_skip. apply IH. right.
        apply in_or_app. right. left. reflexivity.
      * apply sublist_cons. apply IH. right. apply in_or_app. right. right. exact Hg.
Qed.

Lemma loopR_spawned threshold excludeSet path entries acc total items sizes :
  loopR threshold excludeSet path entries acc total items sizes ->
  forall name listing,
    In (Dir name listing) entries -> excluded excludeSet name = false ->
    exists subdirSize sub,
      walkR threshold excludeSet (Filepath.Join path name) listing subdirSize sub /\
      In (Spawn (sub ++ record_if threshold (Filepath.Join path name) subdirSize true)) items.
Proof.
  induction 1 as [path acc
                 |path e rest acc total items sizes He _ IH
                 |path name' listing' rest acc total items sizes subdirSize sub He Hw _ IH
                 |path name' msg rest acc total items sizes He _ IH
                 |path name' sz rest acc total items sizes He _ IH];
    intros name listing Hin E.
  - destruct Hin.
  - destruct Hin as [->|Hin]; [simpl in He; congruence|]. eapply IH; eassumption.
  - destruct Hin as [Heq|Hin].
    + inversion Heq; subst. exists subdirSize, sub. split; [exact Hw|]. left. reflexivity.
    + destruct (IH _ _ Hin E) as (s & t & H1 & H2). exists s, t. split; [exact H1|].
      right. exact H2.
  - destruct Hin as [Heq|Hin]; [discriminate|].
    destruct (IH _ _ Hin E) as (s & t & H1 & H2). exists s, t. split; [exact H1|].
    right. exact H2.
  - destruct Hin as [Heq|Hin]; [discriminate|].
    destruct (IH _ _ Hin E) as (s & t & H1 & H2). exists s, t. split; [exact H1|].
    apply in_or_app. right. exact H2.
Qed.

(** A visible directory has its own part of the trace: the events of a
    traversal of it followed by its own entry, in that order. *)
Lemma visible_postorder threshold excludeSet path entries p e :
  visible excludeSet path entries p e ->
  forall name listing total t,
    e = Dir name listing ->
    walkR threshold excludeSet path (Ok entries) total t ->
    exists sub,
      walkR threshold excludeSet p listing
            (fst (walkDirRecursive threshold excludeSet p listing)) sub /\
      sublist (sub ++ record_if threshold p
                        (fst (walkDirRecursive threshold excludeSet p listing)) true) t.
Proof.
  induction 1 as [path entries e He E|path entries name' sub' p e Hd E _ IH];
    intros name listing total t -> Hw.
  - inversion Hw as [|? ? ? items sizes chan ? Hl Hs Hp]; subst.
    destruct (loopR_spawned _ _ _ _ _ _ _ _ Hl name listing He E) as (s & sub & Hsub & Hin).
    pose proof (proj1 (walkR_sound _ _ _ _ _ _ Hsub)) as ->.
    exists sub. split; [exact Hsub|].
    eapply sched_sublist; [exact Hs|]. left. exact Hin.
  - inversion Hw as [|? ? ? items sizes chan ? Hl Hs Hp]; subst.
    destruct (loopR_spawned _ _ _ _ _ _ _ _ Hl name' (Ok sub') Hd E) as (s & tsub & Hsub & Hin).
    destruct (IH name listing s tsub eq_refl Hsub) as (sub & Hw' & Hsl).
    exists sub. split; [exact Hw'|].
    etransitivity; [exact Hsl|].
    etransitivity; [apply sublist_inserts_r; reflexivity|].
    eapply sched_sublist; [exact Hs|]. left. exact Hin.
Qed.

(** ** Failures during the traversal *)

Section Failures.

Variable threshold : Z.
Variable excludeSet : gset string.

#[local] Abbreviation walk := (walkDirRecursive threshold excludeSet).
#[local] Abbreviation skip := (excluded excludeSet).
#[local] Abbreviation own := (own_events threshold excludeSet).
#[local] Abbreviation part := (contribution threshold excludeSet).

#[local] Abbreviation healed_alike :=
  (fun e => match e with
            | Dir _ listing =>
                forall p, fst (walk p listing) = fst (walk p (heal listing)) /\
                          recorded (snd (walk p listing)) = recorded (snd (walk p (heal listing)))
            | File _ _ => True
            end).

Lemma heal_entry_Dir name listing :
  heal_entry (Dir name listing) = [Dir name (heal listing)].
Proof. destruct listing; reflexivity. Qed.

Lemma heal_contribution path e :
  healed_alike e -> Zsum (map (part path) (heal_entry e)) = part path e.
Proof.
  intros H. destruct e as [name [sz|msg]|name listing].
  - cbn [heal_entry map Zsum fold_right]. lia.
  - cbn [heal_entry map Zsum fold_right]. unfold contribution.
    destruct (skip (Name (File name (Err msg)))); reflexivity.
  - rewrite heal_entry_Dir. cbn [map Zsum fold_right]. unfold contribution.
    cbn [Name]. destruct (skip name); [reflexivity|].
    destruct (H (Filepath.Join path name)) as [-> _]. lia.
Qed.

Lemma heal_own path e :
  healed_alike e ->
  recorded (concat (map (fun c => if skip (Name c) then [] else own path c) (heal_entry e)))
  = recorded (if skip (Name e) then [] else own path e).
Proof.
  intros H. destruct e as [name [sz|msg]|name listing].
  - cbn [heal_entry map concat]. rewrite app_nil_r. reflexivity.
  - cbn [heal_entry map concat]. destruct (skip (Name (File name (Err msg)))); reflexivity.
  - rewrite heal_entry_Dir. cbn [map concat Name]. rewrite app_nil_r.
    destruct (skip name); [reflexivity|].
    unfold own_events. cbn [Name].
    destruct (H (Filepath.Join path name)) as [Hf Hr].
    rewrite !recorded_app, <- Hr, <- Hf. reflexivity.
Qed.

Lemma heal_entries entries :
  Forall healed_alike entries ->
  forall path,
    fst (walk path (Ok entries)) = fst (walk path (heal (Ok entries))) /\
    recorded (snd (walk path (Ok entries))) = recorded (snd (walk path (heal (Ok entries)))).
Proof.
  intros H path. unfold heal. rewrite !walk_total_sum, !walk_trace.
  induction H as [|e entries He _ [IH1 IH2]]; [split; reflexivity|].
  rewrite !map_cons, !concat_cons, !map_app, !concat_app, !recorded_app.
  rewrite heal_own by exact He. rewrite IH2. split; [|reflexivity].
  rewrite Zsum_app, heal_contribution by exact He.
  change (Zsum (part path e :: map (part path) entries))
    with (part path e + Zsum (map (part path) entries)).
  rewrite Zplus_mod, IH1, <- Zplus_mod. reflexivity.
Qed.

(** The traversal of a tree with failing nodes returns what the traversal
    of the healed tree returns and records what it records. *)
Lemma heal_walk path listing :
  fst (walk path listing) = fst (walk path (heal listing)) /\
  recorded (snd (walk path listing)) = recorded (snd (walk path (heal listing))).
Proof.
  assert (He : forall e, healed_alike e).
  { induction e as [name info|name msg|name entries IH] using entry_nested_ind.
    - exact I.
    - intros p. split; reflexivity.
    - intros p. apply heal_entries, IH. }
  destruct listing as [entries|msg].
  - apply heal_entries. apply List.Forall_forall. intros e _. apply He.
  - split; reflexivity.
Qed.

End Failures.

(** ** The threshold *)

(** For a visible node the comparison with the threshold decides, on every
    schedule. *)
Lemma visible_recorded_iff threshold excludeSet path entries total t p e sz :
  walkR threshold excludeSet path (Ok entries) total t ->
  visible excludeSet path entries p e ->
  computed_size threshold excludeSet p e = Some sz ->
  (In (mkFileInfo p sz (EntryIsDir e)) (recorded t) <-> threshold <= sz).
Proof.
  intros Hw Hv Hs. pose proof (walkR_sound _ _ _ _ _ _ Hw) as [_ Hp].
  rewrite recorded_In. split.
  - intros Hin. apply (Permutation_in _ Hp) in Hin.
    apply recorded_above in Hin. exact Hin.
  - intros Hle. apply (Permutation_in _ (Permutation_sym Hp)).
    destruct (visible_own threshold excludeSet _ _ _ _ Hv) as (parent & -> & Hown).
    apply Hown. unfold own_events.
    destruct e as [name [s|msg]|name listing]; simpl in Hs; inversion Hs; subst.
    + apply note_In. auto.
    + apply in_or_app. right. apply note_In. auto.
Qed.

(** C6. On every schedule, a visible node with a computed size has its
    entry (its path, that size, its kind) in the collection exactly when the
    size is at or above the threshold.  The entry of a directory carries the
    total of a whole traversal of it and comes after everything that
    traversal did.  [run] adds the entry of the top-level directory after the
    traversal, by the same comparison: it returns with a collection that
    holds what it held before, what the traversal recorded, and the entry of
    the top-level directory when the total is at or above the threshold, and
    nothing more when it is below. *)
Theorem threshold_rule (threshold : Z) (excludeSet : gset string)
    (path : string) (entries : list entry) (total : Z) (t : list event) :
  walkR threshold excludeSet path (Ok entries) total t ->
  (forall p e sz,
     visible excludeSet path entries p e ->
     computed_size threshold excludeSet p e = Some sz ->
     (In (mkFileInfo p sz (EntryIsDir e)) (recorded t) <-> threshold <= sz)) /\
  (forall p name listing,
     visible excludeSet path entries p (Dir name listing) ->
     exists sub,
       walkR threshold excludeSet p listing
             (fst (walkDirRecursive threshold excludeSet p listing)) sub /\
       sublist (sub ++ record_if threshold p
                         (fst (walkDirRecursive threshold excludeSet p listing)) true) t) /\
  (forall st st',
     run_report path threshold (total, t) st = Returned None st' ->
     Permutation (results st')
                 (results st ++ recorded t ++ root_entry path threshold total) /\
     (threshold <= total -> In (mkFileInfo path total true) (results st')) /\
     (total < threshold -> Permutation (results st') (results st ++ recorded t))) /\
  (forall st,
     Forall is_uint64 (results st) ->
     exists st',
       run_report path threshold (total, t) st = Returned None st' /\
       (threshold <= total ->
        Permutation (results st')
                    (results st ++ recorded t ++ [mkFileInfo path total true])) /\
       (total < threshold -> Permutation (results st') (results st ++ recorded t))) /\
  (forall uint64_unrepresentable stat args st st0,
     run_prepare uint64_unrepresentable stat args st
     = Some (Scan path threshold excludeSet (Ok entries) st0) ->
     Forall is_uint64 (results st) ->
     exists st',
       runR uint64_unrepresentable stat args st (Returned None st') /\
       (threshold <= total ->
        Permutation (results st')
                    (results st ++ recorded t ++ [mkFileInfo path total true])) /\
       (total < threshold -> Permutation (results st') (results st ++ recorded t))).
Proof.
  intros Hw.
  assert (Hroot : forall st,
             Forall is_uint64 (results st) ->
             exists st',
               run_report path threshold (total, t) st = Returned None st' /\
               (threshold <= total ->
                Permutation (results st')
                            (results st ++ recorded t ++ [mkFileInfo path total true])) /\
               (total < threshold -> Permutation (results st') (results st ++ recorded t))).
  { intros st Hst. destruct (walkR_range _ _ _ _ _ _ Hw) as [Hr1 Hr2].
    destruct (run_report_spec path threshold total t st Hr1 Hr2 Hst) as (lines & _ & Hrep).
    eexists. split; [exact Hrep|]. cbn [results]. unfold root_entry. split.
    - intros Hle. apply Z.leb_le in Hle. rewrite Hle. apply sort_Slice_perm.
    - intros Hlt. apply Z.leb_gt in Hlt. rewrite Hlt, app_nil_r. apply sort_Slice_perm. }
  split; [|split; [|split; [|split]]].
  - intros p e sz Hv Hs. eapply visible_recorded_iff; eassumption.
  - intros p name listing Hv.
    eapply visible_postorder; [exact Hv|reflexivity|exact Hw].
  - intros st st' Hr. unfold run_report in Hr.
    rewrite apply_events_results in Hr.
    destruct (mapM display _) as [lines|] eqn:El; [|discriminate].
    inversion Hr; subst st'. clear Hr. cbn [results].
    assert (Hc : (if threshold <=? total
                  then addResult path total true (results st ++ recorded t)
                  else results st ++ recorded t)
                 = results st ++ recorded t ++ root_entry path threshold total).
    { unfold root_entry, addResult. destruct (threshold <=? total).
      - rewrite <- app_assoc. reflexivity.
      - rewrite app_nil_r. reflexivity. }
    rewrite Hc. split; [apply sort_Slice_perm|]. split.
    + intros Hle. apply (Permutation_in _ (Permutation_sym (sort_Slice_perm _))).
      apply in_or_app. right. apply in_or_app. right.
      unfold root_entry. apply Z.leb_le in Hle. rewrite Hle. left. reflexivity.
    + intros Hlt. rewrite sort_Slice_perm. unfold root_entry.
      apply Z.leb_gt in Hlt. rewrite Hlt, app_nil_r. reflexivity.
  - exact Hroot.
  - intros conv stat args st st0 Hp Hst.
    destruct (run_prepare_Scan _ _ _ _ _ _ _ _ _ Hp) as (_ & _ & Hres & _ & _).
    rewrite <- Hres in Hst.
    destruct (Hroot st0 Hst) as (st' & Hrep & H1 & H2).
    exists st'. rewrite <- Hres. split; [|split; assumption].
    rewrite <- Hrep. eapply runR_scan; eassumption.
Qed.

Lemma threshold_rule_witness :
  exists st',
    runR Fixture.conv Fixture.stat ["spacehogs"; "/tmp/t"; "5"] Fixture.fresh
         (Returned None st') /\
    Permutation
      (results st')
      (results Fixture.fresh
       ++ recorded (snd (walkDirRecursive 5 (build_excludeSet "proc,dev,sys") "/tmp/t"
                           (Ok [File "file1.txt" (Ok 5);
                                Dir "subdir" (Ok [File "file2.txt" (Ok 2048)])])))
       ++ [mkFileInfo "/tmp/t"
             (fst (walkDirRecursive 5 (build_excludeSet "proc,dev,sys") "/tmp/t"
                     (Ok [File "file1.txt" (Ok 5);
                          Dir "subdir" (Ok [File "file2.txt" (Ok 2048)])])))
             true]).
Proof.
  pose proof (walk_walkR 5 (build_excludeSet "proc,dev,sys") "/tmp/t"
                (Ok [File "file1.txt" (Ok 5);
                     Dir "subdir" (Ok [File "file2.txt" (Ok 2048)])])) as Hw.
  assert (Hp : run_prepare Fixture.conv Fixture.stat ["spacehogs"; "/tmp/t"; "5"]
                 Fixture.fresh
               = Some (Scan "/tmp/t" 5 (build_excludeSet "proc,dev,sys")
                         (Ok [File "file1.txt" (Ok 5);
                              Dir "subdir" (Ok [File "file2.txt" (Ok 2048)])])
                         (mkProcess []
                            ["Scanning directory: /tmp/t"; "Minimum size threshold: 5 B";
                             "Excluding: proc,dev,sys"; ""; "TYPE   SIZE        NAME";
                             "--------------------------------"] []))).
  { vm_compute. reflexivity. }
  assert (Hst : Forall is_uint64 (results Fixture.fresh)) by constructor.
  assert (Hle : 5 <= fst (walkDirRecursive 5 (build_excludeSet "proc,dev,sys") "/tmp/t"
                            (Ok [File "file1.txt" (Ok 5);
                                 Dir "subdir" (Ok [File "file2.txt" (Ok 2048)])])))
    by (vm_compute; discriminate).
  destruct (proj2 (proj2 (proj2 (proj2 (threshold_rule _ _ _ _ _ _ Hw))))
              Fixture.conv Fixture.stat _ _ _ Hp Hst) as (st' & Hr & H1 & _).
  exists st'. split; [exact Hr|exact (H1 Hle)].
Defined.

(** ** Failures *)

(** C7, the claim as stated fails: with a threshold of zero the directory
    whose listing fails gets an entry, of size 0. *)
Lemma unreadable_directory_recorded :
  walkDirRecursive 0 ∅ "/r" (Ok [Dir "d" (Err "permission denied")]) =
  (0, [Diagnostic "Error reading directory /r/d: permission denied";
       Recorded (mkFileInfo "/r/d" 0 true)]).
Proof. vm_compute. reflexivity. Qed.

(** C7, amended. A failure is local.  On every schedule the total and the
    recorded entries are those of the tree in which the file whose [Info]
    fails is absent and the directory that cannot be read is empty; each
    visible failing node leaves its line on the error stream and adds
    nothing to the total of its parent; no entry is recorded for the failing
    file, and the unreadable directory has its entry, of size 0, exactly
    when the threshold is zero; [run] goes on to print the report and returns
    no error. *)
Theorem failures_are_local (threshold : Z) (excludeSet : gset string)
    (path : string) (listing : result (list entry)) (total : Z) (t : list event) :
  walkR threshold excludeSet path listing total t ->
  0 <= threshold ->
  (total = fst (walkDirRecursive threshold excludeSet path (heal listing)) /\
   Permutation (recorded t)
               (recorded (snd (walkDirRecursive threshold excludeSet path (heal listing))))) /\
  (forall msg, listing = Err msg -> total = 0 /\ t = [read_error path msg]) /\
  (forall entries p name msg,
     listing = Ok entries ->
     visible excludeSet path entries p (File name (Err msg)) ->
     In (info_error p msg) t /\
     (forall parent,
        contribution threshold excludeSet parent (File name (Err msg)) = 0 /\
        recorded (own_events threshold excludeSet parent (File name (Err msg))) = [])) /\
  (forall entries p name msg,
     listing = Ok entries ->
     visible excludeSet path entries p (Dir name (Err msg)) ->
     In (read_error p msg) t /\
     (In (mkFileInfo p 0 true) (recorded t) <-> threshold = 0) /\
     (forall parent,
        contribution threshold excludeSet parent (Dir name (Err msg)) = 0)) /\
  (forall st,
     Forall is_uint64 (results st) ->
     exists lines,
       run_report path threshold (total, t) st =
       Returned None
         (mkProcess (sort_Slice (results st ++ recorded t ++ root_entry path threshold total))
                    (stdout st ++ lines) (stderr st ++ diagnostics t))).
Proof.
  intros Hw Hth.
  pose proof (walkR_sound _ _ _ _ _ _ Hw) as [Ht Hp].
  split; [|split; [|split; [|split]]].
  - destruct (heal_walk threshold excludeSet path listing) as [Hf Hr]. split.
    + rewrite Ht. exact Hf.
    + rewrite <- Hr. apply recorded_perm, Hp.
  - intros msg ->. inversion Hw; subst. auto.
  - intros entries p name msg -> Hv. split.
    + apply (Permutation_in _ (Permutation_sym Hp)).
      destruct (visible_own threshold excludeSet _ _ _ _ Hv) as (parent & -> & Hown).
      apply Hown. left. reflexivity.
    + intros parent. unfold contribution, own_events. cbn [Name].
      split; [destruct (excluded excludeSet name)|]; reflexivity.
  - intros entries p name msg -> Hv. split; [|split].
    + apply (Permutation_in _ (Permutation_sym Hp)).
      destruct (visible_own threshold excludeSet _ _ _ _ Hv) as (parent & -> & Hown).
      apply Hown. left. reflexivity.
    + destruct (visible_recorded_iff threshold excludeSet path entries total t
                  p (Dir name (Err msg)) 0 Hw Hv eq_refl) as [H1 H2].
      cbn [EntryIsDir] in *. split; intros H; [apply H1 in H; lia|apply H2; lia].
    + intros parent. unfold contribution. cbn [Name].
      destruct (excluded excludeSet name); reflexivity.
  - intros st Hst. destruct (walkR_range _ _ _ _ _ _ Hw) as [Hr1 Hr2].
    destruct (run_report_spec path threshold total t st Hr1 Hr2 Hst) as (lines & _ & Hrep).
    exists lines. exact Hrep.
Qed.

Lemma failures_are_local_witness :
  fst (walkDirRecursive 1 ∅ "/r"
         (Ok [File "a" (Ok 7); File "b" (Err "stale handle"); Dir "d" (Err "permission denied")]))
  = fst (walkDirRecursive 1 ∅ "/r"
           (heal (Ok [File "a" (Ok 7); File "b" (Err "stale handle");
                      Dir "d" (Err "permission denied")]))).
Proof.
  pose proof (walk_walkR 1 ∅ "/r"
                (Ok [File "a" (Ok 7); File "b" (Err "stale handle");
                     Dir "d" (Err "permission denied")])) as Hw.
  assert (Hth : 0 <= 1) by lia.
  exact (proj1 (proj1 (failures_are_local _ _ _ _ _ _ Hw Hth))).
Defined.

(** ** Two runs in one process *)

(** C3, the claim as stated fails: the second [run] in a process starts with
    the entries of the first and ends with them twice. *)
Lemma rerun_accumulates :
  let stat := fun p : string =>
    if String.eqb p "/d" then Ok (Dir "d" (Ok [File "f" (Ok 2048)]))
    else Err "no such file or directory" in
  let first := mkProcess [mkFileInfo "/d" 2048 true; mkFileInfo "/d/f" 2048 false] [] [] in
  (exists out, run (fun _ => 0) stat ["spacehogs"; "/d"; "1K"] (mkProcess [] [] [])
               = Returned None (mkProcess (results first) out [])) /\
  (exists out, run (fun _ => 0) stat ["spacehogs"; "/d"; "1K"] first
               = Returned None
                   (mkProcess [mkFileInfo "/d" 2048 true; mkFileInfo "/d" 2048 true;
                               mkFileInfo "/d/f" 2048 false; mkFileInfo "/d/f" 2048 false]
                              out [])) /\
  ~ Permutation (results first)
      [mkFileInfo "/d" 2048 true; mkFileInfo "/d" 2048 true;
       mkFileInfo "/d/f" 2048 false; mkFileInfo "/d/f" 2048 false].
Proof.
  cbv zeta. split; [|split].
  - eexists. vm_compute. reflexivity.
  - eexists. vm_compute. reflexivity.
  - intros H. apply Permutation_length in H. discriminate.
Qed.

(** C3, amended. Two invocations over the same tree, threshold and
    exclusion set return the same total and append the same multiset of
    entries, on any two schedules.  An invocation appends to what the
    collection holds and removes nothing, so after the second one the
    collection holds the earlier entries and both appended multisets: it is
    the same multiset as after the first exactly when the second invocation
    adds no entry.  When the collection is emptied before each invocation, as
    [resetResults] does, the two collections are the same multiset. *)
Theorem aggregator_rerun (threshold : Z) (excludeSet : gset string)
    (path : string) (listing : result (list entry))
    (total1 total2 : Z) (t1 t2 : list event) (st : process) :
  walkR threshold excludeSet path listing total1 t1 ->
  walkR threshold excludeSet path listing total2 t2 ->
  total1 = total2 /\
  Permutation (recorded t1) (recorded t2) /\
  results (fold_left apply_event t1 st) = results st ++ recorded t1 /\
  results (fold_left apply_event t2 (fold_left apply_event t1 st))
  = (results st ++ recorded t1) ++ recorded t2 /\
  (results st = [] ->
   Permutation (results (fold_left apply_event t1 st))
               (results (fold_left apply_event t2 st))) /\
  (forall st1 st2,
     run_report path threshold (total1, t1) st = Returned None st1 ->
     run_report path threshold (total2, t2) st1 = Returned None st2 ->
     Permutation (results st2)
                 ((results st ++ recorded t1 ++ root_entry path threshold total1)
                  ++ recorded t2 ++ root_entry path threshold total2)) /\
  (Permutation (results (fold_left apply_event t1 st))
               (results (fold_left apply_event t2 (fold_left apply_event t1 st)))
   <-> recorded t2 = []) /\
  (Forall is_uint64 (results st) ->
   exists st1 st2 st2',
     run_report path threshold (total1, t1) st = Returned None st1 /\
     run_report path threshold (total2, t2) st1 = Returned None st2 /\
     run_report path threshold (total2, t2) (resetResults st1) = Returned None st2' /\
     Permutation (results st1)
                 (results st ++ recorded t1 ++ root_entry path threshold total1) /\
     Permutation (results st2)
                 (results st1 ++ recorded t2 ++ root_entry path threshold total2) /\
     (Permutation (results st1) (results st2)
      <-> recorded t2 ++ root_entry path threshold total2 = []) /\
     Permutation (results st2') (recorded t2 ++ root_entry path threshold total2) /\
     (results st = [] -> Permutation (results st1) (results st2'))).
Proof.
  intros H1 H2.
  pose proof (walkR_sound _ _ _ _ _ _ H1) as [Ht1 Hp1].
  pose proof (walkR_sound _ _ _ _ _ _ H2) as [Ht2 Hp2].
  assert (Hrec : Permutation (recorded t1) (recorded t2)).
  { apply recorded_perm. rewrite Hp1, Hp2. reflexivity. }
  assert (Hgrow : forall (l r : list FileInfo), Permutation l (l ++ r) <-> r = []).
  { intros l r. split.
    - intros Hp. apply Permutation_length in Hp. rewrite length_app in Hp.
      destruct r; [reflexivity|]. simpl in Hp. lia.
    - intros ->. rewrite app_nil_r. reflexivity. }
  split; [congruence|]. split; [exact Hrec|].
  rewrite !apply_events_results.
  split; [reflexivity|]. split; [reflexivity|]. split; [|split; [|split]].
  - intros ->. simpl. exact Hrec.
  - intros st1 st2 Hr1 Hr2. unfold run_report in Hr1, Hr2.
    rewrite apply_events_results in Hr1, Hr2.
    destruct (mapM display _) as [lines1|] in Hr1; [|discriminate].
    destruct (mapM display _) as [lines2|] in Hr2; [|discriminate].
    inversion Hr1; subst st1. inversion Hr2; subst st2. clear Hr1 Hr2.
    cbn [results]. rewrite sort_Slice_perm.
    assert (Hc : forall total rs,
               (if threshold <=? total then addResult path total true rs else rs)
               = rs ++ root_entry path threshold total).
    { intros total rs. unfold root_entry, addResult.
      destruct (threshold <=? total); [reflexivity|]. rewrite app_nil_r. reflexivity. }
    rewrite !Hc. rewrite sort_Slice_perm.
    rewrite <- !app_assoc. reflexivity.
  - apply Hgrow.
  - intros Hst.
    destruct (walkR_range _ _ _ _ _ _ H1) as [Hr1 Hrec1].
    destruct (walkR_range _ _ _ _ _ _ H2) as [Hr2 Hrec2].
    destruct (run_report_spec path threshold total1 t1 st Hr1 Hrec1 Hst)
      as (lines1 & _ & Hrep1).
    remember (mkProcess
                (sort_Slice (results st ++ recorded t1 ++ root_entry path threshold total1))
                (stdout st ++ lines1) (stderr st ++ diagnostics t1)) as st1 eqn:Est1.
    assert (Hres1 : Permutation (results st1)
                      (results st ++ recorded t1 ++ root_entry path threshold total1)).
    { subst st1. cbn [results]. apply sort_Slice_perm. }
    assert (Hst1 : Forall is_uint64 (results st1)).
    { eapply Forall_perm; [symmetry; exact Hres1|].
      apply Forall_app. split; [exact Hst|]. apply Forall_app. split; [exact Hrec1|].
      unfold root_entry. destruct (threshold <=? total1); constructor; [exact Hr1|constructor]. }
    destruct (run_report_spec path threshold total2 t2 st1 Hr2 Hrec2 Hst1)
      as (lines2 & _ & Hrep2).
    assert (Hst0 : Forall is_uint64 (results (resetResults st1))) by constructor.
    destruct (run_report_spec path threshold total2 t2 (resetResults st1) Hr2 Hrec2 Hst0)
      as (lines3 & _ & Hrep3).
    eexists st1, _, _.
    split; [exact Hrep1|]. split; [exact Hrep2|]. split; [exact Hrep3|].
    cbn [results resetResults].
    split; [exact Hres1|]. split; [apply sort_Slice_perm|]. split; [|split].
    + rewrite sort_Slice_perm. apply Hgrow.
    + rewrite sort_Slice_perm. reflexivity.
    + intros Hnil. rewrite Hres1, sort_Slice_perm, Hnil. cbn [app].
      rewrite Hrec. replace total2 with total1 by congruence. reflexivity.
Qed.

Lemma aggregator_rerun_witness :
  Permutation
    (recorded (snd (walkDirRecursive 0 ∅ "/r" Fixture.two_directories)))
    (recorded [Recorded (mkFileInfo "/r/b/y" 2 false); Recorded (mkFileInfo "/r/a/x" 1 false);
               Recorded (mkFileInfo "/r/b" 2 true); Recorded (mkFileInfo "/r/a" 1 true)]).
Proof.
  pose proof (walk_walkR 0 ∅ "/r" Fixture.two_directories) as Hw.
  pose proof (proj2 walkR_other_schedule) as Hw'.
  exact (proj1 (proj2 (aggregator_rerun _ _ _ _ _ _ _ _ (mkProcess [] [] []) Hw Hw'))).
Defined.

(** ** A size argument that does not parse *)

(** C4, the claim as stated fails: the exclusion of the top-level name is
    looked at before the size, so an invocation with an excluded directory and
    a size that does not parse ends with status 0 and nothing on the error
    stream. *)
Lemma bad_size_excluded_root :
  SizeParser.parseSize (fun _ => 0) "abc" = Err "invalid size format: abc" /\
  main (fun _ => 0) (fun _ => Err "no such file or directory")
       ["spacehogs"; "proc"; "abc"] (mkProcess [] [] [])
  = (0, mkProcess []
          ["Top-level directory 'proc' is in the exclude list. Nothing to do."] []).
Proof. split; vm_compute; reflexivity. Qed.

(** C4, amended. When the size argument does not parse and the bare name of
    the top-level directory is not excluded, [run] returns the error and the
    process ends with status 1 and the message on the error stream; nothing
    has been traversed: the collection and the standard output are as they
    were, whatever is on disk and on every schedule.  When the bare name is
    excluded, the informational line is printed and the process ends with
    status 0, the size not having been looked at. *)
Theorem bad_size_argument (uint64_unrepresentable : spec_float -> Z)
    (stat : string -> result entry) (arg0 : string) (args : list string)
    (excludeDirs arg_dir minSizeStr msg : string) (st : process) :
  Flag.Parse "proc,dev,sys" args = Flag.Parsed excludeDirs [arg_dir; minSizeStr] ->
  SizeParser.parseSize uint64_unrepresentable minSizeStr = Err msg ->
  (excluded (build_excludeSet excludeDirs) (Filepath.Base (Filepath.Clean arg_dir)) = false ->
   (forall o, runR uint64_unrepresentable stat (arg0 :: args) st o ->
              o = Returned (Some ("error: " +:+ msg)) st) /\
   main uint64_unrepresentable stat (arg0 :: args) st
   = (1, mkProcess (results st) (stdout st) (stderr st ++ ["error: " +:+ msg]))) /\
  (excluded (build_excludeSet excludeDirs) (Filepath.Base (Filepath.Clean arg_dir)) = true ->
   (forall o, runR uint64_unrepresentable stat (arg0 :: args) st o ->
              o = Returned None
                    (print ("Top-level directory '" +:+ Filepath.Clean arg_dir
                            +:+ "' is in the exclude list. Nothing to do.") st)) /\
   fst (main uint64_unrepresentable stat (arg0 :: args) st) = 0).
Proof.
  intros Hargs Hsize.
  pose proof (run_prepare_two uint64_unrepresentable stat arg0 args
                excludeDirs arg_dir minSizeStr st Hargs) as Hp.
  split; intros E; rewrite E, ?Hsize in Hp.
  - split.
    + intros o Hr. eapply runR_Stop; eassumption.
    + unfold main, run. rewrite Hp. reflexivity.
  - split.
    + intros o Hr. eapply runR_Stop; eassumption.
    + unfold main, run. rewrite Hp. reflexivity.
Qed.

Lemma bad_size_argument_witness :
  main (fun _ => 0) (fun _ => Err "no such file or directory")
       ["spacehogs"; "/tmp/x"; "abc"] (mkProcess [] [] [])
  = (1, mkProcess [] [] ["error: invalid size format: abc"]).
Proof.
  assert (H1 : Flag.Parse "proc,dev,sys" ["/tmp/x"; "abc"]
               = Flag.Parsed "proc,dev,sys" ["/tmp/x"; "abc"]) by reflexivity.
  assert (H2 : SizeParser.parseSize (fun _ => 0) "abc" = Err "invalid size format: abc")
    by (vm_compute; reflexivity).
  assert (H3 : excluded (build_excludeSet "proc,dev,sys")
                 (Filepath.Base (Filepath.Clean "/tmp/x")) = false)
    by (vm_compute; reflexivity).
  exact (proj2 (proj1 (bad_size_argument (fun _ => 0) (fun _ => Err "no such file or directory")
                         "spacehogs" ["/tmp/x"; "abc"] "proc,dev,sys" "/tmp/x" "abc"
                         "invalid size format: abc" (mkProcess [] [] []) H1 H2) H3)).
Defined.

(** ** The listing *)

Lemma StronglySorted_lookup {A} (R : A -> A -> Prop) (l : list A) :
  StronglySorted R l ->
  forall (i j : nat) a b, l !! i = Some a -> l !! j = Some b -> (i < j)%nat -> R a b.
Proof.
  induction 1 as [|x l _ IH Hx]; intros i j a b Hi Hj Hlt.
  - discriminate.
  - destruct j as [|j]; [lia|]. destruct i as [|i]; simpl in Hi, Hj.
    + inversion Hi; subst. rewrite List.Forall_forall in Hx. apply Hx.
      apply list_elem_of_In. eapply list_elem_of_lookup_2. exact Hj.
    + apply (IH i j); auto. lia.
Qed.

(** C8. When [run] gets to the traversal it returns with the collection
    sorted and prints it in that order, one line per entry.  The collection
    it returns with holds what it held before, what the traversal recorded
    and the entry of the top-level directory when that meets the threshold,
    each as often as it was added, and the lines printed after the header
    are the lines of these entries in their order.  Of two entries the
    earlier one precedes the later one, where a directory precedes a file,
    within a kind the larger size precedes the smaller, and within a kind and
    a size the smaller path precedes the larger.  That relation is a total
    order, [less] is its strict part, and the slice ordered by [less] is
    unique, so the result does not depend on how [sort.Slice] sorts. *)
Theorem listing_sorted (uint64_unrepresentable : spec_float -> Z)
    (stat : string -> result entry) (args : list string) (st : process) (o : outcome)
    (scanPath : string) (threshold : Z) (excludeSet : gset string)
    (listing : result (list entry)) (st0 : process) :
  run_prepare uint64_unrepresentable stat args st
  = Some (Scan scanPath threshold excludeSet listing st0) ->
  Forall is_uint64 (results st) ->
  runR uint64_unrepresentable stat args st o ->
  (exists st' lines,
     o = Returned None st' /\
     mapM display (results st') = Some lines /\
     stdout st' = stdout st0 ++ lines /\
     (forall (i j : nat) a b,
        results st' !! i = Some a -> results st' !! j = Some b -> (i < j)%nat ->
        precedes a b) /\
     (forall (i j : nat) a b,
        results st' !! i = Some a -> results st' !! j = Some b -> (i < j)%nat ->
        (IsDir a = false -> IsDir b = false) /\
        (IsDir a = IsDir b -> Size b <= Size a) /\
        (IsDir a = IsDir b -> Size a = Size b -> String.leb (Path a) (Path b) = true)) /\
     (exists total t,
        walkR threshold excludeSet scanPath listing total t /\
        Permutation (results st')
                    (results st ++ recorded t ++ root_entry scanPath threshold total) /\
        results st'
        = sort_Slice (results st ++ recorded t ++ root_entry scanPath threshold total)) /\
     length lines = length (results st') /\
     (forall (i : nat) a, results st' !! i = Some a -> lines !! i = display a)) /\
  (forall a, precedes a a) /\
  (forall a b c, precedes a b -> precedes b c -> precedes a c) /\
  (forall a b, precedes a b -> precedes b a -> a = b) /\
  (forall a b, precedes a b \/ precedes b a) /\
  (forall a b, less a b = true <-> precedes a b /\ a <> b) /\
  (forall l l',
     Permutation l l' -> StronglySorted (fun a b => less b a = false) l' ->
     l' = sort_Slice l).
Proof.
  intros Hp Hst Hr.
  split;
    [|split; [apply precedes_refl|];
      split; [apply precedes_trans|];
      split; [apply precedes_antisym|];
      split; [apply precedes_total|];
      split; [|apply sort_Slice_unique]].
  2: { intros a b. split; [apply less_precedes|].
       intros [H1 H2]. destruct (less a b) eqn:El; [reflexivity|].
       apply not_less_precedes in El. exfalso. apply H2.
       apply precedes_antisym; assumption. }
  destruct (run_prepare_Scan _ _ _ _ _ _ _ _ _ Hp) as (_ & _ & Hres & _ & _).
  destruct (runR_Scan _ _ _ _ _ _ _ _ _ _ Hp Hr) as (total & t & Hw & ->).
  destruct (walkR_range _ _ _ _ _ _ Hw) as [Hr1 Hr2].
  rewrite <- Hres in Hst.
  destruct (run_report_spec scanPath threshold total t st0 Hr1 Hr2 Hst) as (lines & Hl & ->).
  eexists _, lines. split; [reflexivity|]. cbn [results stdout].
  split; [exact Hl|]. split; [reflexivity|].
  assert (Hs : forall (i j : nat) a b,
             sort_Slice (results st0 ++ recorded t ++ root_entry scanPath threshold total) !! i
             = Some a ->
             sort_Slice (results st0 ++ recorded t ++ root_entry scanPath threshold total) !! j
             = Some b ->
             (i < j)%nat -> precedes a b).
  { apply StronglySorted_lookup, sort_Slice_sorted. }
  split; [exact Hs|]. split.
  { intros i j a b Hi Hj Hlt. specialize (Hs i j a b Hi Hj Hlt).
    unfold precedes in Hs.
    destruct Hs as [[H1 H2]|[[H1 H2]|(H1 & H2 & H3)]];
      repeat split; intros; try congruence; try lia. }
  split.
  { exists total, t. rewrite <- Hres.
    split; [exact Hw|]. split; [apply sort_Slice_perm|reflexivity]. }
  split.
  - symmetry. eapply length_mapM. exact Hl.
  - intros i a Hi. symmetry.
    pose proof (mapM_Some_1 _ _ _ Hl) as Hall.
    destruct (Forall2_lookup_l _ _ _ _ _ Hall Hi) as (line & Hline & Hd).
    rewrite Hline. exact Hd.
Qed.

Lemma listing_sorted_witness :
  exists st' lines,
    run (fun _ => 0)
        (fun p : string =>
           if String.eqb p "/d" then Ok (Dir "d" (Ok [File "f" (Ok 2048)]))
           else Err "no such file or directory")
        ["spacehogs"; "/d"; "1K"] (mkProcess [] [] [])
    = Returned None st' /\
    mapM display (results st') = Some lines /\
    length lines = length (results st').
Proof.
  assert (Hp : run_prepare (fun _ => 0)
                 (fun p : string =>
                    if String.eqb p "/d" then Ok (Dir "d" (Ok [File "f" (Ok 2048)]))
                    else Err "no such file or directory")
                 ["spacehogs"; "/d"; "1K"] (mkProcess [] [] [])
               = Some (Scan "/d" 1024 (build_excludeSet "proc,dev,sys")
                         (Ok [File "f" (Ok 2048)])
                         (mkProcess []
                            ["Scanning directory: /d"; "Minimum size threshold: 1.00 KiB";
                             "Excluding: proc,dev,sys"; ""; "TYPE   SIZE        NAME";
                             "--------------------------------"] []))).
  { vm_compute. reflexivity. }
  assert (Hst : Forall is_uint64 (results (mkProcess [] [] []))) by constructor.
  destruct (proj1 (listing_sorted _ _ _ _ _ _ _ _ _ _ Hp Hst (run_runR _ _ _ _)))
    as (st' & lines & Ho & Hl & _ & _ & _ & _ & Hlen & _).
  exists st', lines. split; [exact Ho|]. split; [exact Hl|exact Hlen].
Defined.

(** * Further properties *)

(** ** Sizes roll up from the files *)

Lemma Zsum_concat_mod {A} (f : A -> Z) (h : A -> list Z) (l : list A) :
  Forall (fun x => f x mod 2 ^ 64 = Zsum (h x) mod 2 ^ 64) l ->
  Zsum (map f l) mod 2 ^ 64 = Zsum (concat (map h l)) mod 2 ^ 64.
Proof.
  induction 1 as [|x l Hx _ IH]; [reflexivity|].
  rewrite !map_cons, concat_cons, Zsum_app.
  change (Zsum (f x :: map f l)) with (f x + Zsum (map f l)).
  rewrite Zplus_mod, Hx, IH, <- Zplus_mod. reflexivity.
Qed.

Section RollUp.

Variable threshold : Z.
Variable excludeSet : gset string.

#[local] Abbreviation walk := (walkDirRecursive threshold excludeSet).

Lemma files_of_excluded e : excluded excludeSet (Name e) = true -> files_of excludeSet e = [].
Proof. destruct e as [name [sz|msg]|name [sub|msg]]; simpl; intros ->; reflexivity. Qed.

Lemma files_of_visible e :
  excluded excludeSet (Name e) = false -> files_of excludeSet e = node_files excludeSet e.
Proof. destruct e as [name [sz|msg]|name [sub|msg]]; simpl; intros ->; reflexivity. Qed.

Lemma walk_rollup_entries entries :
  Forall (fun e => match e with
                   | Dir _ listing =>
                       forall p, fst (walk p listing)
                                 = Zsum (files_below excludeSet listing) mod 2 ^ 64
                   | File _ _ => True
                   end) entries ->
  forall path, fst (walk path (Ok entries))
               = Zsum (files_below excludeSet (Ok entries)) mod 2 ^ 64.
Proof.
  intros H path. rewrite walk_total_sum. unfold files_below.
  apply Zsum_concat_mod.
  eapply List.Forall_impl; [|exact H]. intros e He.
  unfold contribution. destruct (excluded excludeSet (Name e)) eqn:E.
  - rewrite files_of_excluded by exact E. reflexivity.
  - rewrite files_of_visible by exact E.
    destruct e as [name [sz|msg]|name listing]; cbn [node_files].
    + cbn [Zsum fold_right]. f_equal; lia.
    + reflexivity.
    + rewrite He. apply Zmod_mod.
Qed.

(** The total of a traversal is the sum of the files it reaches. *)
Lemma walk_rollup path listing :
  fst (walk path listing) = Zsum (files_below excludeSet listing) mod 2 ^ 64.
Proof.
  assert (He : forall e, match e with
                         | Dir _ listing =>
                             forall p, fst (walk p listing)
                                       = Zsum (files_below excludeSet listing) mod 2 ^ 64
                         | File _ _ => True
                         end).
  { induction e as [name info|name msg|name entries IH] using entry_nested_ind.
    - exact I.
    - intros p. reflexivity.
    - intros p. apply walk_rollup_entries, IH. }
  destruct listing as [entries|msg]; [|reflexivity].
  apply walk_rollup_entries. apply List.Forall_forall. intros e _. apply He.
Qed.

Lemma computed_size_rollup p e sz :
  computed_size threshold excludeSet p e = Some sz ->
  sz = Zsum (node_files excludeSet e) mod 2 ^ 64.
Proof.
  destruct e as [name [s|msg]|name listing]; cbn [computed_size node_files];
    intros H; inversion H; subst.
  - cbn [Zsum fold_right]. rewrite Z.add_0_r. unfold uint64.
    symmetry. apply Zmod_mod.
  - apply walk_rollup.
Qed.

Lemma files_of_nonneg e : Forall (fun x => 0 <= x) (files_of excludeSet e).
Proof.
  induction e as [name info|name msg|name entries IH] using entry_nested_ind.
  - simpl. destruct (excluded excludeSet name); [constructor|].
    destruct info; repeat constructor. apply uint64_range.
  - simpl. destruct (excluded excludeSet name); constructor.
  - simpl. destruct (excluded excludeSet name); [constructor|].
    apply List.Forall_forall. intros x Hx.
    apply in_concat in Hx as (l & Hl & Hx).
    apply in_map_iff in Hl as (e & <- & He).
    rewrite List.Forall_forall in IH. specialize (IH e He).
    rewrite List.Forall_forall in IH. apply IH, Hx.
Qed.

Lemma Zsum_files_member entries e :
  In e entries ->
  0 <= Zsum (files_of excludeSet e) <= Zsum (concat (map (files_of excludeSet) entries)).
Proof.
  induction entries as [|x entries IH]; [intros []|].
  rewrite map_cons, concat_cons, Zsum_app.
  pose proof (Zsum_nonneg _ (files_of_nonneg x)) as Hx.
  assert (Hrest : 0 <= Zsum (concat (map (files_of excludeSet) entries))).
  { apply Zsum_nonneg. apply List.Forall_forall. intros y Hy.
    apply in_concat in Hy as (l & Hl & Hy).
    apply in_map_iff in Hl as (e' & <- & _).
    pose proof (files_of_nonneg e') as Hn. rewrite List.Forall_forall in Hn. apply Hn, Hy. }
  intros [->|Hin]; [lia|]. specialize (IH Hin). lia.
Qed.

(** The files below a visible node are among the files of the traversal. *)
Lemma visible_files_le path entries p e :
  visible excludeSet path entries p e ->
  0 <= Zsum (node_files excludeSet e) <= Zsum (files_below excludeSet (Ok entries)).
Proof.
  induction 1 as [path entries e He E|path entries name sub p e Hd E _ IH].
  - rewrite <- files_of_visible by exact E. apply Zsum_files_member, He.
  - pose proof (Zsum_files_member entries _ Hd) as Hm.
    rewrite files_of_visible in Hm by exact E. simpl in *. lia.
Qed.

End RollUp.

(** X1. On every schedule the total of a traversal is the [uint64] sum of
    the sizes of all the files it reaches, at any depth: the files that are
    not below an excluded name or an unreadable directory and whose [Info]
    succeeds.  It is the plain sum when that fits 64 bits, and every recorded
    entry has the sum of the files at or below its node as its size. *)
Theorem total_is_sum_of_files (threshold : Z) (excludeSet : gset string)
    (path : string) (listing : result (list entry)) (total : Z) (t : list event) :
  walkR threshold excludeSet path listing total t ->
  total = Zsum (files_below excludeSet listing) mod 2 ^ 64 /\
  (Zsum (files_below excludeSet listing) < 2 ^ 64 ->
   total = Zsum (files_below excludeSet listing)) /\
  (forall entries fi,
     listing = Ok entries -> In fi (recorded t) ->
     exists e,
       visible excludeSet path entries (Path fi) e /\
       EntryIsDir e = IsDir fi /\
       Size fi = Zsum (node_files excludeSet e) mod 2 ^ 64).
Proof.
  intros Hw. pose proof (walkR_sound _ _ _ _ _ _ Hw) as [Ht Hp].
  split; [|split].
  - rewrite Ht. apply walk_rollup.
  - intros Hfit. rewrite Ht, walk_rollup. apply Z.mod_small. split; [|exact Hfit].
    destruct listing as [entries|msg]; simpl; [|lia].
    apply Zsum_nonneg. apply List.Forall_forall. intros y Hy.
    apply in_concat in Hy as (l & Hl & Hy).
    apply in_map_iff in Hl as (e' & <- & _).
    pose proof (files_of_nonneg excludeSet e') as Hn.
    rewrite List.Forall_forall in Hn. apply Hn, Hy.
  - intros entries fi -> Hin.
    apply recorded_In in Hin. apply (Permutation_in _ Hp) in Hin.
    apply recorded_visible in Hin as (e & Hv & Hs & Hd).
    exists e. split; [exact Hv|]. split; [exact Hd|].
    eapply computed_size_rollup; eassumption.
Qed.

Lemma total_is_sum_of_files_witness :
  fst (walkDirRecursive 1 {["excluded_dir"]} "/tmp/t" Fixture.with_excluded)
  = Zsum (files_below {["excluded_dir"]} Fixture.with_excluded) mod 2 ^ 64.
Proof.
  exact (proj1 (total_is_sum_of_files _ _ _ _ _ _
                  (walk_walkR 1 {["excluded_dir"]} "/tmp/t" Fixture.with_excluded))).
Defined.

(** X2. When the sum of the files that a traversal reaches fits 64 bits, no
    recorded entry is larger than the total that the traversal returns: sizes
    only grow on the way up. *)
Theorem entries_below_total (threshold : Z) (excludeSet : gset string)
    (path : string) (entries : list entry) (total : Z) (t : list event) (fi : FileInfo) :
  walkR threshold excludeSet path (Ok entries) total t ->
  Zsum (files_below excludeSet (Ok entries)) < 2 ^ 64 ->
  In fi (recorded t) ->
  0 <= Size fi <= total.
Proof.
  intros Hw Hfit Hin. pose proof (walkR_sound _ _ _ _ _ _ Hw) as [Ht Hp].
  apply recorded_In in Hin. apply (Permutation_in _ Hp) in Hin.
  apply recorded_visible in Hin as (e & Hv & Hs & _).
  apply computed_size_rollup in Hs.
  pose proof (visible_files_le excludeSet _ _ _ _ Hv) as Hle.
  rewrite Ht, walk_rollup.
  rewrite (Z.mod_small (Zsum (files_below excludeSet (Ok entries)))) by lia.
  rewrite Hs, Z.mod_small by lia. lia.
Qed.

Lemma entries_below_total_witness :
  0 <= 5 <= fst (walkDirRecursive 1 ∅ "/tmp/t" Fixture.basic).
Proof.
  assert (Hfit : Zsum (files_below ∅ Fixture.basic) < 2 ^ 64) by (vm_compute; reflexivity).
  assert (Hin : In (mkFileInfo "/tmp/t/subdir1" 5 true)
                  (recorded (snd (walkDirRecursive 1 ∅ "/tmp/t" Fixture.basic)))).
  { vm_compute. right. right. left. reflexivity. }
  exact (entries_below_total _ _ _ _ _ _ _
           (walk_walkR 1 ∅ "/tmp/t" Fixture.basic) Hfit Hin).
Defined.

(** ** The threshold only filters *)

Lemma filter_perm {A} (f : A -> bool) (l1 l2 : list A) :
  Permutation l1 l2 -> Permutation (List.filter f l1) (List.filter f l2).
Proof.
  induction 1 as [|x l1 l2 _ IH|x y l|l1 l2 l3 _ IH1 _ IH2]; simpl.
  - constructor.
  - destruct (f x); [constructor|]; exact IH.
  - destruct (f x), (f y); try reflexivity. apply perm_swap.
  - etransitivity; eassumption.
Qed.

Lemma recorded_concat (l : list (list event)) :
  recorded (concat l) = concat (map recorded l).
Proof.
  induction l as [|x l IH]; [reflexivity|].
  rewrite concat_cons, recorded_app, IH. reflexivity.
Qed.

Lemma filter_concat_map {A B} (f : B -> bool) (g h : A -> list B) (l : list A) :
  Forall (fun x => g x = List.filter f (h x)) l ->
  concat (map g l) = List.filter f (concat (map h l)).
Proof.
  induction 1 as [|x l Hx _ IH]; [reflexivity|].
  rewrite !map_cons, !concat_cons, List.filter_app, Hx, IH. reflexivity.
Qed.

Section Threshold.

Variable excludeSet : gset string.
Variables low high : Z.
Hypothesis low_high : low <= high.

Lemma record_if_filter path size isDir :
  recorded (record_if high path size isDir)
  = List.filter (fun fi => high <=? Size fi) (recorded (record_if low path size isDir)).
Proof.
  unfold record_if.
  destruct (high <=? size) eqn:Eh, (low <=? size) eqn:El; simpl; try rewrite Eh; try reflexivity.
  apply Z.leb_le in Eh. apply Z.leb_gt in El. lia.
Qed.

Lemma recorded_filter_entries entries :
  Forall (fun e => match e with
                   | Dir _ listing =>
                       forall p,
                         recorded (snd (walkDirRecursive high excludeSet p listing))
                         = List.filter (fun fi => high <=? Size fi)
                             (recorded (snd (walkDirRecursive low excludeSet p listing)))
                   | File _ _ => True
                   end) entries ->
  forall path,
    recorded (snd (walkDirRecursive high excludeSet path (Ok entries)))
    = List.filter (fun fi => high <=? Size fi)
        (recorded (snd (walkDirRecursive low excludeSet path (Ok entries)))).
Proof.
  intros H path. rewrite !walk_trace, !recorded_concat, !map_map.
  apply filter_concat_map.
  eapply List.Forall_impl; [|exact H]. intros e He.
  destruct (excluded excludeSet (Name e)); [reflexivity|].
  unfold own_events.
  destruct e as [name [sz|msg]|name listing]; cbn [Name].
  - apply record_if_filter.
  - reflexivity.
  - rewrite !recorded_app, List.filter_app, He.
    rewrite (walk_rollup high), (walk_rollup low), record_if_filter. reflexivity.
Qed.

(** With a higher threshold the function records what it recorded with the
    lower one, less the entries below the higher threshold, in the same
    order. *)
Lemma recorded_filter path listing :
  recorded (snd (walkDirRecursive high excludeSet path listing))
  = List.filter (fun fi => high <=? Size fi)
      (recorded (snd (walkDirRecursive low excludeSet path listing))).
Proof.
  assert (He : forall e, match e with
                         | Dir _ listing =>
                             forall p,
                               recorded (snd (walkDirRecursive high excludeSet p listing))
                               = List.filter (fun fi => high <=? Size fi)
                                   (recorded (snd (walkDirRecursive low excludeSet p listing)))
                         | File _ _ => True
                         end).
  { induction e as [name info|name msg|name entries IH] using entry_nested_ind.
    - exact I.
    - intros p. reflexivity.
    - intros p. apply recorded_filter_entries, IH. }
  destruct listing as [entries|msg]; [|reflexivity].
  apply recorded_filter_entries. apply List.Forall_forall. intros e _. apply He.
Qed.

End Threshold.

(** X3. The threshold has no part in the sizes: two traversals of a tree with
    different thresholds return the same total on any schedules, and the one
    with the higher threshold records exactly the entries of the other whose
    size is at or above the higher threshold. *)
Theorem threshold_only_filters (excludeSet : gset string) (low high : Z)
    (path : string) (listing : result (list entry))
    (total1 total2 : Z) (t1 t2 : list event) :
  low <= high ->
  walkR low excludeSet path listing total1 t1 ->
  walkR high excludeSet path listing total2 t2 ->
  total1 = total2 /\
  Permutation (recorded t2) (List.filter (fun fi => high <=? Size fi) (recorded t1)).
Proof.
  intros Hle H1 H2.
  pose proof (walkR_sound _ _ _ _ _ _ H1) as [Ht1 Hp1].
  pose proof (walkR_sound _ _ _ _ _ _ H2) as [Ht2 Hp2].
  split.
  - rewrite Ht1, Ht2, (walk_rollup low), (walk_rollup high). reflexivity.
  - rewrite (recorded_perm _ _ Hp2), (recorded_filter excludeSet low high Hle).
    apply filter_perm. symmetry. apply recorded_perm, Hp1.
Qed.

Lemma threshold_only_filters_witness :
  Permutation
    (recorded (snd (walkDirRecursive 5 ∅ "/tmp/t" Fixture.basic)))
    (List.filter (fun fi => 5 <=? Size fi)
       (recorded (snd (walkDirRecursive 1 ∅ "/tmp/t" Fixture.basic)))).
Proof.
  assert (Hle : 1 <= 5) by lia.
  exact (proj2 (threshold_only_filters ∅ 1 5 "/tmp/t" Fixture.basic _ _ _ _ Hle
                  (walk_walkR 1 ∅ "/tmp/t" Fixture.basic)
                  (walk_walkR 5 ∅ "/tmp/t" Fixture.basic))).
Defined.

(** ** The error stream *)

Lemma diagnostics_In line t : In line (diagnostics t) <-> In (Diagnostic line) t.
Proof.
  unfold diagnostics. rewrite <- !list_elem_of_In, list_elem_of_omap. split.
  - intros ([fi'|line'] & Hin & Heq); inversion Heq; subst. exact Hin.
  - intros H. exists (Diagnostic line). auto.
Qed.

Lemma diagnostics_perm t1 t2 :
  Permutation t1 t2 -> Permutation (diagnostics t1) (diagnostics t2).
Proof. intros H. unfold diagnostics. rewrite H. reflexivity. Qed.

Section ErrorStream.

Variable threshold : Z.
Variable excludeSet : gset string.

#[local] Abbreviation walk := (walkDirRecursive threshold excludeSet).

#[local] Abbreviation failure_of :=
  (fun (path : string) (entries : list entry) (ev : event) =>
     exists p name msg,
       (visible excludeSet path entries p (File name (Err msg)) /\ ev = info_error p msg) \/
       (visible excludeSet path entries p (Dir name (Err msg)) /\ ev = read_error p msg)).

Lemma diagnostic_failure_entries entries :
  Forall (fun e => match e with
                   | Dir _ (Ok sub) =>
                       forall p line, In (Diagnostic line) (snd (walk p (Ok sub))) ->
                                      failure_of p sub (Diagnostic line)
                   | _ => True
                   end) entries ->
  forall path line, In (Diagnostic line) (snd (walk path (Ok entries))) ->
                    failure_of path entries (Diagnostic line).
Proof.
  intros H path line Hin.
  apply walk_trace_In in Hin as (e & He & E & Hev).
  rewrite List.Forall_forall in H. specialize (H e He).
  destruct e as [name [sz|msg]|name listing]; unfold own_events in Hev; cbn [Name] in Hev.
  - apply note_In in Hev as [Heq _]. discriminate.
  - destruct Hev as [Hev|[]]. exists (Filepath.Join path name), name, msg. left.
    split; [|symmetry; exact Hev].
    apply (visible_child excludeSet path entries (File name (Err msg))); assumption.
  - apply in_app_or in Hev as [Hev|Hev].
    + destruct listing as [sub|msg].
      * destruct (H _ _ Hev) as (p & n & m & [[Hv Hl]|[Hv Hl]]);
          exists p, n, m; [left|right]; (split; [|exact Hl]);
          eapply visible_below; eassumption.
      * destruct Hev as [Hev|[]]. exists (Filepath.Join path name), name, msg. right.
        split; [|symmetry; exact Hev].
        apply (visible_child excludeSet path entries (Dir name (Err msg))); assumption.
    + apply note_In in Hev as [Heq _]. discriminate.
Qed.

Lemma diagnostic_failure path entries line :
  In (Diagnostic line) (snd (walk path (Ok entries))) ->
  failure_of path entries (Diagnostic line).
Proof.
  apply diagnostic_failure_entries. apply List.Forall_forall. intros e _.
  induction e as [name info|name msg|name sub IH] using entry_nested_ind; auto.
  intros p l. apply diagnostic_failure_entries, IH.
Qed.

Lemma failure_diagnostic path entries ev :
  failure_of path entries ev -> In ev (snd (walk path (Ok entries))).
Proof.
  intros (p & name & msg & [[Hv ->]|[Hv ->]]);
    destruct (visible_own threshold excludeSet _ _ _ _ Hv) as (parent & -> & Hown);
    apply Hown; left; reflexivity.
Qed.

End ErrorStream.

(** X4. On every schedule the lines that a traversal of a readable directory
    writes to the error stream are exactly the lines of the visible nodes
    that fail: a file whose [Info] fails, a directory that cannot be read.
    A tree in which nothing visible fails leaves the error stream alone. *)
Theorem diagnostics_are_failures (threshold : Z) (excludeSet : gset string)
    (path : string) (entries : list entry) (total : Z) (t : list event) :
  walkR threshold excludeSet path (Ok entries) total t ->
  (forall line,
     In line (diagnostics t) <->
     exists p name msg,
       (visible excludeSet path entries p (File name (Err msg)) /\
        Diagnostic line = info_error p msg) \/
       (visible excludeSet path entries p (Dir name (Err msg)) /\
        Diagnostic line = read_error p msg)) /\
  ((forall p e, visible excludeSet path entries p e ->
                forall name msg, e <> File name (Err msg) /\ e <> Dir name (Err msg)) ->
   diagnostics t = []).
Proof.
  intros Hw. pose proof (walkR_sound _ _ _ _ _ _ Hw) as [_ Hp].
  assert (Hiff : forall line,
             In line (diagnostics t) <->
             exists p name msg,
               (visible excludeSet path entries p (File name (Err msg)) /\
                Diagnostic line = info_error p msg) \/
               (visible excludeSet path entries p (Dir name (Err msg)) /\
                Diagnostic line = read_error p msg)).
  { intros line. rewrite diagnostics_In. split.
    - intros Hin. apply (Permutation_in _ Hp) in Hin.
      apply diagnostic_failure in Hin. exact Hin.
    - intros Hf. apply (Permutation_in _ (Permutation_sym Hp)).
      apply failure_diagnostic. exact Hf. }
  split; [exact Hiff|].
  intros Hnone. destruct (diagnostics t) as [|line l] eqn:E; [reflexivity|].
  exfalso.
  destruct (proj1 (Hiff line) (or_introl eq_refl)) as (p & name & msg & [[Hv _]|[Hv _]]);
    destruct (Hnone _ _ Hv name msg) as [H1 H2]; congruence.
Qed.

Lemma diagnostics_are_failures_witness :
  In "Error reading directory /r/d: permission denied"
     (diagnostics (snd (walkDirRecursive 1 ∅ "/r"
                          (Ok [File "a" (Ok 7); Dir "d" (Err "permission denied")])))).
Proof.
  apply (proj1 (diagnostics_are_failures _ _ _ _ _ _
                  (walk_walkR 1 ∅ "/r"
                     (Ok [File "a" (Ok 7); Dir "d" (Err "permission denied")])))).
  exists "/r/d", "d", "permission denied". right. split; [|reflexivity].
  apply (visible_child ∅ "/r" _ (Dir "d" (Err "permission denied"))).
  - right. left. reflexivity.
  - reflexivity.
Defined.

(** ** [run] as a whole *)

Lemma sort_Slice_ext l l' : Permutation l l' -> sort_Slice l = sort_Slice l'.
Proof.
  intros H. apply sorted_perm_eq; try apply sort_Slice_sorted.
  rewrite !sort_Slice_perm. exact H.
Qed.

Lemma collected_root scanPath threshold total rs :
  (if threshold <=? total then addResult scanPath total true rs else rs)
  = rs ++ root_entry scanPath threshold total.
Proof.
  unfold root_entry, addResult. destruct (threshold <=? total); [reflexivity|].
  rewrite app_nil_r. reflexivity.
Qed.

Lemma run_report_perm scanPath threshold total t1 t2 st :
  Permutation t1 t2 ->
  same_report (run_report scanPath threshold (total, t1) st)
              (run_report scanPath threshold (total, t2) st).
Proof.
  intros Hp. unfold run_report.
  rewrite !apply_events_results, !apply_events_stdout, !apply_events_stderr, !collected_root.
  rewrite (sort_Slice_ext ((results st ++ recorded t1) ++ root_entry scanPath threshold total)
             ((results st ++ recorded t2) ++ root_entry scanPath threshold total)).
  - destruct (mapM display _) as [lines|]; [|exact I].
    cbn [same_report results stdout stderr].
    split; [reflexivity|]. split; [reflexivity|]. split; [reflexivity|].
    apply Permutation_app_head, diagnostics_perm, Hp.
  - apply Permutation_app_tail, Permutation_app_head, recorded_perm, Hp.
Qed.

Lemma run_report_no_error scanPath threshold walked st err st' :
  run_report scanPath threshold walked st <> Returned (Some err) st'.
Proof.
  unfold run_report. destruct walked as [total t].
  destruct (mapM display _); discriminate.
Qed.

Lemma print_after st d line : print line (after st d) = after st (print line d).
Proof. unfold print, after. cbn. rewrite app_assoc. reflexivity. Qed.

Lemma eprint_after st d line : eprint line (after st d) = after st (eprint line d).
Proof. unfold eprint, after. cbn. rewrite app_assoc. reflexivity. Qed.

Lemma usage_after st d arg0 : usage arg0 (after st d) = after st (usage arg0 d).
Proof. unfold usage. rewrite !eprint_after, print_after, !eprint_after. reflexivity. Qed.

Lemma after_quiet st : after st (quiet st) = st.
Proof. destruct st. unfold after, quiet. cbn. rewrite !app_nil_r. reflexivity. Qed.

Lemma run_report_after scanPath threshold walked st d :
  run_report scanPath threshold walked (after st d)
  = outcome_after st (run_report scanPath threshold walked d).
Proof.
  unfold run_report. destruct walked as [total t].
  rewrite !apply_events_results, !apply_events_stdout, !apply_events_stderr.
  cbn [results stdout stderr after].
  destruct (mapM display _) as [lines|]; [|reflexivity].
  cbn [outcome_after after results stdout stderr].
  rewrite <- !app_assoc. reflexivity.
Qed.

Section RunWhole.

Variable uint64_unrepresentable : spec_float -> Z.
Variable stat : string -> result entry.

#[local] Abbreviation prepare := (run_prepare uint64_unrepresentable stat).
#[local] Abbreviation runs := (runR uint64_unrepresentable stat).

Lemma run_prepare_after args st d :
  prepare args (after st d) = option_map (prepared_after st) (prepare args d).
Proof.
  unfold run_prepare.
  destruct args as [|arg0 args]; [reflexivity|].
  destruct (Flag.Parse "proc,dev,sys" args) as [excludeDirs pos| |msg];
    cbn [option_map prepared_after]; rewrite <- ?usage_after, <- ?eprint_after; try reflexivity.
  destruct pos as [|arg_dir [|minSizeStr [|? ?]]];
    cbn [option_map prepared_after]; rewrite <- ?usage_after; try reflexivity.
  destruct (excluded _ _); cbn [option_map prepared_after];
    rewrite <- ?print_after; [reflexivity|].
  destruct (SizeParser.parseSize _ _) as [th|msg]; [|reflexivity].
  destruct (stat _) as [[? ?|? l]|]; try reflexivity.
  destruct (Formatter.humanReadableSize _); [|reflexivity].
  cbn [option_map prepared_after].
  destruct (0 <? size (build_excludeSet excludeDirs))%nat;
    rewrite <- !print_after; reflexivity.
Qed.

Lemma run_prepare_Stop args st err st' :
  prepare args st = Some (Stop err st') -> results st' = results st.
Proof.
  unfold run_prepare.
  destruct args as [|arg0 args]; [discriminate|].
  destruct (Flag.Parse "proc,dev,sys" args) as [excludeDirs pos| |msg];
    try (intros H; inversion H; reflexivity).
  destruct pos as [|arg_dir [|minSizeStr [|? ?]]];
    try (intros H; inversion H; reflexivity).
  destruct (excluded _ _); [intros H; inversion H; reflexivity|].
  destruct (SizeParser.parseSize _ _) as [th|msg]; [|intros H; inversion H; reflexivity].
  destruct (stat _) as [[? ?|? l]|]; try (intros H; inversion H; reflexivity).
  destruct (Formatter.humanReadableSize _); discriminate.
Qed.

Lemma run_prepare_None args st : prepare args st = None -> args = [].
Proof.
  unfold run_prepare.
  destruct args as [|arg0 args]; [reflexivity|].
  destruct (Flag.Parse "proc,dev,sys" args) as [excludeDirs pos| |msg]; try discriminate.
  destruct pos as [|arg_dir [|minSizeStr [|? ?]]]; try discriminate.
  destruct (excluded _ _); [discriminate|].
  destruct (SizeParser.parseSize _ _) as [th|msg] eqn:Ep; [|discriminate].
  destruct (stat _) as [[? ?|? l]|]; try discriminate.
  destruct (humanReadableSize_defined th) as (h & ->); [|discriminate].
  eapply parseSize_range; eassumption.
Qed.

End RunWhole.



(** X6. In a process whose collection holds [uint64] sizes, [run] panics on
    an empty argument vector and on nothing else.  When it returns an error
    it has not started the traversal: the collection is as it was, every
    schedule gives that same outcome, and [main] ends with status 1 and the
    error as the last line of the error stream. *)
Theorem run_failure_modes (uint64_unrepresentable : spec_float -> Z)
    (stat : string -> result entry) (args : list string) (st : process) (o : outcome) :
  Forall is_uint64 (results st) ->
  runR uint64_unrepresentable stat args st o ->
  (o = Panicked <-> args = []) /\
  (forall err st',
     o = Returned (Some err) st' ->
     run_prepare uint64_unrepresentable stat args st = Some (Stop (Some err) st') /\
     results st' = results st /\
     (forall o', runR uint64_unrepresentable stat args st o' -> o' = o) /\
     main uint64_unrepresentable stat args st
     = (1, mkProcess (results st) (stdout st') (stderr st' ++ [err]))).
Proof.
  intros Hst Hr. split.
  - split.
    + intros Ho.
      destruct Hr as [H|err st' H|scanPath threshold excludeSet listing st' total t H Hw].
      * eapply run_prepare_None; eassumption.
      * discriminate Ho.
      * exfalso.
        destruct (run_prepare_Scan _ _ _ _ _ _ _ _ _ H) as (_ & _ & Hres & _).
        destruct (walkR_range _ _ _ _ _ _ Hw) as [Ht Hrec].
        rewrite <- Hres in Hst.
        destruct (run_report_spec scanPath threshold total t st' Ht Hrec Hst)
          as (lines & _ & Heq).
        congruence.
    + intros ->.
      destruct Hr as [H|err st' H|scanPath threshold excludeSet listing st' total t H Hw];
        [reflexivity|discriminate H|discriminate H].
  - intros err st' Ho.
    destruct Hr as [H|err' st'' H|scanPath threshold excludeSet listing st'' total t H Hw].
    + discriminate Ho.
    + inversion Ho; subst. split; [exact H|].
      split; [eapply run_prepare_Stop; eassumption|]. split.
      * intros o' Hr'. eapply runR_Stop; eassumption.
      * unfold main, run. rewrite H. cbn [main_of]. unfold eprint.
        rewrite (run_prepare_Stop _ _ _ _ _ _ H). reflexivity.
    + exfalso. revert Ho. apply run_report_no_error.
Qed.

Lemma run_failure_modes_witness :
  main (fun _ => 0) Fixture.stat ["spacehogs"; "/tmp/t"] Fixture.fresh
  = (1, mkProcess []
          (stdout (usage "spacehogs" Fixture.fresh))
          (stderr (usage "spacehogs" Fixture.fresh) ++ ["invalid number of arguments"])).
Proof.
  assert (Hst : Forall is_uint64 (results Fixture.fresh)) by constructor.
  exact (proj2 (proj2 (proj2
           (proj2 (run_failure_modes (fun _ => 0) Fixture.stat ["spacehogs"; "/tmp/t"]
                     Fixture.fresh _ Hst (run_runR _ _ _ _))
              "invalid number of arguments" (usage "spacehogs" Fixture.fresh) eq_refl)))).
Defined.

(** X7. [run] reads nothing of what the process has written before and only
    appends to the two streams: its outcomes in a process are those in a
    process with the same collection and empty streams, put after what was
    written already. *)
Theorem run_only_appends (uint64_unrepresentable : spec_float -> Z)
    (stat : string -> result entry) (args : list string) (st : process) (o : outcome) :
  runR uint64_unrepresentable stat args st o <->
  exists o', runR uint64_unrepresentable stat args (quiet st) o' /\ o = outcome_after st o'.
Proof.
  pose proof (run_prepare_after uint64_unrepresentable stat args st (quiet st)) as Hp.
  rewrite after_quiet in Hp.
  split.
  - intros Hr.
    inversion Hr as [H|err st' H|scanPath threshold excludeSet listing st' total t H Hw];
      subst; rewrite H in Hp;
      destruct (run_prepare uint64_unrepresentable stat args (quiet st))
        as [[err0 d|p0 th0 ex0 l0 d]|] eqn:E; try discriminate Hp;
      cbn in Hp; inversion Hp; subst.
    + exists Panicked. split; [apply runR_panic; exact E|reflexivity].
    + exists (Returned err0 d). split; [apply runR_stop; exact E|reflexivity].
    + exists (run_report p0 th0 (total, t) d). split.
      * eapply runR_scan; eassumption.
      * apply run_report_after.
  - intros (o' & Hr & ->).
    inversion Hr as [H|err d H|scanPath threshold excludeSet listing d total t H Hw];
      subst; rewrite H in Hp; cbn in Hp.
    + apply runR_panic. exact Hp.
    + apply runR_stop. exact Hp.
    + rewrite <- run_report_after. eapply runR_scan; eassumption.
Qed.

(** ** The exclusion set *)

Lemma build_excludeSet_fold (name : string) (l : list string) : forall acc : gset string,
  name ∈ fold_left
           (fun set dir =>
              let trimmed := GoStrings.TrimSpace dir in
              if String.eqb trimmed "" then set else {[trimmed]} ∪ set) l acc
  <-> name ∈ acc \/
      (name <> "" /\ exists field, In field l /\ GoStrings.TrimSpace field = name).
Proof.
  induction l as [|dir l IH]; intros acc; cbn [fold_left].
  - split; [auto|]. intros [H|(_ & f & [] & _)]. exact H.
  - rewrite IH. cbv zeta.
    destruct (String.eqb_spec (GoStrings.TrimSpace dir) "") as [E|E].
    + split.
      * intros [H|(Hn & f & Hf & Ht)]; [auto|]. right. split; [exact Hn|].
        exists f. split; [right; exact Hf|exact Ht].
      * intros [H|(Hn & f & [->|Hf] & Ht)]; [auto|congruence|].
        right. split; [exact Hn|]. exists f. auto.
    + rewrite elem_of_union, elem_of_singleton. split.
      * intros [[->|H]|(Hn & f & Hf & Ht)].
        -- right. split; [exact E|]. exists dir. split; [left|]; reflexivity.
        -- auto.
        -- right. split; [exact Hn|]. exists f. split; [right; exact Hf|exact Ht].
      * intros [H|(Hn & f & [->|Hf] & Ht)]; [auto|auto|].
        right. split; [exact Hn|]. exists f. auto.
Qed.

(** X8. The exclusion set that [run] builds from the value of [-exclude]
    holds exactly the non-empty names obtained by splitting the value at
    the commas and trimming the white space around each field; a value
    without such a name, the empty one included, excludes nothing. *)
Theorem build_excludeSet_spec (excludeDirs name : string) :
  name ∈ build_excludeSet excludeDirs <->
  name <> "" /\
  exists field, In field (GoStrings.Split excludeDirs ",") /\ GoStrings.TrimSpace field = name.
Proof.
  unfold build_excludeSet.
  destruct (String.eqb_spec excludeDirs "") as [->|E].
  - split; [intros H; apply not_elem_of_empty in H; destruct H|].
    intros (Hn & f & [<-|[]] & Ht). vm_compute in Ht. congruence.
  - rewrite build_excludeSet_fold. split; [|auto].
    intros [H|H]; [apply not_elem_of_empty in H; destruct H|exact H].
Qed.

(** ** The unit that [humanReadableSize] picks *)

Lemma unit_loop_exact (k : nat) : forall n div exp,
  1024 ^ Z.of_nat k <= n < 1024 * 1024 ^ Z.of_nat k ->
  0 < div -> div * 1024 ^ Z.of_nat k < 2 ^ 63 ->
  Formatter.unit_loop n div exp = (div * 1024 ^ Z.of_nat k, exp + Z.of_nat k).
Proof.
  induction k as [|k IH]; intros n div exp Hn Hdiv Hfit.
  - rewrite Formatter.unit_loop_equation. unfold Formatter.unit.
    destruct (1024 <=? n) eqn:E; [apply Z.leb_le in E; simpl in Hn; lia|].
    f_equal; simpl; lia.
  - rewrite Formatter.unit_loop_equation. unfold Formatter.unit.
    rewrite Nat2Z.inj_succ, Z.pow_succ_r in * by lia.
    assert (Hp : 0 < 1024 ^ Z.of_nat k) by (apply Z.pow_pos_nonneg; lia).
    destruct (1024 <=? n) eqn:E; [|apply Z.leb_gt in E; lia].
    rewrite wrap_int64_id by nia.
    rewrite (IH (n / 1024) (div * 1024) (exp + 1)).
    + f_equal; lia.
    + split; [apply Z.div_le_lower_bound; lia|apply Z.div_lt_upper_bound; lia].
    + lia.
    + nia.
Qed.

(** X9. For a size of at least 1024, [humanReadableSize] picks the largest
    binary unit that is not above the size: when
    [1024^(exp+1) <= size < 1024^(exp+2)] the loop ends with [exp] and the
    divisor [1024^(exp+1)], and the text is the quotient with two decimals,
    a space, the letter at [exp] in ["KMGTPE"] and ["iB"].  The printed
    number is not always below 1024: the quotient is rounded, and one byte
    less than a mebibyte is printed in kibibytes as 1024.00. *)
Theorem humanReadableSize_unit (size exp : Z) :
  0 <= exp <= 5 -> 1024 ^ (exp + 1) <= size < 1024 ^ (exp + 2) -> size < 2 ^ 64 ->
  Formatter.unit_loop (size / Formatter.unit) Formatter.unit 0 = (1024 ^ (exp + 1), exp) /\
  (exists c,
     Formatter.index "KMGTPE" exp = Some c /\
     Formatter.humanReadableSize size
     = Some (Fmt.fixed2 (Float64.div (Float64.of_Z size) (Float64.of_Z (1024 ^ (exp + 1))))
             +:+ " " +:+ String c "iB")) /\
  Formatter.humanReadableSize (1024 ^ 2 - 1) = Some "1024.00 KiB".
Proof.
  intros Hexp Hsize Hmax.
  assert (Hp : 0 < 1024 ^ exp) by (apply Z.pow_pos_nonneg; lia).
  assert (Hloop : Formatter.unit_loop (size / Formatter.unit) Formatter.unit 0
                  = (1024 ^ (exp + 1), exp)).
  { unfold Formatter.unit.
    rewrite (unit_loop_exact (Z.to_nat exp)); rewrite ?Z2Nat.id by lia.
    - rewrite Z.pow_add_r by lia. f_equal; lia.
    - rewrite Z.pow_add_r in Hsize by lia.
      replace (1024 ^ (exp + 2)) with (1024 * 1024 * 1024 ^ exp) in Hsize
        by (rewrite Z.pow_add_r by lia; lia).
      split; [apply Z.div_le_lower_bound; lia|apply Z.div_lt_upper_bound; lia].
    - lia.
    - assert (1024 ^ exp <= 1024 ^ 5) by (apply Z.pow_le_mono_r; lia). lia. }
  split; [exact Hloop|]. split; [|vm_compute; reflexivity].
  destruct (index_units exp Hexp) as (c & Hc). exists c. split; [exact Hc|].
  unfold Formatter.humanReadableSize.
  assert (E : (size <? 1024) = false).
  { apply Z.ltb_ge. rewrite Z.pow_add_r in Hsize by lia. lia. }
  rewrite E, Hloop, Hc. reflexivity.
Qed.

Lemma humanReadableSize_unit_witness :
  Formatter.humanReadableSize 1610612736 = Some "1.50 GiB".
Proof.
  assert (H1 : 0 <= 2 <= 5) by lia.
  assert (H2 : 1024 ^ (2 + 1) <= 1610612736 < 1024 ^ (2 + 2)) by (vm_compute; split; congruence).
  assert (H3 : 1610612736 < 2 ^ 64) by reflexivity.
  destruct (proj1 (proj2 (humanReadableSize_unit 1610612736 2 H1 H2 H3))) as (c & Hc & Hh).
  rewrite Hh. vm_compute in Hc. inversion Hc; subst c. vm_compute. reflexivity.
Defined.

(** ** What [parseSize] accepts *)

Section Accepts.
Import GoStrings SizeParser SizeSyntax.

Lemma span_app p a b :
  all_of p a = true ->
  match b with
  | EmptyString => True
  | String c _ => p c = false
  end ->
  span p (a +:+ b) = (a, b).
Proof.
  intros Ha Hb. induction a as [|c a IH].
  - change ("" +:+ b) with b. destruct b as [|c b]; [reflexivity|].
    simpl. rewrite Hb. reflexivity.
  - simpl in Ha. apply andb_true_iff in Ha as [Hc Ha].
    rewrite append_cons. simpl. rewrite Hc, (IH Ha). reflexivity.
Qed.

Lemma space_not_num c : is_re_space c = true -> is_num_byte c = false.
Proof.
  destruct c as [[] [] [] [] [] [] [] []]; intros H; try discriminate H; reflexivity.
Qed.

(** The first byte of a unit is neither of a number nor white space, the
    unit is all that the expression leaves over, and the [switch] scales by
    its first letter. *)
Lemma unit_suffix_facts u :
  unit_suffix u ->
  match u with
  | EmptyString => True
  | String c _ => is_num_byte c = false /\ is_re_space c = false
  end /\
  skip_b (skip_unit_letter u) = "" /\
  forall f : spec_float,
    (if HasPrefix (ToUpper u) "T"
     then Float64.mul f (Float64.of_Z (1024 * 1024 * 1024 * 1024))
     else if HasPrefix (ToUpper u) "G"
          then Float64.mul f (Float64.of_Z (1024 * 1024 * 1024))
          else if HasPrefix (ToUpper u) "M"
               then Float64.mul f (Float64.of_Z (1024 * 1024))
               else if HasPrefix (ToUpper u) "K"
                    then Float64.mul f (Float64.of_Z 1024)
                    else f)
    = scaled u f.
Proof.
  intros (letter & b & -> & Hl & Hb).
  assert (Hl' : In letter ("" :: unit_letters)) by (destruct Hl as [->|Hl]; [left|right]; auto).
  assert (Hb' : In b [""; "b"; "B"]) by (destruct Hb as [->|[->| ->]]; simpl; auto).
  clear Hl Hb. unfold unit_letters in Hl'.
  repeat (destruct Hl' as [<-|Hl']; [|]); try destruct Hl';
    (repeat (destruct Hb' as [<-|Hb']; [|]); try destruct Hb');
    (split; [|split]; [vm_compute; auto|reflexivity|intros f; reflexivity]).
Qed.

Lemma FindStringSubmatch_parts num ws u :
  num <> "" -> all_of is_num_byte num = true -> all_of is_re_space ws = true ->
  unit_suffix u ->
  FindStringSubmatch (num +:+ ws +:+ u) = Some (num, u).
Proof.
  intros Hne Hnum Hws Hu.
  destruct (unit_suffix_facts u Hu) as (Hhead & Hskip & _).
  unfold FindStringSubmatch.
  rewrite (span_app is_num_byte num (ws +:+ u) Hnum).
  - destruct (String.eqb_spec num ""); [contradiction|].
    rewrite (span_app is_re_space ws u Hws).
    + rewrite Hskip. reflexivity.
    + destruct u as [|c u']; [exact I|apply Hhead].
  - destruct ws as [|c ws'].
    + change ("" +:+ u) with u. destruct u as [|c u']; [exact I|apply Hhead].
    + rewrite append_cons. simpl in Hws. apply andb_true_iff in Hws as [Hc _].
      apply space_not_num, Hc.
Qed.

End Accepts.

(** X10. [parseSize] takes every text that, once trimmed, is a run of digits
    and dots, optional white space and an optional unit ([k], [m], [g], [t],
    [p] or the Kelvin sign, then an optional [b], in either case).  The run
    goes to [ParseFloat]: when that fails the result is the number error,
    and otherwise the value is multiplied by the power of 1024 that goes
    with a first letter [K], [M], [G] or [T] and by nothing for any other
    unit, and converted to [uint64]. *)
Theorem parseSize_accepts (uint64_unrepresentable : spec_float -> Z)
    (s num ws u : string) :
  GoStrings.TrimSpace s = num +:+ ws +:+ u ->
  num <> "" -> GoStrings.all_of SizeParser.is_num_byte num = true ->
  GoStrings.all_of SizeParser.is_re_space ws = true ->
  SizeSyntax.unit_suffix u ->
  SizeParser.parseSize uint64_unrepresentable s
  = match SizeParser.ParseFloat num with
    | Some f => Ok (SizeParser.uint64_of_float64 uint64_unrepresentable (scaled u f))
    | None => Err ("invalid size number: " +:+ num)
    end.
Proof.
  intros Ht Hne Hnum Hws Hu.
  unfold SizeParser.parseSize.
  rewrite Ht, (FindStringSubmatch_parts num ws u Hne Hnum Hws Hu).
  destruct (SizeParser.ParseFloat num) as [f|]; [|reflexivity].
  rewrite (proj2 (proj2 (unit_suffix_facts u Hu)) f). reflexivity.
Qed.

Lemma parseSize_accepts_witness :
  SizeParser.parseSize (fun _ => 0) " 1.5 gb " = Ok 1610612736.
Proof.
  assert (Ht : GoStrings.TrimSpace " 1.5 gb " = "1.5" +:+ " " +:+ "gb")
    by (vm_compute; reflexivity).
  assert (Hne : "1.5" <> "") by discriminate.
  assert (Hu : SizeSyntax.unit_suffix "gb").
  { exists "g", "b". split; [reflexivity|]. split; [right; simpl; tauto|tauto]. }
  rewrite (parseSize_accepts (fun _ => 0) " 1.5 gb " "1.5" " " "gb" Ht Hne eq_refl eq_refl Hu).
  vm_compute. reflexivity.
Defined.

(** ** [humanReadableSize] read back by [parseSize] *)

Section ReadBack.
Import GoStrings SizeParser.

Variable uint64_unrepresentable : spec_float -> Z.

Lemma read_back_small :
  forallb
    (fun n =>
       match Formatter.humanReadableSize n with
       | Some s =>
           match parseSize uint64_unrepresentable s with
           | Ok v => v =? n
           | Err _ => false
           end
       | None => false
       end) (map Z.of_nat (seq 0 1024)) = true.
Proof. vm_compute. reflexivity. Qed.

Lemma rev_string_rev (s : string) : forall a b,
  rev_string a (rev_string b s) = rev_string (s +:+ a) b.
Proof.
  induction s as [|c s IH]; intros a b; [reflexivity|].
  simpl rev_string at 2. rewrite IH. reflexivity.
Qed.

Lemma rev_string_app (a : string) : forall acc b,
  rev_string acc (a +:+ b) = rev_string (rev_string acc a) b.
Proof.
  induction a as [|c a IH]; intros acc b; [reflexivity|].
  rewrite append_cons. simpl. apply IH.
Qed.

Lemma trim_left_none encs fuel s : strip_any encs s = None -> trim_left encs fuel s = s.
Proof. intros H. destruct fuel; simpl; [reflexivity|]. rewrite H. reflexivity. Qed.

(** A text that neither starts nor ends with white space is left as it
    is. *)
Lemma TrimSpace_none s :
  strip_any space_encodings s = None ->
  strip_any (map (rev_string "") space_encodings) (rev_string "" s) = None ->
  TrimSpace s = s.
Proof.
  intros H1 H2. unfold TrimSpace. cbv zeta.
  rewrite (trim_left_none _ _ _ H1), (trim_left_none _ _ _ H2).
  rewrite rev_string_rev. apply append_nil_r.
Qed.

Lemma num_byte_not_space c rest :
  is_num_byte c = true -> strip_any space_encodings (String c rest) = None.
Proof.
  destruct c as [[] [] [] [] [] [] [] []]; intros H; try discriminate H; reflexivity.
Qed.

Lemma string_of_uint_digits d : all_of is_digit (NilEmpty.string_of_uint d) = true.
Proof. induction d; simpl; auto. Qed.

Lemma decimal_shape n :
  exists c r, Fmt.decimal n = String c r /\ is_digit c = true /\ all_of is_digit r = true.
Proof.
  unfold Fmt.decimal, NilZero.string_of_uint.
  pose proof (string_of_uint_digits (N.to_uint (Z.to_N n))) as H.
  destruct (N.to_uint (Z.to_N n)) as [|d|d|d|d|d|d|d|d|d|d];
    [exists "0"%char, ""; auto|..];
    simpl in *; eexists _, _; (split; [reflexivity|]); auto.
Qed.

(** [%.2f] prints digits and one dot, a digit first. *)
Lemma fixed2_shape f :
  exists c r, Fmt.fixed2 f = String c r /\ is_num_byte c = true /\
              all_of is_num_byte r = true.
Proof.
  unfold Fmt.fixed2. cbv zeta.
  destruct (decimal_shape (Float64.scaled_round 2 f / 100)) as (c & r & -> & Hc & Hr).
  destruct (decimal_shape (Float64.scaled_round 2 f mod 100)) as (c' & r' & -> & Hc' & Hr').
  exists c, (r +:+ "." +:+ (if Float64.scaled_round 2 f mod 100 <? 10
                           then "0" +:+ String c' r' else String c' r')).
  split; [reflexivity|]. split; [unfold is_num_byte; rewrite Hc; reflexivity|].
  rewrite all_of_app, (digits_num _ Hr).
  assert (Hd : all_of is_num_byte (String c' r') = true).
  { apply digits_num. simpl. rewrite Hc', Hr'. reflexivity. }
  assert (Hcons : forall x y, all_of is_num_byte y = true -> is_num_byte x = true ->
                              all_of is_num_byte (String x y) = true).
  { intros x y Hy Hx. simpl. rewrite Hx, Hy. reflexivity. }
  change ("." +:+ ?x) with (String "."%char x).
  rewrite Hcons; [reflexivity| |reflexivity].
  destruct (_ <? 10); [|exact Hd].
  change ("0" +:+ ?x) with (String "0"%char x).
  apply Hcons; [exact Hd|reflexivity].
Qed.

Lemma binary_unit_rejected (n : string) (c : ascii) (exp : Z) :
  0 <= exp <= 5 -> Formatter.index "KMGTPE" exp = Some c ->
  (exists d r, n = String d r /\ is_num_byte d = true /\ all_of is_num_byte r = true) ->
  parseSize uint64_unrepresentable (n +:+ " " +:+ String c "iB")
  = Err ("invalid size format: " +:+ n +:+ " " +:+ String c "iB").
Proof.
  intros Hexp Hc (d & r & -> & Hd & Hr).
  assert (Hn : all_of is_num_byte (String d r) = true) by (simpl; rewrite Hd, Hr; reflexivity).
  assert (Hu : skip_b (skip_unit_letter (String c "iB")) <> "" /\
               is_re_space c = false /\
               strip_any (map (rev_string "") space_encodings)
                 (String "B" (String "i" (rev_string "" (String d r +:+ " " +:+ String c ""))))
               = None).
  { assert (E : exp = 0 \/ exp = 1 \/ exp = 2 \/ exp = 3 \/ exp = 4 \/ exp = 5) by lia.
    destruct E as [->|[->|[->|[->|[->| ->]]]]]; vm_compute in Hc; inversion Hc; subst c;
      (split; [vm_compute; discriminate|split; reflexivity]). }
  destruct Hu as (Hskip & Hsp & Hrev).
  unfold parseSize. rewrite TrimSpace_none.
  - unfold FindStringSubmatch.
    rewrite (span_app is_num_byte (String d r) (" " +:+ String c "iB") Hn) by reflexivity.
    change (String.eqb (String d r) "") with false. cbv iota.
    rewrite (span_app is_re_space " " (String c "iB") eq_refl Hsp).
    destruct (String.eqb_spec (skip_b (skip_unit_letter (String c "iB"))) "");
      [contradiction|reflexivity].
  - rewrite append_cons. apply num_byte_not_space, Hd.
  - replace (String d r +:+ " " +:+ String c "iB")
      with ((String d r +:+ " " +:+ String c "") +:+ "iB")
      by (rewrite !append_assoc; reflexivity).
    rewrite rev_string_app. exact Hrev.
Qed.

End ReadBack.

(** X11. Below 1024 the two conversions are inverse to each other:
    [parseSize] reads the text that [humanReadableSize] prints for a size as
    that size. *)
Theorem read_back_bytes (uint64_unrepresentable : spec_float -> Z) (size : Z) :
  0 <= size < 1024 ->
  exists s,
    Formatter.humanReadableSize size = Some s /\
    SizeParser.parseSize uint64_unrepresentable s = Ok size.
Proof.
  intros H.
  pose proof (read_back_small uint64_unrepresentable) as Hall.
  rewrite forallb_forall in Hall. specialize (Hall size).
  destruct (Formatter.humanReadableSize size) as [s|].
  - exists s. split; [reflexivity|].
    destruct (SizeParser.parseSize uint64_unrepresentable s) as [v|msg].
    + f_equal. apply Z.eqb_eq. apply Hall.
      apply in_map_iff. exists (Z.to_nat size). split; [lia|]. apply in_seq. lia.
    + exfalso. assert (false = true); [|discriminate]. apply Hall.
      apply in_map_iff. exists (Z.to_nat size). split; [lia|]. apply in_seq. lia.
  - exfalso. assert (false = true); [|discriminate]. apply Hall.
    apply in_map_iff. exists (Z.to_nat size). split; [lia|]. apply in_seq. lia.
Qed.

Lemma read_back_bytes_witness :
  exists s, Formatter.humanReadableSize 512 = Some s /\
            SizeParser.parseSize (fun _ => 0) s = Ok 512.
Proof.
  apply (read_back_bytes (fun _ => 0) 512). lia.
Defined.

(** X12. From 1024 on, [parseSize] does not read what [humanReadableSize]
    prints: the units [KiB] to [EiB] are not units of the expression, and
    the text is turned down with the format error.  The threshold line that
    [run] prints can thus not be handed back as the size argument. *)
Theorem read_back_binary_units (uint64_unrepresentable : spec_float -> Z) (size : Z) :
  1024 <= size < 2 ^ 64 ->
  exists s,
    Formatter.humanReadableSize size = Some s /\
    SizeParser.parseSize uint64_unrepresentable s = Err ("invalid size format: " +:+ s).
Proof.
  intros H. unfold Formatter.humanReadableSize.
  assert (E : (size <? 1024) = false) by (apply Z.ltb_ge; lia).
  rewrite E.
  destruct (unit_loop_uint64 size H) as (exp & Hexp & ->).
  destruct (index_units exp Hexp) as (c & Hc). rewrite Hc.
  eexists. split; [reflexivity|].
  apply (binary_unit_rejected uint64_unrepresentable _ c exp Hexp Hc).
  apply fixed2_shape.
Qed.

Lemma read_back_binary_units_witness :
  exists s, Formatter.humanReadableSize 1536 = Some s /\
            SizeParser.parseSize (fun _ => 0) s = Err ("invalid size format: " +:+ s).
Proof.
  apply (read_back_binary_units (fun _ => 0) 1536). lia.
Defined.

(** ** A scanned directory below the threshold *)

(** X13. When the files that a traversal reaches sum to less than the
    threshold (and the sum fits 64 bits), nothing at all is recorded, on any
    schedule, and [run] lists what the collection held before and nothing
    else: an entry can only be listed when the scanned directory is. *)
Theorem below_threshold_lists_nothing (threshold : Z) (excludeSet : gset string)
    (path : string) (entries : list entry) (total : Z) (t : list event) :
  walkR threshold excludeSet path (Ok entries) total t ->
  Zsum (files_below excludeSet (Ok entries)) < 2 ^ 64 ->
  total < threshold ->
  recorded t = [] /\
  forall st,
    run_report path threshold (total, t) st
    = match mapM display (sort_Slice (results st)) with
      | Some lines =>
          Returned None (mkProcess (sort_Slice (results st)) (stdout st ++ lines)
                                   (stderr st ++ diagnostics t))
      | None => Panicked
      end.
Proof.
  intros Hw Hfit Hlt. pose proof (walkR_sound _ _ _ _ _ _ Hw) as [Ht Hp].
  assert (Hnone : recorded t = []).
  { destruct (recorded t) as [|fi l] eqn:E; [reflexivity|]. exfalso.
    assert (Hin : In (Recorded fi) t) by (apply recorded_In; rewrite E; left; reflexivity).
    apply (Permutation_in _ Hp) in Hin.
    pose proof (recorded_above _ _ _ _ _ Hin) as Habove.
    apply recorded_visible in Hin as (e & Hv & Hs & _).
    apply computed_size_rollup in Hs.
    pose proof (visible_files_le excludeSet _ _ _ _ Hv) as Hle.
    rewrite Ht, walk_rollup in Hlt.
    rewrite (Z.mod_small (Zsum (files_below excludeSet (Ok entries)))) in Hlt by lia.
    rewrite Z.mod_small in Hs by lia. lia. }
  split; [exact Hnone|].
  intros st. unfold run_report.
  rewrite apply_events_results, apply_events_stdout, apply_events_stderr, Hnone, app_nil_r.
  destruct (threshold <=? total) eqn:E; [apply Z.leb_le in E; lia|].
  reflexivity.
Qed.

Lemma below_threshold_lists_nothing_witness :
  recorded (snd (walkDirRecursive 1000000 ∅ "/tmp/t" Fixture.basic)) = [].
Proof.
  assert (Hfit : Zsum (files_below ∅ Fixture.basic) < 2 ^ 64) by (vm_compute; reflexivity).
  assert (Hlt : fst (walkDirRecursive 1000000 ∅ "/tmp/t" Fixture.basic) < 1000000)
    by (vm_compute; reflexivity).
  exact (proj1 (below_threshold_lists_nothing _ _ _ _ _ _
                  (walk_walkR 1000000 ∅ "/tmp/t" Fixture.basic) Hfit Hlt)).
Defined.

(** ** Runs after [resetResults] *)

Lemma same_report_collection o1 o2 : same_report o1 o2 -> same_collection o1 o2.
Proof.
  destruct o1 as [e1 s1|], o2 as [e2 s2|]; cbn; try tauto.
Qed.

Lemma same_collection_trans o1 o2 o3 :
  same_collection o1 o2 -> same_collection o2 o3 -> same_collection o1 o3.
Proof.
  destruct o1 as [e1 s1|], o2 as [e2 s2|], o3 as [e3 s3|]; cbn; try tauto.
  intros [-> ->] [-> ->]. auto.
Qed.

Lemma same_collection_sym o1 o2 : same_collection o1 o2 -> same_collection o2 o1.
Proof.
  destruct o1 as [e1 s1|], o2 as [e2 s2|]; cbn; try tauto.
  intros [-> ->]. auto.
Qed.

Lemma same_collection_after st o : same_collection (outcome_after st o) o.
Proof. destruct o as [e s|]; cbn; auto. Qed.

Section Reset.

Variable uint64_unrepresentable : spec_float -> Z.
Variable stat : string -> result entry.

Lemma runR_collection args st o :
  runR uint64_unrepresentable stat args st o ->
  same_collection o (run uint64_unrepresentable stat args st).
Proof.
  intros Hr. apply same_report_collection. unfold run.
  inversion Hr as [H|err st' H|scanPath threshold excludeSet listing st' total t H Hw];
    subst; rewrite H.
  - exact I.
  - cbn. repeat split; reflexivity.
  - apply walkR_sound in Hw as [-> Hp].
    destruct (walkDirRecursive threshold excludeSet scanPath listing) as [total t0].
    cbn [fst snd] in *. apply run_report_perm. exact Hp.
Qed.

Lemma run_after args st d :
  run uint64_unrepresentable stat args (after st d)
  = outcome_after st (run uint64_unrepresentable stat args d).
Proof.
  unfold run. rewrite run_prepare_after.
  destruct (run_prepare uint64_unrepresentable stat args d) as [[err d'|p th ex l d']|];
    cbn [option_map prepared_after outcome_after]; try reflexivity.
  apply run_report_after.
Qed.

Lemma run_reset args st :
  same_collection (run uint64_unrepresentable stat args (resetResults st))
                  (run uint64_unrepresentable stat args (mkProcess [] [] [])).
Proof.
  replace (resetResults st)
    with (after (mkProcess [] (stdout st) (stderr st)) (mkProcess [] [] []))
    by (unfold after, resetResults; cbn; rewrite !app_nil_r; reflexivity).
  rewrite run_after. apply same_collection_after.
Qed.

End Reset.

(** X14. With [resetResults] before it, as the tests call it, [run] does
    not depend on what ran earlier in the process, nor on the schedule: two
    such runs with the same arguments over the same file system end alike,
    and when they return they leave the very same collection, entry for
    entry, which is the one a run in a new process leaves. *)
Theorem reset_run_repeatable (uint64_unrepresentable : spec_float -> Z)
    (stat : string -> result entry) (args : list string) (st1 st2 : process)
    (o1 o2 : outcome) :
  runR uint64_unrepresentable stat args (resetResults st1) o1 ->
  runR uint64_unrepresentable stat args (resetResults st2) o2 ->
  same_collection o1 o2 /\
  same_collection o1 (run uint64_unrepresentable stat args (mkProcess [] [] [])).
Proof.
  intros H1 H2.
  assert (Hfresh : forall st o,
             runR uint64_unrepresentable stat args (resetResults st) o ->
             same_collection o (run uint64_unrepresentable stat args (mkProcess [] [] []))).
  { intros st o Hr. eapply same_collection_trans; [apply runR_collection, Hr|].
    apply run_reset. }
  split; [|apply (Hfresh st1), H1].
  eapply same_collection_trans; [apply (Hfresh st1), H1|].
  apply same_collection_sym, (Hfresh st2), H2.
Qed.

Lemma reset_run_repeatable_witness :
  same_collection
    (run (fun _ => 0) Fixture.stat ["spacehogs"; "/tmp/t"; "1"]
       (resetResults (mkProcess [mkFileInfo "/old" 7 false] ["earlier"] [])))
    (run (fun _ => 0) Fixture.stat ["spacehogs"; "/tmp/t"; "1"] (mkProcess [] [] [])).
Proof.
  exact (proj2 (reset_run_repeatable (fun _ => 0) Fixture.stat
                  ["spacehogs"; "/tmp/t"; "1"]
                  (mkProcess [mkFileInfo "/old" 7 false] ["earlier"] [])
                  (mkProcess [mkFileInfo "/old" 7 false] ["earlier"] []) _ _
                  (run_runR _ _ _ _) (run_runR _ _ _ _))).
Defined.

